(** * Tic-tac-toe self-play Q-learning: environment, agent and trainer

    A shallow embedding of [tic_tac_toe_ai.py].

    Conventions of the embedding:
    - a Python [str] is a [string], a Python [int] is a [Z];
    - in the model of the game, the policy and the trainer, Python numbers
      that may be floats (rewards, estimates, rates) are exact rationals
      [Q], with [Qeq_bool] and [Qlt_le_dec] for [==], [<] and [>]: the
      statements there are about which entries are read and written and
      with which arguments; the number [update_q_table] stores is studied
      on binary64 numbers, in the module [Binary64];
    - a raised exception is the [Raise] branch of [result];
    - [dict] and [collections.defaultdict] are one record [pydict] whose
      [default_factory] field tells them apart;
    - the hidden state of the [random] module is an explicit tape [rng]. *)

From Stdlib Require Import ZArith QArith Lia Lqa Bool Floats.
From stdpp Require Import base option list sorting gmap strings.

Local Open Scope Z_scope.

#[local] Set Warnings "-inexact-float".

(** ** Exceptions *)

Inductive exn : Type :=
| IndexError
| KeyError
| ValueError
| ZeroDivisionError.

Inductive result (A : Type) : Type :=
| Ok (a : A)
| Raise (e : exn).

Arguments Ok {A} a.
Arguments Raise {A} e.

#[global] Instance result_ret : MRet result := fun _ a => Ok a.
#[global] Instance result_bind : MBind result := fun _ _ f m =>
  match m with
  | Ok a => f a
  | Raise e => Raise e
  end.

(** ** Python sequences *)

(** [l[i]] for a Python list or tuple: negative indices count from the end,
    anything outside [-len, len) raises [IndexError]. *)
Definition py_getitem {A} (l : list A) (i : Z) : result A :=
  let n := Z.of_nat (length l) in
  let j := if i <? 0 then i + n else i in
  if (j <? 0) || (n <=? j) then Raise IndexError
  else match l !! Z.to_nat j with
       | Some x => Ok x
       | None => Raise IndexError
       end.

(** [l[i] = x]. *)
Definition py_setitem {A} (l : list A) (i : Z) (x : A) : result (list A) :=
  let n := Z.of_nat (length l) in
  let j := if i <? 0 then i + n else i in
  if (j <? 0) || (n <=? j) then Raise IndexError
  else Ok (<[Z.to_nat j := x]> l).

(** ** TicTacToeEnv *)

Definition EMPTY : string := " ".
Definition DRAW : string := "Draw".

(** The tuple returned by [get_state]: the nine cells. *)
Abbreviation state := (list string).

Record TicTacToeEnv : Type := mkEnv {
  board : list string;
  done : bool;
  winner : option string
}.

(** [reset]: the new object state; the returned tuple is [get_state] of it. *)
Definition reset : TicTacToeEnv :=
  {| board := replicate 9 EMPTY; done := false; winner := None |}.

Definition get_state (env : TicTacToeEnv) : state := board env.

(** [[i for i, cell in enumerate(b) if cell == " "]], counting from [i]. *)
Fixpoint empty_cells_from (i : Z) (b : list string) : list Z :=
  match b with
  | [] => []
  | cell :: b' =>
      if String.eqb cell EMPTY then i :: empty_cells_from (i + 1) b'
      else empty_cells_from (i + 1) b'
  end.

Definition get_available_actions (env : TicTacToeEnv) : list Z :=
  empty_cells_from 0 (board env).

Definition lines : list (Z * Z * Z) :=
  [ (0, 1, 2); (3, 4, 5); (6, 7, 8);
    (0, 3, 6); (1, 4, 7); (2, 5, 8);
    (0, 4, 8); (2, 4, 6) ].

(** [" " not in b] *)
Definition no_empty_cell (b : list string) : bool :=
  negb (existsb (String.eqb EMPTY) b).

(** The [for line in lines] loop of [check_winner]: the mark of the first
    completed line. The chained comparison [x == y == z != " "] evaluates
    its operands left to right and stops at the first false link. *)
Fixpoint first_line (b : list string) (ls : list (Z * Z * Z))
  : result (option string) :=
  match ls with
  | [] => Ok None
  | (i, j, k) :: ls' =>
      x ← py_getitem b i;
      y ← py_getitem b j;
      if String.eqb x y then
        z ← py_getitem b k;
        if String.eqb y z && negb (String.eqb z EMPTY) then
          w ← py_getitem b i; Ok (Some w)
        else first_line b ls'
      else first_line b ls'
  end.

Definition check_winner (b : list string) : result (option string) :=
  w ← first_line b lines;
  match w with
  | Some m => Ok (Some m)
  | None => if no_empty_cell b then Ok (Some DRAW) else Ok None
  end.

(** Truth value of [self.winner]: [None] and the empty string are false. *)
Definition truthy (w : option string) : bool :=
  match w with
  | None => false
  | Some s => negb (String.eqb s "")
  end.

(** [step]: the new object state together with the returned triple
    [(state, reward, done)]. *)
Definition step (env : TicTacToeEnv) (action : Z) (player : string)
  : result (TicTacToeEnv * (state * Q * bool)) :=
  cell ← py_getitem (board env) action;
  if negb (String.eqb cell EMPTY) || done env then
    Ok (env, (get_state env, (-10)%Q, done env))
  else
    b' ← py_setitem (board env) action player;
    w ← check_winner b';
    if truthy w then
      let reward :=
        if bool_decide (w = Some player) then 1%Q
        else if bool_decide (w = Some DRAW) then (1 # 2)%Q
        else (-1)%Q in
      let env' := {| board := b'; done := true; winner := w |} in
      Ok (env', (get_state env', reward, done env'))
    else if no_empty_cell b' then
      let env' := {| board := b'; done := true; winner := Some DRAW |} in
      Ok (env', (get_state env', (1 # 2)%Q, done env'))
    else
      let env' := {| board := b'; done := done env; winner := w |} in
      Ok (env', (get_state env', 0%Q, done env')).

(** ** Python dictionaries *)

(** A [dict] ([default_factory = None]) or a [collections.defaultdict]
    whose factory returns [v] ([default_factory = Some v]). *)
Record pydict (K : Type) `{Countable K} (V : Type) : Type := mkDict {
  default_factory : option V;
  items : gmap K V
}.

Arguments mkDict {K _ _ V} default_factory items.
Arguments default_factory {K _ _ V} _.
Arguments items {K _ _ V} _.

Section pydict_ops.
Context {K : Type} `{Countable K} {V : Type}.

(** [d[k] = v] *)
Definition dict_setitem (d : pydict K V) (k : K) (v : V) : pydict K V :=
  {| default_factory := default_factory d; items := <[k := v]> (items d) |}.

(** [d[k]]: a missing key is created from the factory when there is one
    (the dictionary changes), and raises [KeyError] otherwise. *)
Definition dict_getitem (d : pydict K V) (k : K) : result (V * pydict K V) :=
  match items d !! k with
  | Some v => Ok (v, d)
  | None =>
      match default_factory d with
      | Some v => Ok (v, dict_setitem d k v)
      | None => Raise KeyError
      end
  end.

(** [d.get(k, dflt)]: never changes [d]. *)
Definition dict_get (d : pydict K V) (k : K) (dflt : V) : V :=
  default dflt (items d !! k).

(** [k in d] *)
Definition dict_contains (d : pydict K V) (k : K) : bool :=
  bool_decide (is_Some (items d !! k)).

(** [dict(d)]: same items, no factory. *)
Definition to_dict (d : pydict K V) : pydict K V :=
  {| default_factory := None; items := items d |}.
End pydict_ops.

(** [collections.defaultdict(float)] and [collections.defaultdict(float, d)] *)
Definition defaultdict_float (init : gmap Z Q) : pydict Z Q :=
  {| default_factory := Some 0%Q; items := init |}.

(** [collections.defaultdict(lambda: collections.defaultdict(float))] *)
Definition new_q_table : pydict state (pydict Z Q) :=
  {| default_factory := Some (defaultdict_float ∅); items := ∅ |}.

(** ** Builtins on numbers *)

(** [max(a, b)]: [b] only when it is strictly greater. *)
Definition py_max2 (a b : Q) : Q := if Qlt_le_dec a b then b else a.

(** [max(l)]: the first greatest element; [ValueError] on an empty list. *)
Definition py_max (l : list Q) : result Q :=
  match l with
  | [] => Raise ValueError
  | x :: l' => Ok (foldl py_max2 x l')
  end.

(** ** The random module *)

(** The generator is a tape of draws and a cursor; every call of
    [random.uniform] or [random.choice] consumes one position. *)
Record rng : Type := mkRng {
  uniform_tape : nat → Q;
  choice_tape : nat → nat;
  cursor : nat
}.

Definition advance (g : rng) : rng :=
  {| uniform_tape := uniform_tape g; choice_tape := choice_tape g;
     cursor := S (cursor g) |}.

(** [random.uniform(0, 1)] *)
Definition random_uniform (g : rng) : Q * rng :=
  (uniform_tape g (cursor g), advance g).

(** [random.choice(l)]: [IndexError] on an empty sequence. *)
Definition random_choice {A} (l : list A) (g : rng) : result (A * rng) :=
  match l !! (choice_tape g (cursor g) `mod` length l)%nat with
  | Some x => Ok (x, advance g)
  | None => Raise IndexError
  end.

(** ** QLearningAgent *)

Record QLearningAgent : Type := mkAgent {
  player_mark : string;
  q_table : pydict state (pydict Z Q);
  lr : Q;
  gamma : Q;
  epsilon : Q;
  epsilon_decay : Q;
  min_epsilon : Q
}.

(** [__init__] *)
Definition new_agent (player_mark : string)
    (learning_rate discount_factor exploration_rate
     exploration_decay min_exploration_rate : Q) : QLearningAgent :=
  {| player_mark := player_mark;
     q_table := new_q_table;
     lr := learning_rate;
     gamma := discount_factor;
     epsilon := exploration_rate;
     epsilon_decay := exploration_decay;
     min_epsilon := min_exploration_rate |}.

(** [QLearningAgent(mark)] with the default hyperparameters. *)
Definition default_agent (mark : string) : QLearningAgent :=
  new_agent mark (1 # 10) (9 # 10) 1 (999 # 1000) (1 # 100).

Definition set_q_table (ag : QLearningAgent) (t : pydict state (pydict Z Q))
  : QLearningAgent :=
  {| player_mark := player_mark ag; q_table := t; lr := lr ag;
     gamma := gamma ag; epsilon := epsilon ag;
     epsilon_decay := epsilon_decay ag; min_epsilon := min_epsilon ag |}.

Definition set_epsilon (ag : QLearningAgent) (e : Q) : QLearningAgent :=
  {| player_mark := player_mark ag; q_table := q_table ag; lr := lr ag;
     gamma := gamma ag; epsilon := e;
     epsilon_decay := epsilon_decay ag; min_epsilon := min_epsilon ag |}.

(** The insertion-ordered dict built by
    [{action: row.get(action, 0.0) for action in available_actions}]:
    a repeated key keeps its first position. *)
Fixpoint assoc_set (k : Z) (v : Q) (d : list (Z * Q)) : list (Z * Q) :=
  match d with
  | [] => [(k, v)]
  | (k', v') :: d' =>
      if Z.eqb k k' then (k, v) :: d' else (k', v') :: assoc_set k v d'
  end.

Definition action_values (row : pydict Z Q) (available_actions : list Z)
  : list (Z * Q) :=
  foldl (fun d action => assoc_set action (dict_get row action 0%Q) d)
        [] available_actions.

(** [[action for action, q in d.items() if q == max_q]] *)
Definition best_of (d : list (Z * Q)) (max_q : Q) : list Z :=
  (List.filter (fun aq => Qeq_bool (snd aq) max_q) d).*1.

Definition choose_action (ag : QLearningAgent) (s : state)
    (available_actions : list Z) (g : rng)
  : result (option Z * QLearningAgent * rng) :=
  match available_actions with
  | [] => Ok (None, ag, g)
  | _ =>
      let '(u, g) := random_uniform g in
      if Qlt_le_dec u (epsilon ag) then
        '(a, g) ← random_choice available_actions g;
        Ok (Some a, ag, g)
      else
        '(state_q_values, t) ← dict_getitem (q_table ag) s;
        let ag := set_q_table ag t in
        let available_q_values := action_values state_q_values available_actions in
        match available_q_values with
        | [] =>
            '(a, g) ← random_choice available_actions g;
            Ok (Some a, ag, g)
        | _ =>
            max_q ← py_max (available_q_values.*2);
            let best_actions := best_of available_q_values max_q in
            '(a, g) ← random_choice best_actions g;
            Ok (Some a, ag, g)
        end
  end.

(** The bootstrap value computed at the start of [update_q_table], with the
    table as the lookup [self.q_table[next_state]] leaves it. *)
Definition max_next_q (t : pydict state (pydict Z Q)) (next_state : state)
    (next_available_actions : list Z)
  : result (Q * pydict state (pydict Z Q)) :=
  match next_available_actions with
  | [] => Ok (0%Q, t)
  | _ =>
      '(next_state_q_values, t) ← dict_getitem t next_state;
      let available_next_q :=
        (fun act => dict_get next_state_q_values act 0%Q)
          <$> next_available_actions in
      match available_next_q with
      | [] => Ok (0%Q, t)
      | _ => m ← py_max available_next_q; Ok (m, t)
      end
  end.

(** [t[s][a]]: both levels may create their entry. *)
Definition table_getitem (t : pydict state (pydict Z Q)) (s : state) (a : Z)
  : result (Q * pydict state (pydict Z Q)) :=
  '(row, t) ← dict_getitem t s;
  '(q, row) ← dict_getitem row a;
  Ok (q, dict_setitem t s row).

(** [t[s][a] = q] *)
Definition table_setitem (t : pydict state (pydict Z Q)) (s : state) (a : Z)
    (q : Q) : result (pydict state (pydict Z Q)) :=
  '(row, t) ← dict_getitem t s;
  Ok (dict_setitem t s (dict_setitem row a q)).

Definition update_q_table (ag : QLearningAgent) (s : state) (action : Z)
    (reward : Q) (next_state : state) (next_available_actions : list Z)
  : result QLearningAgent :=
  '(max_next, t) ← max_next_q (q_table ag) next_state next_available_actions;
  '(current_q, t) ← table_getitem t s action;
  let new_q :=
    (current_q + lr ag * (reward + gamma ag * max_next - current_q))%Q in
  t ← table_setitem t s action new_q;
  Ok (set_q_table ag t).

Definition decay_exploration (ag : QLearningAgent) : QLearningAgent :=
  set_epsilon ag (py_max2 (min_epsilon ag) (epsilon ag * epsilon_decay ag)%Q).

(** ** Persistence *)

(** The file system as far as [pickle] is concerned: a file holds the
    object that was dumped into it, and loading gives that object back. *)
Abbreviation files := (gmap string (pydict state (pydict Z Q))).

(** [save_q_table]: [pickle.dump(dict(self.q_table), f)] *)
Definition save_q_table (ag : QLearningAgent) (filename : string) (fs : files)
  : files :=
  <[filename := to_dict (q_table ag)]> fs.

(** The loop [for state, actions in loaded_dict.items()] of [load_q_table]. *)
Definition rebuild (loaded_dict : pydict state (pydict Z Q))
  : pydict state (pydict Z Q) :=
  map_fold (fun s actions t => dict_setitem t s (defaultdict_float (items actions)))
           new_q_table (items loaded_dict).

(** [load_q_table]: a missing file leaves the agent as it is. *)
Definition load_q_table (ag : QLearningAgent) (filename : string) (fs : files)
  : QLearningAgent :=
  match fs !! filename with
  | Some loaded_dict => set_q_table ag (rebuild loaded_dict)
  | None => ag
  end.

(** ** train *)

Inductive who : Type := AgentX | AgentO.

Definition opposite (w : who) : who :=
  match w with AgentX => AgentO | AgentO => AgentX end.

(** The four places where [train] calls [update_q_table]
    (source lines 164, 173, 182 and 187). *)
Inductive call_site : Type :=
| Immediate
| Deferred
| FinalMover
| FinalOpponent.

#[global] Instance call_site_eq_dec : EqDecision call_site.
Proof. solve_decision. Defined.

(** One call of [update_q_table] as [train] issues it. *)
Record update_call : Type := mkCall {
  site : call_site;
  callee : who;
  call_state : state;
  call_action : Z;
  call_reward : Q;
  call_next_state : state;
  call_next_available : list Z
}.

(** The variables of [train] and the objects it mutates. [current] names
    the object bound to [current_agent]; [other_agent] is always the
    opposite one. [calls] is a ghost trace of the updates of the running
    turn, newest last. *)
Record trainer : Type := mkTrainer {
  env : TicTacToeEnv;
  agent_x : QLearningAgent;
  agent_o : QLearningAgent;
  current : who;
  cur_state : state;
  last_move : gmap string (state * Z);
  stats : gmap string Z;
  gen : rng;
  calls : list update_call
}.

Definition agent_of (st : trainer) (w : who) : QLearningAgent :=
  match w with AgentX => agent_x st | AgentO => agent_o st end.

Definition set_agent (st : trainer) (w : who) (ag : QLearningAgent) : trainer :=
  mkTrainer (env st)
            (match w with AgentX => ag | AgentO => agent_x st end)
            (match w with AgentX => agent_o st | AgentO => ag end)
            (current st) (cur_state st) (last_move st) (stats st) (gen st)
            (calls st).

Definition set_env (st : trainer) (e : TicTacToeEnv) : trainer :=
  mkTrainer e (agent_x st) (agent_o st) (current st) (cur_state st)
            (last_move st) (stats st) (gen st) (calls st).

Definition set_current (st : trainer) (w : who) : trainer :=
  mkTrainer (env st) (agent_x st) (agent_o st) w (cur_state st)
            (last_move st) (stats st) (gen st) (calls st).

Definition set_cur_state (st : trainer) (s : state) : trainer :=
  mkTrainer (env st) (agent_x st) (agent_o st) (current st) s
            (last_move st) (stats st) (gen st) (calls st).

Definition set_last_move (st : trainer) (m : gmap string (state * Z)) : trainer :=
  mkTrainer (env st) (agent_x st) (agent_o st) (current st) (cur_state st)
            m (stats st) (gen st) (calls st).

Definition set_stats (st : trainer) (m : gmap string Z) : trainer :=
  mkTrainer (env st) (agent_x st) (agent_o st) (current st) (cur_state st)
            (last_move st) m (gen st) (calls st).

Definition set_gen (st : trainer) (g : rng) : trainer :=
  mkTrainer (env st) (agent_x st) (agent_o st) (current st) (cur_state st)
            (last_move st) (stats st) g (calls st).

Definition set_calls (st : trainer) (l : list update_call) : trainer :=
  mkTrainer (env st) (agent_x st) (agent_o st) (current st) (cur_state st)
            (last_move st) (stats st) (gen st) l.

(** [agent.update_q_table(s, a, r, ns, na)] on the agent [w], recorded. *)
Definition logged_update (st : trainer) (c : call_site) (w : who)
    (s : state) (a : Z) (r : Q) (ns : state) (na : list Z) : result trainer :=
  ag ← update_q_table (agent_of st w) s a r ns na;
  let st := set_agent st w ag in
  Ok (set_calls st (calls st ++ [mkCall c w s a r ns na])).

(** [-reward if reward != 0.5 else reward] *)
Definition opponent_reward (reward : Q) : Q :=
  if negb (Qeq_bool reward (1 # 2)) then (- reward)%Q else reward.

(** [if winner in stats: stats[winner] += 1] *)
Definition tally (stats : gmap string Z) (winner : option string)
  : gmap string Z :=
  match winner with
  | Some w =>
      match stats !! w with
      | Some n => <[w := n + 1]> stats
      | None => stats
      end
  | None => stats
  end.

Inductive flow : Type := Continue | Break.

(** One iteration of the [while not done] loop. *)
Definition turn (st : trainer) : result (flow * trainer) :=
  let st := set_calls st [] in
  let s := cur_state st in
  let cur := current st in
  let oth := opposite cur in
  let available_actions := get_available_actions (env st) in
  '(action, ag, g) ← choose_action (agent_of st cur) s available_actions (gen st);
  let st := set_gen (set_agent st cur ag) g in
  match action with
  | None => Ok (Break, st)
  | Some action =>
      '(e, (next_state, reward, is_done)) ←
        step (env st) action (player_mark (agent_of st cur));
      let st := set_env st e in
      let next_available_actions := get_available_actions (env st) in
      st ← logged_update st Immediate cur
             s action reward next_state next_available_actions;
      st ← match last_move st !! player_mark (agent_of st cur) with
           | Some (prev_state, prev_action) =>
               logged_update st Deferred oth prev_state prev_action
                 (opponent_reward reward) s available_actions
           | None => Ok st
           end;
      let st :=
        set_last_move st
          (<[player_mark (agent_of st oth) := (s, action)]> (last_move st)) in
      let st := set_cur_state st next_state in
      if is_done : bool then
        st ← logged_update st FinalMover cur
               (cur_state st) action reward next_state [];
        st ← match last_move st !! player_mark (agent_of st cur) with
             | Some (prev_state, prev_action) =>
                 logged_update st FinalOpponent oth prev_state prev_action
                   (opponent_reward reward) (cur_state st) []
             | None => Ok st
             end;
        Ok (Break, set_stats st (tally (stats st) (winner (env st))))
      else
        Ok (Continue, set_current st oth)
  end.

(** The [while not done] loop; [None] when the fuel runs out. *)
Fixpoint while_not_done (fuel : nat) (st : trainer) : option (result trainer) :=
  match fuel with
  | O => None
  | S fuel' =>
      match turn st with
      | Raise e => Some (Raise e)
      | Ok (Break, st') => Some (Ok st')
      | Ok (Continue, st') => while_not_done fuel' st'
      end
  end.

(** The head of the [for] body: [state = env.reset()], [current_agent =
    agent_x], [other_agent = agent_o], [last_move = {}]. *)
Definition start_episode (st : trainer) : trainer :=
  mkTrainer reset (agent_x st) (agent_o st) AgentX (get_state reset)
            ∅ (stats st) (gen st) [].

(** [a % b] on integers *)
Definition py_mod (a b : Z) : result Z :=
  if b =? 0 then Raise ZeroDivisionError else Ok (a `mod` b).

(** [a // b] on integers *)
Definition py_floordiv (a b : Z) : result Z :=
  if b =? 0 then Raise ZeroDivisionError else Ok (a `div` b).

Definition decay_both (st : trainer) : trainer :=
  let st := set_agent st AgentX (decay_exploration (agent_x st)) in
  set_agent st AgentO (decay_exploration (agent_o st)).

(** The [for episode in range(num_episodes)] loop, [todo] episodes left. *)
Fixpoint episodes (fuel : nat) (print_interval : Z) (todo : nat) (episode : Z)
    (st : trainer) : option (result trainer) :=
  match todo with
  | O => Some (Ok st)
  | S todo' =>
      match while_not_done fuel (start_episode st) with
      | None => None
      | Some (Raise e) => Some (Raise e)
      | Some (Ok st) =>
          let st := decay_both st in
          match py_mod (episode + 1) print_interval with
          | Raise e => Some (Raise e)
          | Ok _ => episodes fuel print_interval todo' (episode + 1) st
          end
      end
  end.

(** [train(env, agent_x, agent_o, num_episodes)]: the returned [stats]
    is the field of the final trainer, which also holds the mutated
    objects. [fuel] bounds the turns of one episode. *)
Definition train (fuel : nat) (e : TicTacToeEnv) (ax ao : QLearningAgent)
    (num_episodes : Z) (g : rng) : option (result trainer) :=
  let stats0 : gmap string Z := {[ "X" := 0; "O" := 0; "Draw" := 0 ]} in
  match py_floordiv num_episodes 10 with
  | Raise ex => Some (Raise ex)
  | Ok print_interval =>
      episodes fuel print_interval (Z.to_nat num_episodes) 0
        (mkTrainer e ax ao AgentX (get_state e) ∅ stats0 g [])
  end.

(** ** play_game *)







(** ** tic_tac_toe_gui.py: the agents of the window *)

(** [load_ai_agents]: two agents with the default hyperparameters, each
    loading its file. *)
Definition load_ai_agents (fs : files) : QLearningAgent * QLearningAgent :=
  let agent_x := default_agent "X" in
  let agent_o := default_agent "O" in
  (load_q_table agent_x "q_table_x.pkl" fs,
   load_q_table agent_o "q_table_o.pkl" fs).

(** ** tic_tac_toe_gui.py: the window *)

(** The state of [TicTacToeFrame] that its handlers read back:
    [buttons] holds the label of [self.buttons[r][c]] (what [GetLabel]
    returns after the last [SetLabel]); colours, enabled flags and layout
    are written and never read. *)
Record TicTacToeFrame : Type := mkFrame {
  buttons : list (list string);
  current_player : string;
  game_over : bool;
  ai_playback_active : bool;
  status_label : string
}.

(** [self.buttons[r][c].GetLabel()] *)
Definition get_label (b : list (list string)) (r c : Z) : result string :=
  row ← py_getitem b r; py_getitem row c.

(** [self.buttons[r][c].SetLabel(label)] *)
Definition set_label (b : list (list string)) (r c : Z) (label : string)
  : result (list (list string)) :=
  row ← py_getitem b r;
  row' ← py_setitem row c label;
  py_setitem b r row'.

(** One test [x == y == z != ""] of the window's [check_winner] on the
    buttons at [p1], [p2], [p3], returning the first label when it holds. *)
Definition gui_triple (b : list (list string)) (p1 p2 p3 : Z * Z)
  : result (option string) :=
  x ← get_label b p1.1 p1.2;
  y ← get_label b p2.1 p2.2;
  if String.eqb x y then
    z ← get_label b p3.1 p3.2;
    if String.eqb y z && negb (String.eqb z "") then
      w ← get_label b p1.1 p1.2; Ok (Some w)
    else Ok None
  else Ok None.

(** The loops [for r in range(3)] over the rows and [for c in range(3)]
    over the columns: the first test that holds returns. *)
Fixpoint gui_rows (b : list (list string)) (rs : list Z) : result (option string) :=
  match rs with
  | [] => Ok None
  | r :: rs' =>
      w ← gui_triple b (r, 0) (r, 1) (r, 2);
      match w with
      | Some m => Ok (Some m)
      | None => gui_rows b rs'
      end
  end.

Fixpoint gui_columns (b : list (list string)) (cs : list Z) : result (option string) :=
  match cs with
  | [] => Ok None
  | c :: cs' =>
      w ← gui_triple b (0, c) (1, c) (2, c);
      match w with
      | Some m => Ok (Some m)
      | None => gui_columns b cs'
      end
  end.

(** The closing double loop: is some label empty? *)
Fixpoint gui_blank_in_row (b : list (list string)) (r : Z) (cs : list Z)
  : result bool :=
  match cs with
  | [] => Ok false
  | c :: cs' =>
      l ← get_label b r c;
      if String.eqb l "" then Ok true else gui_blank_in_row b r cs'
  end.

Fixpoint gui_blank (b : list (list string)) (rs : list Z) : result bool :=
  match rs with
  | [] => Ok false
  | r :: rs' =>
      found ← gui_blank_in_row b r [0; 1; 2];
      if found : bool then Ok true else gui_blank b rs'
  end.

(** [TicTacToeFrame.check_winner]: the label of a completed line,
    ["Draw"], or [False], which is [None] here. *)
Definition gui_check_winner (b : list (list string)) : result (option string) :=
  w ← gui_rows b [0; 1; 2];
  match w with
  | Some m => Ok (Some m)
  | None =>
      w ← gui_columns b [0; 1; 2];
      match w with
      | Some m => Ok (Some m)
      | None =>
          w ← gui_triple b (0, 0) (1, 1) (2, 2);
          match w with
          | Some m => Ok (Some m)
          | None =>
              w ← gui_triple b (0, 2) (1, 1) (2, 0);
              match w with
              | Some m => Ok (Some m)
              | None =>
                  blank ← gui_blank b [0; 1; 2];
                  if blank : bool then Ok None else Ok (Some DRAW)
              end
          end
      end
  end.

(** [_handle_game_over(winner)] *)
Definition handle_game_over (f : TicTacToeFrame) (w : string) : TicTacToeFrame :=
  {| buttons := buttons f;
     current_player := current_player f;
     game_over := true;
     ai_playback_active := false;
     status_label :=
       if String.eqb w DRAW then "It's a Draw!"
       else "Player " +:+ w +:+ " wins!" |}.

(** [on_button_click(event, row, col)] *)
Definition on_button_click (f : TicTacToeFrame) (row col : Z)
  : result TicTacToeFrame :=
  if ai_playback_active f then Ok f
  else
    label ← get_label (buttons f) row col;
    if game_over f || negb (String.eqb label "") then Ok f
    else
      b ← set_label (buttons f) row col (current_player f);
      w ← gui_check_winner b;
      let f := mkFrame b (current_player f) (game_over f)
                 (ai_playback_active f) (status_label f) in
      if truthy w then
        match w with
        | Some m => Ok (handle_game_over f m)
        | None => Ok f
        end
      else
        let p := if String.eqb (current_player f) "X" then "O" else "X" in
        Ok (mkFrame (buttons f) p (game_over f) (ai_playback_active f)
              ("Player " +:+ p +:+ "'s turn")).

(** The loops of [on_restart] over the buttons: [SetLabel("")] on each. *)
Fixpoint clear_row (b : list (list string)) (r : Z) (cs : list Z)
  : result (list (list string)) :=
  match cs with
  | [] => Ok b
  | c :: cs' => b' ← set_label b r c ""; clear_row b' r cs'
  end.

Fixpoint clear_rows (b : list (list string)) (rs : list Z)
  : result (list (list string)) :=
  match rs with
  | [] => Ok b
  | r :: rs' => b' ← clear_row b r [0; 1; 2]; clear_rows b' rs'
  end.

(** [on_restart]: with or without a playback thread alive, the fields end
    up the same. *)
Definition on_restart (f : TicTacToeFrame) : result TicTacToeFrame :=
  b ← clear_rows (buttons f) [0; 1; 2];
  Ok {| buttons := b;
        current_player := "X";
        game_over := false;
        ai_playback_active := false;
        status_label := "Player " +:+ "X" +:+ "'s turn" |}.

(** [label if label else " "] *)
Definition cell_of_label (label : string) : string :=
  if String.eqb label "" then " " else label.

(** The head of the loop of [run_ai_game]: the board and the free cells
    read off the buttons, row by row. *)
Fixpoint read_row (b : list (list string)) (r : Z) (cs : list Z)
    (acc : list string * list Z) : result (list string * list Z) :=
  match cs with
  | [] => Ok acc
  | c :: cs' =>
      label ← get_label b r c;
      let board_state_list := acc.1 ++ [cell_of_label label] in
      let available_actions_indices :=
        if String.eqb label "" then acc.2 ++ [r * 3 + c] else acc.2 in
      read_row b r cs' (board_state_list, available_actions_indices)
  end.

Fixpoint read_rows (b : list (list string)) (rs : list Z)
    (acc : list string * list Z) : result (list string * list Z) :=
  match rs with
  | [] => Ok acc
  | r :: rs' => acc' ← read_row b r [0; 1; 2] acc; read_rows b rs' acc'
  end.

Definition read_board (b : list (list string)) : result (state * list Z) :=
  read_rows b [0; 1; 2] ([], []).

(** [divmod(action_index, 3)] *)
Definition py_divmod3 (a : Z) : Z * Z := (a `div` 3, a `mod` 3).

(** * The value update on binary64 numbers *)

(** The estimates are Python floats. Where a statement is about the number
    [update_q_table] stores, not only about the entry it writes, the method
    is read on the kernel's binary64 numbers: each [+], [-] and [*] of
    source line 114 rounds to nearest, ties to even, as CPython's does, and
    [max] compares with the floats' [>]. An [int] operand (a reward 0, 1,
    -1 or -10, the terminal [max_next_q = 0]) stands as the float of the
    same value, to which the mixed operation converts it. *)
Module Binary64.

(** [max(a, b)]: [b] only when [b > a]. *)
Definition py_max2 (a b : float) : float := if (a <? b)%float then b else a.

(** [max(l)]: [ValueError] on an empty list. *)
Definition py_max (l : list float) : result float :=
  match l with
  | [] => Raise ValueError
  | x :: l' => Ok (foldl py_max2 x l')
  end.

(** [collections.defaultdict(float)] and [collections.defaultdict(float, d)] *)
Definition defaultdict_float (init : gmap Z float) : pydict Z float :=
  {| default_factory := Some 0%float; items := init |}.

(** [collections.defaultdict(lambda: collections.defaultdict(float))] *)
Definition new_q_table : pydict state (pydict Z float) :=
  {| default_factory := Some (defaultdict_float ∅); items := ∅ |}.

Record QLearningAgent : Type := mkAgent {
  player_mark : string;
  q_table : pydict state (pydict Z float);
  lr : float;
  gamma : float;
  epsilon : float;
  epsilon_decay : float;
  min_epsilon : float
}.

Definition new_agent (player_mark : string)
    (learning_rate discount_factor exploration_rate
     exploration_decay min_exploration_rate : float) : QLearningAgent :=
  {| player_mark := player_mark;
     q_table := new_q_table;
     lr := learning_rate;
     gamma := discount_factor;
     epsilon := exploration_rate;
     epsilon_decay := exploration_decay;
     min_epsilon := min_exploration_rate |}.

(** [QLearningAgent(mark)] with the default hyperparameters. *)
Definition default_agent (mark : string) : QLearningAgent :=
  new_agent mark 0.1%float 0.9%float 1%float 0.999%float 0.01%float.

Definition set_q_table (ag : QLearningAgent)
    (t : pydict state (pydict Z float)) : QLearningAgent :=
  {| player_mark := player_mark ag; q_table := t; lr := lr ag;
     gamma := gamma ag; epsilon := epsilon ag;
     epsilon_decay := epsilon_decay ag; min_epsilon := min_epsilon ag |}.

(** The bootstrap value computed at the start of [update_q_table], with the
    table as the lookup [self.q_table[next_state]] leaves it. *)
Definition max_next_q (t : pydict state (pydict Z float)) (next_state : state)
    (next_available_actions : list Z)
  : result (float * pydict state (pydict Z float)) :=
  match next_available_actions with
  | [] => Ok (0%float, t)
  | _ =>
      '(next_state_q_values, t) ← dict_getitem t next_state;
      let available_next_q :=
        (fun act => dict_get next_state_q_values act 0%float)
          <$> next_available_actions in
      match available_next_q with
      | [] => Ok (0%float, t)
      | _ => m ← py_max available_next_q; Ok (m, t)
      end
  end.

(** [t[s][a]]: both levels may create their entry. *)
Definition table_getitem (t : pydict state (pydict Z float)) (s : state)
    (a : Z) : result (float * pydict state (pydict Z float)) :=
  '(row, t) ← dict_getitem t s;
  '(q, row) ← dict_getitem row a;
  Ok (q, dict_setitem t s row).

(** [t[s][a] = q] *)
Definition table_setitem (t : pydict state (pydict Z float)) (s : state)
    (a : Z) (q : float) : result (pydict state (pydict Z float)) :=
  '(row, t) ← dict_getitem t s;
  Ok (dict_setitem t s (dict_setitem row a q)).

Definition update_q_table (ag : QLearningAgent) (s : state) (action : Z)
    (reward : float) (next_state : state) (next_available_actions : list Z)
  : result QLearningAgent :=
  '(max_next, t) ← max_next_q (q_table ag) next_state next_available_actions;
  '(current_q, t) ← table_getitem t s action;
  let new_q :=
    (current_q + lr ag * (reward + gamma ag * max_next - current_q))%float in
  t ← table_setitem t s action new_q;
  Ok (set_q_table ag t).

(** *** Vocabulary *)

(** The number a lookup [t[s][a]] gives when it succeeds: the stored
    estimate, and zero for a pair that was never stored. *)
Definition estimate (t : pydict state (pydict Z float)) (s : state) (a : Z)
  : float :=
  match items t !! s with
  | Some row => dict_get row a 0%float
  | None => 0%float
  end.

(** An estimate for [(s, a)] has been written into the table. *)
Definition stored (t : pydict state (pydict Z float)) (s : state) (a : Z)
  : Prop :=
  ∃ row, items t !! s = Some row ∧ is_Some (items row !! a).

(** The shape [__init__] gives the table and [update_q_table] keeps: a
    defaultdict of new [defaultdict(float)] rows, every row a
    [defaultdict(float)]. *)
Definition wf_table (t : pydict state (pydict Z float)) : Prop :=
  default_factory t = Some (defaultdict_float ∅) ∧
  ∀ s row, items t !! s = Some row → default_factory row = Some 0%float.

Definition same_estimates (t t' : pydict state (pydict Z float)) : Prop :=
  ∀ s a, estimate t' s a = estimate t s a.

(** [m] is the bootstrap value of [update_q_table] for the table [t]: zero
    without next actions, otherwise the estimate of one of them that no
    other exceeds. *)
Definition is_max_next (t : pydict state (pydict Z float)) (next_state : state)
    (next_available_actions : list Z) (m : float) : Prop :=
  (next_available_actions = [] → m = 0%float) ∧
  (next_available_actions ≠ [] →
     (∃ a, a ∈ next_available_actions ∧ m = estimate t next_state a) ∧
     (∀ a, a ∈ next_available_actions →
           (m <? estimate t next_state a)%float = false)).

(** [n] calls of [update_q_table] with the same arguments. *)
Fixpoint repeat_update (n : nat) (ag : QLearningAgent) (s : state) (a : Z)
    (r : float) (ns : state) (na : list Z) : result QLearningAgent :=
  match n with
  | O => Ok ag
  | S n' =>
      ag' ← repeat_update n' ag s a r ns na;
      update_q_table ag' s a r ns na
  end.

End Binary64.

(** * Vocabulary of the statements *)

(** The position a Python index denotes. *)
Definition index_of {A} (l : list A) (i : Z) : nat :=
  Z.to_nat (if i <? 0 then i + Z.of_nat (length l) else i).

(** A string that can stand in a cell or be played without being mistaken
    for a false value or for the draw label. The marks ["X"], ["O"] and the
    empty cell [" "] all qualify. *)
Definition mark_ok (s : string) : Prop := s ≠ "" ∧ s ≠ DRAW.

(** The three cells of line [l] all hold the mark [m]. *)
Definition line_complete (b : list string) (l : Z * Z * Z) (m : string) : Prop :=
  py_getitem b l.1.1 = Ok m ∧ py_getitem b l.1.2 = Ok m ∧
  py_getitem b l.2 = Ok m ∧ m ≠ EMPTY.

Definition wins (b : list string) (m : string) : Prop :=
  ∃ l, l ∈ lines ∧ line_complete b l m.

Definition has_line (b : list string) : Prop := ∃ m, wins b m.

(** Environments that [reset] and [step] with the marks ["X"] and ["O"]
    can produce. *)
Inductive reachable : TicTacToeEnv → Prop :=
| reachable_reset : reachable reset
| reachable_step e action player e' out :
    reachable e →
    player = "X" ∨ player = "O" →
    step e action player = Ok (e', out) →
    reachable e'.


(** A sequence of calls [step(action, player)], each on the environment the
    previous one left. *)
Fixpoint play (moves : list (Z * string)) (e : TicTacToeEnv)
  : result TicTacToeEnv :=
  match moves with
  | [] => Ok e
  | (action, player) :: moves' =>
      '(e', _) ← step e action player; play moves' e'
  end.

(** X completes the top row with its third mark. *)
Definition x_wins_early : TicTacToeEnv :=
  {| board := ["X"; "X"; "X"; "O"; "O"; " "; " "; " "; " "];
     done := true; winner := Some "X" |}.


(** What holds of every reachable environment: nine cells, none of them a
    false value or the draw label, and the flag set exactly when
    [check_winner] reports an outcome. *)
Definition env_inv (e : TicTacToeEnv) : Prop :=
  length (board e) = 9%nat ∧
  Forall mark_ok (board e) ∧
  (done e = true ↔ check_winner (board e) ≠ Ok None).

(** The three indices of a line fall inside a sequence of [n] cells. *)
Definition line_in_range (n : nat) (l : Z * Z * Z) : Prop :=
  (0 ≤ l.1.1 < Z.of_nat n) ∧ (0 ≤ l.1.2 < Z.of_nat n) ∧ (0 ≤ l.2 < Z.of_nat n).


(** The number a lookup [t[s][a]] gives when it succeeds: the stored
    estimate, and zero for a pair that was never stored. *)
Definition estimate (t : pydict state (pydict Z Q)) (s : state) (a : Z) : Q :=
  match items t !! s with
  | Some row => dict_get row a 0%Q
  | None => 0%Q
  end.

(** An estimate for [(s, a)] has been written into the table. *)
Definition stored (t : pydict state (pydict Z Q)) (s : state) (a : Z) : Prop :=
  ∃ row, items t !! s = Some row ∧ is_Some (items row !! a).

(** The shape [__init__] and [load_q_table] give the table and every
    operation of the agent keeps: a defaultdict of new
    [defaultdict(float)] rows, every row a [defaultdict(float)]. *)
Definition wf_table (t : pydict state (pydict Z Q)) : Prop :=
  default_factory t = Some (defaultdict_float ∅) ∧
  ∀ s row, items t !! s = Some row → default_factory row = Some 0%Q.

Definition same_estimates (t t' : pydict state (pydict Z Q)) : Prop :=
  ∀ s a, estimate t' s a = estimate t s a.

(** Everything of an agent but its table and its exploration rate. *)
Definition same_settings (ag ag' : QLearningAgent) : Prop :=
  player_mark ag' = player_mark ag ∧ lr ag' = lr ag ∧ gamma ag' = gamma ag ∧
  epsilon_decay ag' = epsilon_decay ag ∧ min_epsilon ag' = min_epsilon ag.


(** [m] is the bootstrap value of [update_q_table] for the table [t]. *)
Definition is_max_next (t : pydict state (pydict Z Q)) (next_state : state)
    (next_available_actions : list Z) (m : Q) : Prop :=
  (next_available_actions = [] → m = 0%Q) ∧
  (next_available_actions ≠ [] →
     (∃ a, a ∈ next_available_actions ∧ m = estimate t next_state a) ∧
     (∀ a, a ∈ next_available_actions → (estimate t next_state a <= m)%Q)).

(** [n] calls of [update_q_table] with the same arguments. *)
Fixpoint repeat_update (n : nat) (ag : QLearningAgent) (s : state) (a : Z)
    (r : Q) (ns : state) (na : list Z) : result QLearningAgent :=
  match n with
  | O => Ok ag
  | S n' =>
      ag' ← repeat_update n' ag s a r ns na;
      update_q_table ag' s a r ns na
  end.

(** From [e] to [e'] is a move toward [target] that does not pass it. *)
Definition moves_toward (target e e' : Q) : Prop :=
  ((e <= target)%Q → (e <= e')%Q ∧ (e' <= target)%Q) ∧
  ((target <= e)%Q → (target <= e')%Q ∧ (e' <= e)%Q).

(** The exploration rate after [n] calls of [decay_exploration]. *)
Definition epsilon_after (n : nat) (ag : QLearningAgent) : Q :=
  epsilon (Nat.iter n decay_exploration ag).


(** What [train] issues at the two places where the opponent is updated:
    a call when [last_move] has an entry under the mover's mark. *)
Definition deferred_calls (c : call_site) (moves : gmap string (state * Z))
    (mark : string) (oth : who) (reward : Q) (ns : state) (na : list Z)
  : list update_call :=
  match moves !! mark with
  | Some (prev_state, prev_action) =>
      [mkCall c oth prev_state prev_action (opponent_reward reward) ns na]
  | None => []
  end.

Definition same_marks (st st' : trainer) : Prop :=
  ∀ w, player_mark (agent_of st' w) = player_mark (agent_of st w).

Definition agents_wf (st : trainer) : Prop :=
  wf_table (q_table (agent_x st)) ∧ wf_table (q_table (agent_o st)).

(** What holds whenever the [while] loop of [train] starts a turn. *)
Definition trainer_inv (st : trainer) : Prop :=
  length (board (env st)) = 9%nat ∧ done (env st) = false ∧
  agents_wf st ∧
  player_mark (agent_x st) ≠ EMPTY ∧ player_mark (agent_o st) ≠ EMPTY.


(** A generator that always draws 0 and always picks the first element. *)
Definition tape0 : rng := mkRng (fun _ => 0%Q) (fun _ => 0%nat) 0.

(** The trainer in the middle of an episode: X and O have moved twice
    each, X is to move and can complete the top row. *)
Definition before_win : trainer :=
  {| env := mkEnv ["X"; "X"; " "; "O"; "O"; " "; " "; " "; " "] false None;
     agent_x := default_agent "X";
     agent_o := default_agent "O";
     current := AgentX;
     cur_state := ["X"; "X"; " "; "O"; "O"; " "; " "; " "; " "];
     last_move :=
       {[ "X" := (["X"; "X"; " "; "O"; " "; " "; " "; " "; " "], 4);
          "O" := (["X"; " "; " "; "O"; " "; " "; " "; " "; " "], 1) ]};
     stats := {[ "X" := 0; "O" := 0; "Draw" := 0 ]};
     gen := tape0;
     calls := [] |}.


(** A cell of a game played with the marks ["X"] and ["O"]. *)
Definition xo_cell (c : string) : Prop := c = EMPTY ∨ c = "X" ∨ c = "O".

(** The outcomes [train] keeps a tally of. *)
Definition xo_outcome (m : string) : Prop := m = "X" ∨ m = "O" ∨ m = DRAW.

(** The rewards [step] hands out when the mover cannot lose by moving. *)
Definition mover_reward (r : Q) : Prop :=
  r = (-10)%Q ∨ r = 0%Q ∨ r = (1 # 2)%Q ∨ r = 1%Q.


(** [ag'] is [ag] with possibly another table. *)
Definition same_but_table (ag ag' : QLearningAgent) : Prop :=
  ag' = set_q_table ag (q_table ag').

(** The number of games the tally of [train] has counted. *)
Definition tally_total (stats : gmap string Z) : Z :=
  default 0 (stats !! "X") + default 0 (stats !! "O") + default 0 (stats !! DRAW).

Definition tally_keys (stats : gmap string Z) : Prop :=
  is_Some (stats !! "X") ∧ is_Some (stats !! "O") ∧ is_Some (stats !! DRAW).

Definition xo_mark (m : string) : Prop := m = "X" ∨ m = "O".


(** A three by three grid of labels. *)
Definition grid3 (b : list (list string)) : Prop :=
  length b = 3%nat ∧ Forall (fun row => length row = 3%nat) b.

(** No button carries the one-blank label that stands for an empty cell in
    the environment. *)
Definition labels_ok (b : list (list string)) : Prop :=
  Forall (Forall (fun l => l ≠ EMPTY)) b.

(** Every button is unlabelled or carries X or O. *)
Definition labels_xo (b : list (list string)) : Prop :=
  Forall (Forall (fun l => l = "" ∨ l = "X" ∨ l = "O")) b.

(** The board [run_ai_game] reads off the buttons. *)
Definition frame_board (b : list (list string)) : state :=
  cell_of_label <$> concat b.

(** The first of the triples whose three entries are equal and not [blank]. *)
Fixpoint scan (blank : string) (ts : list (string * string * string))
  : option string :=
  match ts with
  | [] => None
  | (x, y, z) :: ts' =>
      if String.eqb x y && (String.eqb y z && negb (String.eqb z blank))
      then Some x else scan blank ts'
  end.


(** A sequence of clicks, each on the window the previous one left. *)
Fixpoint click_all (cs : list (Z * Z)) (f : TicTacToeFrame)
  : result TicTacToeFrame :=
  match cs with
  | [] => Ok f
  | (row, col) :: cs' => f' ← on_button_click f row col; click_all cs' f'
  end.

(** The window shows the position of the environment. *)
Definition frame_matches (f : TicTacToeFrame) (e : TicTacToeEnv) : Prop :=
  board e = frame_board (buttons f) ∧ done e = game_over f.

(** A window in a game between two people: nine buttons, unlabelled or
    carrying X or O, X or O to play, no playback running. *)
Definition frame_ok (f : TicTacToeFrame) : Prop :=
  grid3 (buttons f) ∧ labels_xo (buttons f) ∧ xo_mark (current_player f) ∧
  ai_playback_active f = false.

(** The status line [_handle_game_over] writes for the outcome [m]. *)
Definition outcome_message (m : string) : string :=
  if String.eqb m DRAW then "It's a Draw!" else "Player " +:+ m +:+ " wins!".

(** * Properties *)

#[local] Arguments String.eqb : simpl never.

(** ** The error monad *)

Lemma bind_Ok {A B} (m : result A) (f : A → result B) (b : B) :
  m ≫= f = Ok b → ∃ a, m = Ok a ∧ f a = Ok b.
Proof. destruct m as [a|e]; simpl; [eauto | discriminate]. Qed.

Ltac inv_bind H :=
  let a := fresh "x" in
  let Hm := fresh "Hm" in
  apply bind_Ok in H; destruct H as (a & Hm & H).

Tactic Notation "bind_inv" hyp(H) "as" simple_intropattern(pat) ident(Hfst) :=
  apply bind_Ok in H; destruct H as (pat & Hfst & H).

(** ** Sequences *)

Lemma py_getitem_nat {A} (l : list A) (n : nat) (x : A) :
  l !! n = Some x → py_getitem l (Z.of_nat n) = Ok x.
Proof.
  intros Hx. pose proof (lookup_lt_Some _ _ _ Hx) as Hlt.
  unfold py_getitem.
  destruct (Z.ltb_spec (Z.of_nat n) 0); [lia|].
  destruct (Z.ltb_spec (Z.of_nat n) 0); [lia|].
  destruct (Z.leb_spec (Z.of_nat (length l)) (Z.of_nat n)); [lia|].
  simpl. by rewrite Nat2Z.id, Hx.
Qed.

Lemma py_getitem_Ok {A} (l : list A) (i : Z) (x : A) :
  py_getitem l i = Ok x → l !! index_of l i = Some x.
Proof.
  unfold py_getitem, index_of.
  destruct (_ || _); [discriminate|].
  destruct (l !! _) eqn:E; [|discriminate]. by intros [= ->].
Qed.

Lemma py_setitem_Ok {A} (l : list A) (i : Z) (x y : A) :
  py_getitem l i = Ok x → py_setitem l i y = Ok (<[index_of l i := y]> l).
Proof.
  unfold py_getitem, py_setitem, index_of.
  by destruct (_ || _).
Qed.

(** ** The board *)

Lemma board_cells (b : list string) :
  length b = 9%nat →
  ∃ c0 c1 c2 c3 c4 c5 c6 c7 c8, b = [c0; c1; c2; c3; c4; c5; c6; c7; c8].
Proof.
  intros Hlen.
  do 9 (destruct b as [|? b]; [discriminate|]).
  destruct b; [|discriminate]. by repeat eexists.
Qed.

Lemma no_empty_cell_spec (b : list string) :
  no_empty_cell b = true ↔ EMPTY ∉ b.
Proof.
  unfold no_empty_cell. rewrite negb_true_iff.
  induction b as [|c b IH]; simpl.
  - split; [intros _; apply not_elem_of_nil | done].
  - rewrite not_elem_of_cons, orb_false_iff, IH.
    destruct (String.eqb_spec EMPTY c) as [Hc|Hc].
    + split; [intros [? _]; discriminate | intros [? _]; done].
    + split; intros [_ ?]; done.
Qed.

Lemma elem_of_empty_cells (b : list string) (i a : Z) :
  a ∈ empty_cells_from i b ↔
  ∃ n : nat, a = i + Z.of_nat n ∧ b !! n = Some EMPTY.
Proof.
  revert i. induction b as [|c b IH]; intros i; simpl.
  - split; [by intros ?%elem_of_nil | by intros (n & _ & ?)].
  - destruct (String.eqb_spec c EMPTY) as [->|Hc].
    + rewrite elem_of_cons, IH. split.
      * intros [->|(n & -> & Hn)]; [exists 0%nat | exists (S n)];
          split; try done; lia.
      * intros ([|n] & -> & Hn); [left; lia|].
        right. exists n. split; [lia | done].
    + rewrite IH. split.
      * intros (n & -> & Hn). exists (S n). split; [lia | done].
      * intros ([|n] & -> & Hn); [simpl in Hn; congruence|].
        exists n. split; [lia | done].
Qed.

Lemma empty_cells_nil (b : list string) (i : Z) :
  empty_cells_from i b = [] ↔ no_empty_cell b = true.
Proof.
  rewrite no_empty_cell_spec. split.
  - intros Hnil [n Hn]%list_elem_of_lookup.
    assert (i + Z.of_nat n ∈ empty_cells_from i b) as Hin
      by (apply elem_of_empty_cells; eauto).
    rewrite Hnil in Hin. by apply elem_of_nil in Hin.
  - intros Hno. destruct (empty_cells_from i b) as [|a l] eqn:E; [done|].
    assert (a ∈ empty_cells_from i b) as Hin by (rewrite E; left).
    apply elem_of_empty_cells in Hin as (n & _ & Hn).
    exfalso. apply Hno. by eapply list_elem_of_lookup_2.
Qed.

(** An available action indexes an empty cell. *)
Lemma available_action_empty (e : TicTacToeEnv) (a : Z) :
  a ∈ get_available_actions e →
  py_getitem (board e) a = Ok EMPTY ∧ index_of (board e) a = Z.to_nat a ∧ 0 ≤ a.
Proof.
  intros (n & -> & Hn)%elem_of_empty_cells. rewrite Z.add_0_l.
  split; [by apply py_getitem_nat|].
  split; [|lia].
  unfold index_of. destruct (Z.ltb_spec (Z.of_nat n) 0); lia.
Qed.

(** Filling an empty cell with a mark leaves one empty cell fewer. *)
Lemma empty_cells_fill (b : list string) (i : Z) (n : nat) (p : string) :
  b !! n = Some EMPTY → p ≠ EMPTY →
  S (length (empty_cells_from i (<[n := p]> b))) = length (empty_cells_from i b).
Proof.
  revert i n. induction b as [|c b IH]; intros i n Hn Hp; [done|].
  destruct n as [|n]; simpl in *.
  - injection Hn as ->. simpl.
    by destruct (String.eqb_spec p EMPTY).
  - destruct (String.eqb c EMPTY); simpl; by rewrite (IH _ _ Hn Hp).
Qed.

Example step_center :
  step reset 4 "X" =
  Ok ({| board := [" "; " "; " "; " "; "X"; " "; " "; " "; " "]%string;
         done := false; winner := None |},
      ([" "; " "; " "; " "; "X"; " "; " "; " "; " "]%string, 0%Q, false)).
Proof. reflexivity. Qed.

Lemma py_getitem_total {A} (l : list A) (i : Z) :
  0 ≤ i < Z.of_nat (length l) → ∃ x, py_getitem l i = Ok x.
Proof.
  intros Hi. destruct (lookup_lt_is_Some_2 l (Z.to_nat i)) as [x Hx]; [lia|].
  exists x. rewrite <- (Z2Nat.id i) by lia. by apply py_getitem_nat.
Qed.

Lemma py_getitem_elem_of {A} (l : list A) (i : Z) (x : A) :
  py_getitem l i = Ok x → x ∈ l.
Proof. intros Hx%py_getitem_Ok. by eapply list_elem_of_lookup_2. Qed.

(** ** check_winner *)

Lemma lines_in_range : Forall (line_in_range 9) lines.
Proof. repeat constructor; simpl; lia. Qed.

Lemma first_line_total (b : list string) (ls : list (Z * Z * Z)) :
  Forall (line_in_range (length b)) ls → ∃ w, first_line b ls = Ok w.
Proof.
  induction 1 as [|[[i j] k] ls (Hi & Hj & Hk) _ IH]; simpl in *; [eauto|].
  destruct (py_getitem_total b i Hi) as [x ->].
  destruct (py_getitem_total b j Hj) as [y ->].
  destruct (py_getitem_total b k Hk) as [z Hz]. simpl.
  destruct (String.eqb x y); [|done].
  rewrite Hz. simpl. destruct (_ && _); [|done].
  simpl. eauto.
Qed.

Lemma first_line_Some (b : list string) (ls : list (Z * Z * Z)) (m : string) :
  first_line b ls = Ok (Some m) → ∃ l, l ∈ ls ∧ line_complete b l m.
Proof.
  induction ls as [|[[i j] k] ls IH]; simpl; [discriminate|].
  intros H.
  assert (first_line b ls = Ok (Some m) →
          ∃ l, l ∈ (i, j, k) :: ls ∧ line_complete b l m) as Hrest.
  { intros (l & Hl & Hc)%IH. exists l. split; [by right | done]. }
  inv_bind H. rename x into cx. inv_bind H. rename x into cy.
  destruct (String.eqb_spec cx cy) as [->|]; [|auto].
  inv_bind H. rename x into cz.
  destruct (String.eqb_spec cy cz) as [->|]; simpl in H; [|auto].
  destruct (String.eqb_spec cz EMPTY) as [|Hne]; simpl in H; [auto|].
  inv_bind H. injection H as ->.
  assert (cz = m) as -> by congruence.
  exists (i, j, k). split; [left | done].
Qed.

Lemma first_line_None (b : list string) (ls : list (Z * Z * Z)) :
  first_line b ls = Ok None → ∀ l m, l ∈ ls → ¬ line_complete b l m.
Proof.
  induction ls as [|[[i j] k] ls IH]; simpl.
  { intros _ l m Hl. by apply elem_of_nil in Hl. }
  intros H l m [->|Hl]%elem_of_cons; [|revert l m Hl; apply IH];
    inv_bind H; rename x into cx; inv_bind H; rename x into cy.
  - intros (Hi & Hj & Hk & Hne). simpl in *.
    assert (cx = m) as -> by congruence. assert (cy = m) as -> by congruence.
    rewrite String.eqb_refl in H. rewrite Hk in H. simpl in H.
    rewrite String.eqb_refl in H.
    destruct (String.eqb_spec m EMPTY); [done|]. simpl in H.
    inv_bind H. discriminate.
  - destruct (String.eqb cx cy); [|done].
    inv_bind H. destruct (_ && _); [|done]. inv_bind H. discriminate.
Qed.

Lemma check_winner_total (b : list string) :
  length b = 9%nat → ∃ w, check_winner b = Ok w.
Proof.
  intros Hlen. unfold check_winner.
  destruct (first_line_total b lines) as [[m|] ->]; simpl.
  - rewrite Hlen. apply lines_in_range.
  - eauto.
  - destruct (no_empty_cell b); eauto.
Qed.

(** What each outcome of [check_winner] says about the board. *)
Lemma check_winner_spec (b : list string) (w : option string) :
  check_winner b = Ok w → DRAW ∉ b →
  match w with
  | None => ¬ has_line b ∧ EMPTY ∈ b
  | Some m =>
      if decide (m = DRAW) then ¬ has_line b ∧ EMPTY ∉ b
      else wins b m
  end.
Proof.
  unfold check_winner. intros H Hd. inv_bind H. destruct x as [m|].
  - injection H as <-. apply first_line_Some in Hm as (l & Hl & Hc).
    case_decide as Hm.
    + subst m. destruct Hc as (Hc & _). by apply py_getitem_elem_of in Hc.
    + by exists l.
  - assert (¬ has_line b) as Hno.
    { intros (m & l & Hl & Hc). by eapply first_line_None. }
    destruct (no_empty_cell b) eqn:E; injection H as <-.
    + rewrite decide_True by done. by apply no_empty_cell_spec in E.
    + split; [done|]. destruct (decide (EMPTY ∈ b)) as [|Hn]; [done|].
      apply no_empty_cell_spec in Hn. congruence.
Qed.

(** ** step *)

(** The body of [step] once the guard has let the move through. *)
Lemma step_valid (e : TicTacToeEnv) (action : Z) (player : string)
    (w : option string) :
  let b' := <[index_of (board e) action := player]> (board e) in
  done e = false →
  py_getitem (board e) action = Ok EMPTY →
  check_winner b' = Ok w →
  step e action player =
    if truthy w then
      Ok (mkEnv b' true w,
          (b', (if bool_decide (w = Some player) then 1
                else if bool_decide (w = Some DRAW) then 1 # 2 else -1)%Q, true))
    else if no_empty_cell b' then Ok (mkEnv b' true (Some DRAW), (b', (1 # 2)%Q, true))
    else Ok (mkEnv b' false w, (b', 0%Q, false)).
Proof.
  intros b' Hd Hcell Hw. unfold step. rewrite Hcell. simpl.
  rewrite ?String.eqb_refl, Hd. simpl.
  rewrite (py_setitem_Ok _ _ _ _ Hcell). simpl. fold b'. rewrite Hw. simpl.
  by destruct (truthy w), (no_empty_cell b').
Qed.

(** C5. A move on an occupied cell, or on a finished game, is refused:
    [step] returns the current state with reward -10 and the terminal flag
    as it was, and the environment (board, flag, recorded winner) is the
    one it started from. *)
Theorem step_invalid_move (e : TicTacToeEnv) (action : Z) (player cell : string) :
  py_getitem (board e) action = Ok cell →
  cell ≠ EMPTY ∨ done e = true →
  step e action player = Ok (e, (get_state e, (-10)%Q, done e)).
Proof.
  intros Hcell Hbad. unfold step. rewrite Hcell. simpl.
  destruct Hbad as [Hne | ->].
  - destruct (String.eqb_spec cell EMPTY); [done|]. reflexivity.
  - by rewrite orb_true_r.
Qed.

Lemma step_invalid_move_witness :
  let e := mkEnv ["X"; "O"; " "; " "; "X"; " "; " "; " "; " "] false None in
  py_getitem (board e) 1 = Ok "O" ∧
  ("O" ≠ EMPTY ∨ done e = true) ∧
  step e 1 "X" = Ok (e, (get_state e, (-10)%Q, done e)).
Proof.
  intros e. split; [reflexivity|]. split; [left; discriminate|].
  apply (step_invalid_move e 1 "X" "O"); [reflexivity | left; discriminate].
Defined.

Lemma mark_ok_truthy (m : string) : mark_ok m → truthy (Some m) = true.
Proof. intros [Hm _]. simpl. by destruct (String.eqb_spec m ""). Qed.

(** A legal move goes through, writes the mark, and sets the flag exactly
    when the new board has a completed line or no empty cell. *)
Lemma step_valid_flag (e : TicTacToeEnv) (action : Z) (player : string) :
  length (board e) = 9%nat →
  Forall mark_ok (board e) →
  mark_ok player →
  done e = false →
  py_getitem (board e) action = Ok EMPTY →
  ∃ e' reward,
    step e action player = Ok (e', (get_state e', reward, done e')) ∧
    board e' = <[index_of (board e) action := player]> (board e) ∧
    (done e' = true ↔ has_line (board e') ∨ EMPTY ∉ board e').
Proof.
  intros Hlen Hcells Hp Hd Hcell.
  set (b' := <[index_of (board e) action := player]> (board e)).
  assert (Forall mark_ok b') as Hcells' by (by apply Forall_insert).
  assert (DRAW ∉ b') as Hnodraw.
  { intros Hin. rewrite Forall_forall in Hcells'.
    by destruct (Hcells' _ Hin) as [_ ?]. }
  destruct (check_winner_total b') as [w Hw].
  { unfold b'. by rewrite length_insert. }
  pose proof (check_winner_spec _ _ Hw Hnodraw) as Hspec.
  rewrite (step_valid e action player w Hd Hcell Hw). fold b'.
  destruct w as [m|].
  - assert (truthy (Some m) = true) as ->.
    { case_decide as Hdraw; [by subst m|].
      destruct Hspec as (l & _ & Hl & _).
      rewrite Forall_forall in Hcells'.
      eapply mark_ok_truthy, Hcells', py_getitem_elem_of, Hl. }
    exists (mkEnv b' true (Some m)). eexists. split; [reflexivity|].
    simpl. split; [done|]. split; [intros _|done].
    case_decide; [tauto|]. left. by exists m.
  - destruct Hspec as [Hno Hempty].
    assert (no_empty_cell b' = false) as ->.
    { destruct (no_empty_cell b') eqn:E; [|done].
      by apply no_empty_cell_spec in E. }
    simpl. exists (mkEnv b' false None). eexists. split; [reflexivity|].
    simpl. split; [done|]. split; [done|]. tauto.
Qed.

(** C4. A legal move on a running game writes the mark into the cell;
    the terminal flag is set exactly when the new board has a completed
    line or no empty cell; the reward is 1 when the recorded outcome is the
    acting mark, -1 when it is another mark, 1/2 on a draw (a full board
    without a line is recorded as the draw) and 0 when the game goes on.
    Each recorded winning mark holds a completed line of the new board. *)
Theorem step_valid_move (e : TicTacToeEnv) (action : Z) (player : string) :
  length (board e) = 9%nat →
  Forall mark_ok (board e) →
  mark_ok player →
  done e = false →
  py_getitem (board e) action = Ok EMPTY →
  ∃ e' reward,
    step e action player = Ok (e', (get_state e', reward, done e')) ∧
    board e' = <[index_of (board e) action := player]> (board e) ∧
    (done e' = true ↔ has_line (board e') ∨ EMPTY ∉ board e') ∧
    (has_line (board e') → ∃ m, winner e' = Some m ∧ m ≠ DRAW) ∧
    (∀ m, winner e' = Some m → m ≠ DRAW → wins (board e') m) ∧
    (winner e' = Some player → reward = 1%Q) ∧
    (∀ m, winner e' = Some m → m ≠ player → m ≠ DRAW → reward = (-1)%Q) ∧
    (winner e' = Some DRAW → reward = (1 # 2)%Q) ∧
    (¬ has_line (board e') → EMPTY ∉ board e' → winner e' = Some DRAW) ∧
    (done e' = false → reward = 0%Q ∧ winner e' = None).
Proof.
  intros Hlen Hcells Hp Hd Hcell.
  set (b' := <[index_of (board e) action := player]> (board e)).
  assert (Forall mark_ok b') as Hcells'.
  { apply Forall_insert; done. }
  assert (DRAW ∉ b') as Hnodraw.
  { intros Hin. rewrite Forall_forall in Hcells'.
    by destruct (Hcells' _ Hin) as [_ ?]. }
  destruct (check_winner_total b') as [w Hw].
  { unfold b'. by rewrite length_insert. }
  pose proof (check_winner_spec _ _ Hw Hnodraw) as Hspec.
  pose proof (step_valid e action player w Hd Hcell Hw) as Hstep.
  fold b' in Hstep. destruct w as [m|].
  - (* an outcome was found *)
    assert (truthy (Some m) = true) as Hm.
    { case_decide as Hdraw; [by subst m|].
      destruct Hspec as (l & _ & Hl & _).
      rewrite Forall_forall in Hcells'.
      eapply mark_ok_truthy, Hcells', py_getitem_elem_of, Hl. }
    rewrite Hm in Hstep.
    eexists _, _. split; [exact Hstep|]. simpl.
    split; [done|].
    case_decide as Hdraw.
    + subst m. destruct Hspec as [Hno Hfull].
      destruct Hp as [_ Hpd].
      rewrite bool_decide_eq_false_2 by congruence.
      rewrite bool_decide_eq_true_2 by done.
      repeat split; try done; try tauto.
      * by intros m' [= <-] Hne.
      * intros [=]. congruence.
      * by intros m' [= <-] _ Hne.
    + repeat split; try done.
      * intros _. left. by exists m.
      * intros _. by exists m.
      * by intros m' [= <-] _.
      * intros [= ->]. by rewrite bool_decide_eq_true_2.
      * intros m' [= <-] Hne _.
        rewrite bool_decide_eq_false_2 by congruence.
        by rewrite bool_decide_eq_false_2 by congruence.
      * intros [=]. congruence.
      * intros Hno. destruct Hno. by exists m.
  - (* the game goes on *)
    destruct Hspec as [Hno Hempty].
    assert (no_empty_cell b' = false) as Hfull.
    { destruct (no_empty_cell b') eqn:E; [|done].
      by apply no_empty_cell_spec in E. }
    simpl in Hstep. rewrite Hfull in Hstep.
    eexists _, _. split; [exact Hstep|]. simpl.
    repeat split; try done; tauto.
Qed.

Lemma step_valid_move_witness :
  let e := mkEnv ["X"; "X"; " "; "O"; "O"; " "; " "; " "; " "] false None in
  length (board e) = 9%nat ∧ Forall mark_ok (board e) ∧ mark_ok "X" ∧
  done e = false ∧ py_getitem (board e) 2 = Ok EMPTY ∧
  ∃ e' reward,
    step e 2 "X" = Ok (e', (get_state e', reward, done e')) ∧
    board e' = <[index_of (board e) 2 := "X"]> (board e) ∧
    (done e' = true ↔ has_line (board e') ∨ EMPTY ∉ board e') ∧
    (has_line (board e') → ∃ m, winner e' = Some m ∧ m ≠ DRAW) ∧
    (∀ m, winner e' = Some m → m ≠ DRAW → wins (board e') m) ∧
    (winner e' = Some "X" → reward = 1%Q) ∧
    (∀ m, winner e' = Some m → m ≠ "X" → m ≠ DRAW → reward = (-1)%Q) ∧
    (winner e' = Some DRAW → reward = (1 # 2)%Q) ∧
    (¬ has_line (board e') → EMPTY ∉ board e' → winner e' = Some DRAW) ∧
    (done e' = false → reward = 0%Q ∧ winner e' = None).
Proof.
  intros e.
  assert (mark_ok "X") as HX by (split; discriminate).
  assert (Forall mark_ok (board e)) as Hcells
    by (repeat constructor; discriminate).
  split; [reflexivity|]. split; [exact Hcells|]. split; [exact HX|].
  split; [reflexivity|]. split; [reflexivity|].
  apply (step_valid_move e 2 "X");
    [reflexivity | exact Hcells | exact HX | reflexivity | reflexivity].
Defined.

(** ** Reachable environments *)

Lemma play_reachable (moves : list (Z * string)) (e e' : TicTacToeEnv) :
  reachable e →
  Forall (fun m => m.2 = "X" ∨ m.2 = "O") moves →
  play moves e = Ok e' →
  reachable e'.
Proof.
  intros He Hm. revert e He.
  induction Hm as [|[a p] moves Hp _ IH]; intros e He; simpl.
  - by intros [= <-].
  - intros H. inv_bind H. destruct x as [e1 out].
    eapply IH; [|exact H]. by eapply reachable_step.
Qed.

Lemma xo_mark_ok (p : string) : p = "X" ∨ p = "O" → mark_ok p.
Proof. intros [->| ->]; split; discriminate. Qed.

Lemma step_cases (e e' : TicTacToeEnv) (action : Z) (player : string)
    (out : state * Q * bool) :
  step e action player = Ok (e', out) →
  (e' = e ∧ out = (get_state e, (-10)%Q, done e)) ∨
  (done e = false ∧ py_getitem (board e) action = Ok EMPTY).
Proof.
  unfold step. intros H. inv_bind H. rename x into cell.
  destruct (String.eqb_spec cell EMPTY) as [->|Hne]; simpl in H.
  - destruct (done e) eqn:Hd; simpl in H.
    + left. by injection H as <- <-.
    + by right.
  - left. by injection H as <- <-.
Qed.

Lemma reachable_inv (e : TicTacToeEnv) : reachable e → env_inv e.
Proof.
  induction 1 as [|e action player e' out _ IH Hp Hstep].
  - split; [reflexivity|]. split; [repeat constructor; discriminate|].
    split; [discriminate|]. intros Hw. by destruct Hw.
  - destruct (step_cases _ _ _ _ _ Hstep) as [[-> _]|[Hd Hcell]]; [done|].
    destruct IH as (Hlen & Hcells & _).
    destruct (step_valid_flag e action player Hlen Hcells (xo_mark_ok _ Hp)
                Hd Hcell)
      as (e1 & r & Hstep1 & Hb & Hdone).
    assert (e1 = e') as -> by congruence.
    assert (Forall mark_ok (board e')) as Hcells'.
    { rewrite Hb. apply Forall_insert; [done | by apply xo_mark_ok]. }
    assert (length (board e') = 9%nat) as Hlen'
      by (by rewrite Hb, length_insert).
    split; [done|]. split; [done|].
    destruct (check_winner_total _ Hlen') as [w Hw].
    assert (DRAW ∉ board e') as Hnodraw.
    { intros Hin. rewrite Forall_forall in Hcells'.
      by destruct (Hcells' _ Hin) as [_ ?]. }
    pose proof (check_winner_spec _ _ Hw Hnodraw) as Hspec.
    rewrite Hdone, Hw. destruct w as [m|].
    + split; [done|]. intros _. case_decide; [tauto|].
      left. by exists m.
    + split; [|done]. tauto.
Qed.

(** C1, as the code has it. [get_available_actions] lists the empty
    cells whatever the terminal flag says: for every reachable environment
    the list is empty exactly when the board is full, an empty list implies
    a finished game, and the flag agrees with the outcome computed from the
    board. After a step that reports the end of the game the list is the
    list of the cells still empty. *)
Theorem available_actions_empty_iff_full (e : TicTacToeEnv) :
  reachable e →
  (get_available_actions e = [] ↔ EMPTY ∉ board e) ∧
  (get_available_actions e = [] →
     done e = true ∧ check_winner (board e) ≠ Ok None) ∧
  (done e = true ↔ check_winner (board e) ≠ Ok None) ∧
  (∀ a, a ∈ get_available_actions e ↔
        0 ≤ a ∧ board e !! Z.to_nat a = Some EMPTY) ∧
  (∀ action player e' s r,
     player = "X" ∨ player = "O" →
     step e action player = Ok (e', (s, r, true)) →
     s = board e' ∧ done e' = true ∧
     (get_available_actions e' = [] ↔ EMPTY ∉ s)).
Proof.
  intros Hr. pose proof (reachable_inv e Hr) as (Hlen & Hcells & Hdone).
  assert (∀ e0, get_available_actions e0 = [] ↔ EMPTY ∉ board e0) as Hfull.
  { intros e0. unfold get_available_actions.
    by rewrite empty_cells_nil, no_empty_cell_spec. }
  split; [apply Hfull|].
  split.
  { intros Hnil%Hfull.
    assert (check_winner (board e) ≠ Ok None) as Hw; [|by rewrite Hdone].
    intros Hw. apply check_winner_spec in Hw as [_ ?]; [done|].
    intros Hin. rewrite Forall_forall in Hcells.
    by destruct (Hcells _ Hin) as [_ ?]. }
  split; [done|].
  split.
  { intros a. unfold get_available_actions. rewrite elem_of_empty_cells.
    split.
    - intros (n & -> & Hn). rewrite Z.add_0_l, Nat2Z.id. split; [lia|done].
    - intros [Ha Hn]. exists (Z.to_nat a). split; [lia | done]. }
  intros action player e' s r Hp Hstep.
  assert (s = board e' ∧ done e' = true) as [-> Hd'].
  { destruct (step_cases _ _ _ _ _ Hstep) as [[-> [= -> Hd]]|[Hd Hcell]]; [done|].
    destruct (step_valid_flag e action player Hlen Hcells (xo_mark_ok _ Hp)
                Hd Hcell) as (e1 & r1 & Hstep1 & _).
    rewrite Hstep in Hstep1. by injection Hstep1 as <- -> _ ->. }
  split; [done|]. split; [done|]. apply Hfull.
Qed.

Lemma available_actions_empty_iff_full_witness :
  reachable reset ∧
  (get_available_actions reset = [] ↔ EMPTY ∉ board reset) ∧
  (get_available_actions reset = [] →
     done reset = true ∧ check_winner (board reset) ≠ Ok None) ∧
  (done reset = true ↔ check_winner (board reset) ≠ Ok None) ∧
  (∀ a, a ∈ get_available_actions reset ↔
        0 ≤ a ∧ board reset !! Z.to_nat a = Some EMPTY) ∧
  (∀ action player e' s r,
     player = "X" ∨ player = "O" →
     step reset action player = Ok (e', (s, r, true)) →
     s = board e' ∧ done e' = true ∧
     (get_available_actions e' = [] ↔ EMPTY ∉ s)).
Proof.
  split; [exact reachable_reset|].
  apply (available_actions_empty_iff_full reset). exact reachable_reset.
Defined.

(** C1 fails as stated: after X wins on a board with four cells left, the
    game is over (flag set, outcome ["X"]) and [get_available_actions]
    still returns those four cells. *)
Lemma available_actions_after_win :
  reachable x_wins_early ∧
  step (mkEnv ["X"; "X"; " "; "O"; "O"; " "; " "; " "; " "] false None) 2 "X"
    = Ok (x_wins_early, (board x_wins_early, 1%Q, true)) ∧
  check_winner (board x_wins_early) = Ok (Some "X") ∧
  get_available_actions x_wins_early = [5; 6; 7; 8] ∧
  ¬ (get_available_actions x_wins_early = [] ↔
     check_winner (board x_wins_early) ≠ Ok None).
Proof.
  split.
  { apply (play_reachable [(0, "X"); (3, "O"); (1, "X"); (4, "O"); (2, "X")]
             reset); [exact reachable_reset | | reflexivity].
    repeat (apply Forall_cons_2; [simpl; auto|]). apply Forall_nil_2. }
  split; [reflexivity|]. split; [reflexivity|]. split; [reflexivity|].
  intros [_ Hback]. discriminate Hback. discriminate.
Qed.

(** ** Dictionaries and the value table *)

Lemma same_estimates_refl t : same_estimates t t.
Proof. by intros s a. Qed.


Lemma wf_new_q_table : wf_table new_q_table.
Proof. split; [done|]. intros s row Hs. simpl in Hs. by rewrite lookup_empty in Hs. Qed.

Lemma wf_table_setitem t s row :
  wf_table t → default_factory row = Some 0%Q → wf_table (dict_setitem t s row).
Proof.
  intros [Hf Hrows] Hrow. split; [done|].
  intros s' row' Hs'. simpl in Hs'.
  destruct (decide (s = s')) as [->|Hne].
  - rewrite lookup_insert_eq in Hs'. by injection Hs' as <-.
  - rewrite lookup_insert_ne in Hs' by done. eauto.
Qed.

(** The outer lookup [t[s]] of a well-formed table: the row is there, or an
    empty row is created; no estimate changes either way. *)
Lemma table_row (t : pydict state (pydict Z Q)) (s : state) :
  wf_table t →
  ∃ row t',
    dict_getitem t s = Ok (row, t') ∧
    items t' !! s = Some row ∧
    default_factory row = Some 0%Q ∧
    wf_table t' ∧ same_estimates t t' ∧
    (∀ a, dict_get row a 0%Q = estimate t s a) ∧
    (∀ s', s' ≠ s → items t' !! s' = items t !! s') ∧
    (t' = t ∨
     items t !! s = None ∧ t' = dict_setitem t s (defaultdict_float ∅)).
Proof.
  intros Hwf. pose proof Hwf as [Hf Hrows]. unfold dict_getitem.
  destruct (items t !! s) as [row|] eqn:Hs.
  - exists row, t. repeat split; eauto using same_estimates_refl.
    intros a. unfold estimate. by rewrite Hs.
  - rewrite Hf. exists (defaultdict_float ∅), (dict_setitem t s (defaultdict_float ∅)).
    split; [done|]. split; [apply lookup_insert_eq|]. split; [done|].
    split; [by apply wf_table_setitem|].
    split.
    { intros s' a. unfold estimate. simpl.
      destruct (decide (s = s')) as [<-|Hne].
      - rewrite lookup_insert_eq, Hs. unfold dict_get. simpl.
        by rewrite lookup_empty.
      - by rewrite lookup_insert_ne. }
    split.
    { intros a. unfold estimate, dict_get. simpl.
      by rewrite Hs, lookup_empty. }
    split; [|by right].
    intros s' Hne. simpl. by rewrite lookup_insert_ne.
Qed.

(** [t[s][a]] on a well-formed table never fails and returns the estimate. *)
Lemma table_getitem_estimate (t : pydict state (pydict Z Q)) (s : state) (a : Z) :
  wf_table t →
  ∃ t', table_getitem t s a = Ok (estimate t s a, t') ∧
        wf_table t' ∧ same_estimates t t'.
Proof.
  intros Hwf.
  destruct (table_row t s Hwf)
    as (row & t1 & Hget & Hrow & Hfrow & Hwf1 & Hsame & Hest & Hother & _).
  unfold table_getitem. rewrite Hget. simpl.
  unfold dict_getitem at 1.
  destruct (items row !! a) as [q|] eqn:Ha; simpl.
  - exists (dict_setitem t1 s row).
    rewrite <- Hest. unfold dict_get. rewrite Ha. simpl.
    split; [done|]. split; [by apply wf_table_setitem|].
    intros s' a'. rewrite <- Hsame. unfold estimate. simpl.
    destruct (decide (s = s')) as [<-|Hne].
    + by rewrite lookup_insert_eq, Hrow.
    + by rewrite lookup_insert_ne.
  - rewrite Hfrow. simpl.
    exists (dict_setitem t1 s (dict_setitem row a 0%Q)).
    rewrite <- Hest. unfold dict_get at 1. rewrite Ha. simpl.
    split; [done|]. split; [by apply wf_table_setitem|].
    intros s' a'. rewrite <- Hsame. unfold estimate. simpl.
    destruct (decide (s = s')) as [<-|Hne].
    + rewrite lookup_insert_eq, Hrow. unfold dict_get. simpl.
      destruct (decide (a = a')) as [<-|Hne].
      * by rewrite lookup_insert_eq, Ha.
      * by rewrite lookup_insert_ne.
    + by rewrite lookup_insert_ne.
Qed.

(** [t[s][a] = q] writes one estimate and leaves every other one alone. *)
Lemma table_setitem_estimate (t : pydict state (pydict Z Q)) (s : state)
    (a : Z) (q : Q) :
  wf_table t →
  ∃ t', table_setitem t s a q = Ok t' ∧ wf_table t' ∧
        estimate t' s a = q ∧ stored t' s a ∧
        ∀ s' a', (s', a') ≠ (s, a) → estimate t' s' a' = estimate t s' a'.
Proof.
  intros Hwf.
  destruct (table_row t s Hwf)
    as (row & t1 & Hget & Hrow & Hfrow & Hwf1 & Hsame & Hest & Hother & _).
  unfold table_setitem. rewrite Hget. simpl.
  eexists. split; [done|]. split; [by apply wf_table_setitem|].
  split.
  { unfold estimate, dict_get. simpl. rewrite lookup_insert_eq. simpl.
    by rewrite lookup_insert_eq. }
  split.
  { eexists. simpl. rewrite lookup_insert_eq. split; [done|]. simpl.
    rewrite lookup_insert_eq. eauto. }
  intros s' a' Hne. rewrite <- Hsame. unfold estimate. simpl.
  destruct (decide (s = s')) as [<-|Hs].
  - rewrite lookup_insert_eq, Hrow. unfold dict_get. simpl.
    rewrite lookup_insert_ne; [done|]. congruence.
  - by rewrite lookup_insert_ne.
Qed.

(** ** max *)

Lemma py_max2_cases (a b : Q) :
  (py_max2 a b = a ∧ (b <= a)%Q) ∨ (py_max2 a b = b ∧ (a < b)%Q).
Proof. unfold py_max2. destruct (Qlt_le_dec a b); auto. Qed.

Lemma py_max2_ge (a b : Q) : (a <= py_max2 a b)%Q ∧ (b <= py_max2 a b)%Q.
Proof.
  destruct (py_max2_cases a b) as [[-> ?]|[-> ?]]; split; lra.
Qed.

Lemma foldl_py_max2_elem (x : Q) (l : list Q) : foldl py_max2 x l ∈ x :: l.
Proof.
  revert x. induction l as [|y l IH]; intros x; simpl; [left|].
  specialize (IH (py_max2 x y)).
  apply elem_of_cons in IH as [->|Hin].
  - destruct (py_max2_cases x y) as [[-> _]|[-> _]]; [left | right; left].
  - by do 2 right.
Qed.

Lemma foldl_py_max2_ge (x : Q) (l : list Q) :
  ∀ y, y ∈ x :: l → (y <= foldl py_max2 x l)%Q.
Proof.
  revert x. induction l as [|z l IH]; intros x y Hy; simpl.
  - apply list_elem_of_singleton in Hy as ->. lra.
  - pose proof (py_max2_ge x z) as [Hx Hz].
    assert (py_max2 x z <= foldl py_max2 (py_max2 x z) l)%Q as Hm
      by (apply IH; left).
    apply elem_of_cons in Hy as [->|[->|Hy]%elem_of_cons]; [lra | lra |].
    apply IH. by right.
Qed.

Lemma py_max_spec (l : list Q) :
  l ≠ [] → ∃ m, py_max l = Ok m ∧ m ∈ l ∧ ∀ y, y ∈ l → (y <= m)%Q.
Proof.
  destruct l as [|x l]; [done|]. intros _. eexists. split; [done|].
  split; [apply foldl_py_max2_elem | apply foldl_py_max2_ge].
Qed.

(** ** update_q_table *)

Lemma max_next_q_spec (t : pydict state (pydict Z Q)) (ns : state) (na : list Z) :
  wf_table t →
  ∃ m t', max_next_q t ns na = Ok (m, t') ∧ wf_table t' ∧
          same_estimates t t' ∧ is_max_next t ns na m.
Proof.
  intros Hwf. unfold max_next_q. destruct na as [|a0 na'] eqn:Hna.
  { exists 0%Q, t. split; [done|]. split; [done|].
    split; [apply same_estimates_refl|]. by split. }
  rewrite <- Hna. assert (na ≠ []) as Hne by (by subst).
  destruct (table_row t ns Hwf)
    as (row & t1 & Hget & Hrow & Hfrow & Hwf1 & Hsame & Hest & _).
  rewrite Hget. simpl.
  set (qs := (fun act => dict_get row act 0%Q) <$> na).
  assert (qs ≠ []) as Hqs.
  { unfold qs. rewrite Hna. done. }
  destruct (py_max_spec qs Hqs) as (m & Hmax & Hin & Hge).
  exists m, t1.
  split.
  { destruct qs; [done|]. by rewrite Hmax. }
  split; [done|]. split; [done|].
  split; [done|]. intros _. split.
  - apply list_elem_of_fmap in Hin as (a & -> & Ha). exists a. by rewrite Hest.
  - intros a Ha. rewrite <- Hest. apply Hge.
    apply list_elem_of_fmap. eauto.
Qed.

Lemma update_q_table_spec (ag : QLearningAgent) (s : state) (a : Z) (r : Q)
    (ns : state) (na : list Z) :
  wf_table (q_table ag) →
  ∃ ag' m t1,
    update_q_table ag s a r ns na = Ok ag' ∧
    max_next_q (q_table ag) ns na = Ok (m, t1) ∧
    is_max_next (q_table ag) ns na m ∧
    estimate (q_table ag') s a =
      (estimate (q_table ag) s a +
       lr ag * (r + gamma ag * m - estimate (q_table ag) s a))%Q ∧
    stored (q_table ag') s a ∧
    (∀ s' a', (s', a') ≠ (s, a) →
       estimate (q_table ag') s' a' = estimate (q_table ag) s' a') ∧
    wf_table (q_table ag') ∧ same_settings ag ag' ∧ epsilon ag' = epsilon ag.
Proof.
  intros Hwf.
  destruct (max_next_q_spec _ ns na Hwf) as (m & t1 & Hmax & Hwf1 & Hs1 & Hm).
  destruct (table_getitem_estimate t1 s a Hwf1) as (t2 & Hget & Hwf2 & Hs2).
  set (new_q := (estimate (q_table ag) s a +
       lr ag * (r + gamma ag * m - estimate (q_table ag) s a))%Q).
  destruct (table_setitem_estimate t2 s a new_q Hwf2)
    as (t3 & Hset & Hwf3 & Hnew & Hstored & Hframe).
  exists (set_q_table ag t3), m, t1. unfold update_q_table.
  rewrite Hmax. simpl. rewrite Hget. simpl. rewrite (Hs1 s a).
  fold new_q. rewrite Hset. simpl.
  split; [done|]. split; [done|]. split; [done|]. split; [done|].
  split; [done|]. split.
  { intros s' a' Hne. by rewrite (Hframe s' a' Hne), Hs2, Hs1. }
  split; [done|]. split; [by repeat split | done].
Qed.

Lemma repeat_update_ok (ag : QLearningAgent) (s : state) (a : Z) (r : Q)
    (ns : state) (na : list Z) (k : nat) :
  wf_table (q_table ag) →
  ∃ agk, repeat_update k ag s a r ns na = Ok agk ∧
         wf_table (q_table agk) ∧ same_settings ag agk.
Proof.
  intros Hwf. induction k as [|k (agk & Hk & Hwfk & Hsk)]; simpl.
  - exists ag. split; [done|]. split; [done|]. by repeat split.
  - rewrite Hk. simpl.
    destruct (update_q_table_spec agk s a r ns na Hwfk)
      as (ag' & m & t1 & Hup & _ & _ & _ & _ & _ & Hwf' & Hs' & _).
    exists ag'. split; [done|]. split; [done|].
    destruct Hsk as (? & ? & ? & ? & ?), Hs' as (? & ? & ? & ? & ?).
    repeat split; congruence.
Qed.

Lemma moves_toward_update (e target rate : Q) :
  (0 <= rate)%Q → (rate <= 1)%Q →
  moves_toward target e (e + rate * (target - e))%Q.
Proof. intros H0 H1. split; intros He; split; nra. Qed.

(** Without rounding, that is on the rationals, the estimates of repeated
    calls with the same arguments and a constant [max_next] move toward
    [reward + gamma * max_next] without passing it when the learning rate
    lies between 0 and 1. The binary64 update does not follow: see
    [update_overshoots_target]. *)
Lemma rational_update_moves_toward (ag : QLearningAgent) (s : state) (a : Z)
    (r : Q) (ns : state) (na : list Z) :
  wf_table (q_table ag) →
  (0 <= lr ag)%Q → (lr ag <= 1)%Q →
  ∀ m,
    (∀ k agk, repeat_update k ag s a r ns na = Ok agk →
              ∃ t', max_next_q (q_table agk) ns na = Ok (m, t')) →
    ∀ k, ∃ agk agk',
      repeat_update k ag s a r ns na = Ok agk ∧
      repeat_update (S k) ag s a r ns na = Ok agk' ∧
      moves_toward (r + gamma ag * m)
        (estimate (q_table agk) s a) (estimate (q_table agk') s a).
Proof.
  intros Hwf H0 H1 m Hconst k.
  destruct (repeat_update_ok ag s a r ns na k Hwf)
    as (agk & Hk & Hwfk & (_ & Hlr & Hgamma & _)).
  destruct (update_q_table_spec agk s a r ns na Hwfk)
    as (ag' & m' & t1 & Hup & Hmax & _ & Hnew & _).
  destruct (Hconst k agk Hk) as [t' Hm]. rewrite Hm in Hmax.
  injection Hmax as <- _.
  exists agk, ag'. split; [done|]. split; [simpl; by rewrite Hk|].
  rewrite Hnew, Hlr, Hgamma.
  replace (r + gamma ag * m - estimate (q_table agk) s a)%Q
    with ((r + gamma ag * m) - estimate (q_table agk) s a)%Q by done.
  by apply moves_toward_update.
Qed.

(** ** The value update on binary64 numbers *)

(** The order of the floats as far as [max] needs it: [<] is irreflexive,
    and what is above a number not below [b] is not below [b] either.
    Both hold with NaN, which compares false with everything. *)
Lemma SFltb_irrefl (x : spec_float) : SFltb x x = false.
Proof.
  unfold SFltb. destruct x as [[]|[]| |[] m e]; simpl; try reflexivity;
    rewrite Z.compare_refl; change PosDef.Pos.compare_cont with Pos.compare_cont;
    fold (Pos.compare m m); by rewrite Pos.compare_refl.
Qed.

Lemma SFltb_chain (m b x : spec_float) :
  SFltb m b = false → SFltb m x = true → SFltb x b = false.
Proof.
  unfold SFltb.
  destruct m as [[]|[]| |[] mm em], b as [[]|[]| |[] mb eb],
    x as [[]|[]| |[] mx ex]; simpl; try reflexivity; try discriminate;
  change PosDef.Pos.compare_cont with Pos.compare_cont;
  fold (Pos.compare mm mb); fold (Pos.compare mm mx); fold (Pos.compare mx mb);
  destruct (Z.compare_spec em eb), (Z.compare_spec em ex),
    (Z.compare_spec ex eb);
  simpl; try reflexivity; try discriminate; try lia;
  destruct (Pos.compare_spec mm mb), (Pos.compare_spec mm mx),
    (Pos.compare_spec mx mb);
  simpl; try reflexivity; try discriminate; try lia.
Qed.

Lemma float_ltb_irrefl (x : float) : (x <? x)%float = false.
Proof. rewrite ltb_spec. apply SFltb_irrefl. Qed.

Lemma float_ltb_chain (m b x : float) :
  (m <? b)%float = false → (m <? x)%float = true → (x <? b)%float = false.
Proof. rewrite !ltb_spec. apply SFltb_chain. Qed.

(** In this section [update_q_table], [estimate], [wf_table] and the other
    names of the agent are those of [Binary64]. *)
Section binary64_table.
Import Binary64.

Lemma foldl_py_max2_elem64 (x : float) (l : list float) :
  foldl py_max2 x l ∈ x :: l.
Proof.
  revert x. induction l as [|y l IH]; intros x; simpl; [left|].
  specialize (IH (py_max2 x y)).
  apply elem_of_cons in IH as [->|Hin].
  - unfold py_max2. destruct (x <? y)%float; [right; left | left].
  - by do 2 right.
Qed.

Lemma foldl_py_max2_seen64 (l seen : list float) (x : float) :
  (∀ y, y ∈ seen → (x <? y)%float = false) →
  ∀ y, y ∈ seen ++ l → (foldl py_max2 x l <? y)%float = false.
Proof.
  revert seen x. induction l as [|z l IH]; intros seen x Hseen y Hy; simpl.
  - rewrite app_nil_r in Hy. by apply Hseen.
  - apply (IH (seen ++ [z])); [|by rewrite <- app_assoc].
    intros y' [Hy'|Hy']%elem_of_app; unfold py_max2.
    + destruct (x <? z)%float eqn:E; [|by apply Hseen].
      eapply float_ltb_chain; [by apply Hseen | exact E].
    + apply list_elem_of_singleton in Hy' as ->.
      destruct (x <? z)%float eqn:E; [apply float_ltb_irrefl | exact E].
Qed.

Lemma py_max_spec64 (l : list float) :
  l ≠ [] →
  ∃ m, py_max l = Ok m ∧ m ∈ l ∧ ∀ y, y ∈ l → (m <? y)%float = false.
Proof.
  destruct l as [|x l]; [done|]. intros _. eexists. split; [done|].
  split; [apply foldl_py_max2_elem64|].
  apply (foldl_py_max2_seen64 l [x] x).
  intros y ->%list_elem_of_singleton. apply float_ltb_irrefl.
Qed.

Lemma same_estimates_refl64 t : same_estimates t t.
Proof. by intros s a. Qed.

Lemma wf_new_q_table64 : wf_table new_q_table.
Proof.
  split; [done|]. intros s row Hs. simpl in Hs. by rewrite lookup_empty in Hs.
Qed.

Lemma wf_table_setitem64 t s row :
  wf_table t → default_factory row = Some 0%float →
  wf_table (dict_setitem t s row).
Proof.
  intros [Hf Hrows] Hrow. split; [done|].
  intros s' row' Hs'. simpl in Hs'.
  destruct (decide (s = s')) as [->|Hne].
  - rewrite lookup_insert_eq in Hs'. by injection Hs' as <-.
  - rewrite lookup_insert_ne in Hs' by done. eauto.
Qed.

(** The outer lookup [t[s]] of a well-formed table: the row is there, or an
    empty row is created; no estimate changes either way. *)
Lemma table_row64 (t : pydict state (pydict Z float)) (s : state) :
  wf_table t →
  ∃ row t',
    dict_getitem t s = Ok (row, t') ∧
    items t' !! s = Some row ∧
    default_factory row = Some 0%float ∧
    wf_table t' ∧ same_estimates t t' ∧
    (∀ a, dict_get row a 0%float = estimate t s a).
Proof.
  intros Hwf. pose proof Hwf as [Hf Hrows]. unfold dict_getitem.
  destruct (items t !! s) as [row|] eqn:Hs.
  - exists row, t. repeat split; eauto using same_estimates_refl64.
    intros a. unfold estimate. by rewrite Hs.
  - rewrite Hf.
    exists (defaultdict_float ∅), (dict_setitem t s (defaultdict_float ∅)).
    split; [done|]. split; [apply lookup_insert_eq|]. split; [done|].
    split; [by apply wf_table_setitem64|].
    split.
    { intros s' a. unfold estimate. simpl.
      destruct (decide (s = s')) as [<-|Hne].
      - rewrite lookup_insert_eq, Hs. unfold dict_get. simpl.
        by rewrite lookup_empty.
      - by rewrite lookup_insert_ne. }
    intros a. unfold estimate, dict_get. simpl.
    by rewrite Hs, lookup_empty.
Qed.

(** [t[s][a]] on a well-formed table never fails and returns the estimate. *)
Lemma table_getitem_estimate64 (t : pydict state (pydict Z float)) (s : state)
    (a : Z) :
  wf_table t →
  ∃ t', table_getitem t s a = Ok (estimate t s a, t') ∧
        wf_table t' ∧ same_estimates t t'.
Proof.
  intros Hwf.
  destruct (table_row64 t s Hwf)
    as (row & t1 & Hget & Hrow & Hfrow & Hwf1 & Hsame & Hest).
  unfold table_getitem. rewrite Hget. simpl.
  unfold dict_getitem at 1.
  destruct (items row !! a) as [q|] eqn:Ha; simpl.
  - exists (dict_setitem t1 s row).
    rewrite <- Hest. unfold dict_get. rewrite Ha. simpl.
    split; [done|]. split; [by apply wf_table_setitem64|].
    intros s' a'. rewrite <- Hsame. unfold estimate. simpl.
    destruct (decide (s = s')) as [<-|Hne].
    + by rewrite lookup_insert_eq, Hrow.
    + by rewrite lookup_insert_ne.
  - rewrite Hfrow. simpl.
    exists (dict_setitem t1 s (dict_setitem row a 0%float)).
    rewrite <- Hest. unfold dict_get at 1. rewrite Ha. simpl.
    split; [done|]. split; [by apply wf_table_setitem64|].
    intros s' a'. rewrite <- Hsame. unfold estimate. simpl.
    destruct (decide (s = s')) as [<-|Hne].
    + rewrite lookup_insert_eq, Hrow. unfold dict_get. simpl.
      destruct (decide (a = a')) as [<-|Hne].
      * by rewrite lookup_insert_eq, Ha.
      * by rewrite lookup_insert_ne.
    + by rewrite lookup_insert_ne.
Qed.

(** [t[s][a] = q] writes one estimate and leaves every other one alone. *)
Lemma table_setitem_estimate64 (t : pydict state (pydict Z float)) (s : state)
    (a : Z) (q : float) :
  wf_table t →
  ∃ t', table_setitem t s a q = Ok t' ∧ wf_table t' ∧
        estimate t' s a = q ∧ stored t' s a ∧
        ∀ s' a', (s', a') ≠ (s, a) → estimate t' s' a' = estimate t s' a'.
Proof.
  intros Hwf.
  destruct (table_row64 t s Hwf)
    as (row & t1 & Hget & Hrow & Hfrow & Hwf1 & Hsame & Hest).
  unfold table_setitem. rewrite Hget. simpl.
  eexists. split; [done|]. split; [by apply wf_table_setitem64|].
  split.
  { unfold estimate, dict_get. simpl. rewrite lookup_insert_eq. simpl.
    by rewrite lookup_insert_eq. }
  split.
  { eexists. simpl. rewrite lookup_insert_eq. split; [done|]. simpl.
    rewrite lookup_insert_eq. eauto. }
  intros s' a' Hne. rewrite <- Hsame. unfold estimate. simpl.
  destruct (decide (s = s')) as [<-|Hs].
  - rewrite lookup_insert_eq, Hrow. unfold dict_get. simpl.
    rewrite lookup_insert_ne; [done|]. congruence.
  - by rewrite lookup_insert_ne.
Qed.

Lemma max_next_q_spec64 (t : pydict state (pydict Z float)) (ns : state)
    (na : list Z) :
  wf_table t →
  ∃ m t', max_next_q t ns na = Ok (m, t') ∧ wf_table t' ∧
          same_estimates t t' ∧ is_max_next t ns na m.
Proof.
  intros Hwf. unfold max_next_q. destruct na as [|a0 na'] eqn:Hna.
  { exists 0%float, t. split; [done|]. split; [done|].
    split; [apply same_estimates_refl64|]. by split. }
  rewrite <- Hna. assert (na ≠ []) as Hne by (by subst).
  destruct (table_row64 t ns Hwf)
    as (row & t1 & Hget & Hrow & Hfrow & Hwf1 & Hsame & Hest).
  rewrite Hget. simpl.
  set (qs := (fun act => dict_get row act 0%float) <$> na).
  assert (qs ≠ []) as Hqs.
  { unfold qs. rewrite Hna. done. }
  destruct (py_max_spec64 qs Hqs) as (m & Hmax & Hin & Hge).
  exists m, t1.
  split.
  { destruct qs; [done|]. by rewrite Hmax. }
  split; [done|]. split; [done|].
  split; [done|]. intros _. split.
  - apply list_elem_of_fmap in Hin as (a & -> & Ha). exists a. by rewrite Hest.
  - intros a Ha. rewrite <- Hest. apply Hge.
    apply list_elem_of_fmap. eauto.
Qed.

(** One call of [update_q_table] on binary64 numbers. *)
Lemma update_q_table_spec64 (ag : QLearningAgent) (s : state) (a : Z)
    (r : float) (ns : state) (na : list Z) :
  wf_table (q_table ag) →
  ∃ ag' m t1,
    update_q_table ag s a r ns na = Ok ag' ∧
    max_next_q (q_table ag) ns na = Ok (m, t1) ∧
    is_max_next (q_table ag) ns na m ∧
    estimate (q_table ag') s a =
      (estimate (q_table ag) s a +
       lr ag * (r + gamma ag * m - estimate (q_table ag) s a))%float ∧
    stored (q_table ag') s a ∧
    (∀ s' a', (s', a') ≠ (s, a) →
       estimate (q_table ag') s' a' = estimate (q_table ag) s' a') ∧
    wf_table (q_table ag') ∧
    player_mark ag' = player_mark ag ∧ lr ag' = lr ag ∧ gamma ag' = gamma ag ∧
    epsilon ag' = epsilon ag ∧ epsilon_decay ag' = epsilon_decay ag ∧
    min_epsilon ag' = min_epsilon ag.
Proof.
  intros Hwf.
  destruct (max_next_q_spec64 _ ns na Hwf) as (m & t1 & Hmax & Hwf1 & Hs1 & Hm).
  destruct (table_getitem_estimate64 t1 s a Hwf1) as (t2 & Hget & Hwf2 & Hs2).
  set (q := (estimate (q_table ag) s a +
             lr ag * (r + gamma ag * m - estimate (q_table ag) s a))%float).
  destruct (table_setitem_estimate64 t2 s a q Hwf2)
    as (t3 & Hset & Hwf3 & Hnew & Hstored & Hframe).
  exists (set_q_table ag t3), m, t1. unfold update_q_table.
  rewrite Hmax. simpl. rewrite Hget. simpl. rewrite (Hs1 s a).
  fold q.
  rewrite Hset. simpl.
  split; [done|]. split; [done|]. split; [done|]. split; [done|].
  split; [done|]. split.
  { intros s' a' Hne. by rewrite (Hframe s' a' Hne), Hs2, Hs1. }
  split; [done|]. by repeat split.
Qed.

Lemma repeat_update_iter64 (ag : QLearningAgent) (s : state) (a : Z)
    (r : float) (ns : state) (na : list Z) (m : float) :
  wf_table (q_table ag) →
  (∀ k agk, repeat_update k ag s a r ns na = Ok agk →
            ∃ t', max_next_q (q_table agk) ns na = Ok (m, t')) →
  ∀ k, ∃ agk,
    repeat_update k ag s a r ns na = Ok agk ∧
    wf_table (q_table agk) ∧ lr agk = lr ag ∧ gamma agk = gamma ag ∧
    estimate (q_table agk) s a =
      Nat.iter k (fun q => (q + lr ag * (r + gamma ag * m - q))%float)
               (estimate (q_table ag) s a).
Proof.
  intros Hwf Hconst k.
  induction k as [|k (agk & Hk & Hwfk & Hlr & Hgamma & Hest)]; simpl.
  { by exists ag. }
  rewrite Hk. simpl.
  destruct (update_q_table_spec64 agk s a r ns na Hwfk)
    as (ag' & m' & t1 & Hup & Hmax & _ & Hnew & _ & _ & Hwf' & _ & Hlr' &
        Hgamma' & _).
  destruct (Hconst k agk Hk) as [t' Hm]. rewrite Hm in Hmax.
  injection Hmax as <- _.
  exists ag'. split; [done|]. split; [done|].
  split; [congruence|]. split; [congruence|].
  by rewrite Hnew, Hlr, Hgamma, Hest.
Qed.

End binary64_table.

(** C7, as the code has it, on binary64 numbers. One call of
    [update_q_table] on an agent's table stores
    [current + lr * (reward + gamma * max_next - current)], each operation
    rounded, with [max_next] zero for an empty [next_available_actions] and
    otherwise the estimate of one of its actions that no other exceeds; no
    other estimate changes. Repeated calls with the same arguments and a
    constant [max_next] apply that map to the stored estimate once each. *)
Theorem update_q_table_rule (ag : Binary64.QLearningAgent) (s : state) (a : Z)
    (r : float) (ns : state) (na : list Z) :
  let estimate ag := Binary64.estimate (Binary64.q_table ag) in
  let lr := Binary64.lr ag in
  let gamma := Binary64.gamma ag in
  Binary64.wf_table (Binary64.q_table ag) →
  (∃ ag' m,
     Binary64.update_q_table ag s a r ns na = Ok ag' ∧
     Binary64.is_max_next (Binary64.q_table ag) ns na m ∧
     Binary64.stored (Binary64.q_table ag') s a ∧
     estimate ag' s a
       = (estimate ag s a + lr * (r + gamma * m - estimate ag s a))%float ∧
     (∀ s' a', (s', a') ≠ (s, a) → estimate ag' s' a' = estimate ag s' a')) ∧
  (∀ m,
     (∀ k agk, Binary64.repeat_update k ag s a r ns na = Ok agk →
               ∃ t', Binary64.max_next_q (Binary64.q_table agk) ns na
                     = Ok (m, t')) →
     ∀ k, ∃ agk,
       Binary64.repeat_update k ag s a r ns na = Ok agk ∧
       estimate agk s a
         = Nat.iter k (fun q => (q + lr * (r + gamma * m - q))%float)
                    (estimate ag s a)).
Proof.
  intros estimate lr gamma Hwf. split.
  - destruct (update_q_table_spec64 ag s a r ns na Hwf)
      as (ag' & m & t1 & Hup & _ & Hm & Hnew & Hst & Hframe & _).
    by exists ag', m.
  - intros m Hconst k.
    destruct (repeat_update_iter64 ag s a r ns na m Hwf Hconst k)
      as (agk & Hk & _ & _ & _ & Hest).
    by exists agk.
Qed.

Lemma update_q_table_rule_witness :
  let ag := Binary64.default_agent "X" in
  let s := get_state reset in
  let a := 4 in
  let estimate ag := Binary64.estimate (Binary64.q_table ag) in
  Binary64.wf_table (Binary64.q_table ag) ∧
  (∀ k agk, Binary64.repeat_update k ag s a 1 s [] = Ok agk →
            ∃ t', Binary64.max_next_q (Binary64.q_table agk) s []
                  = Ok (0%float, t')) ∧
  (∃ ag' m,
     Binary64.update_q_table ag s a 1 s [] = Ok ag' ∧
     Binary64.is_max_next (Binary64.q_table ag) s [] m ∧
     Binary64.stored (Binary64.q_table ag') s a ∧
     estimate ag' s a
       = (estimate ag s a + 0.1 * (1 + 0.9 * m - estimate ag s a))%float ∧
     (∀ s' a', (s', a') ≠ (s, a) → estimate ag' s' a' = estimate ag s' a')) ∧
  ∀ k, ∃ agk,
    Binary64.repeat_update k ag s a 1 s [] = Ok agk ∧
    estimate agk s a
      = Nat.iter k (fun q => (q + 0.1 * (1 + 0.9 * 0 - q))%float)
                 (estimate ag s a).
Proof.
  intros ag s a estimate.
  assert (∀ k agk, Binary64.repeat_update k ag s a 1 s [] = Ok agk →
            ∃ t', Binary64.max_next_q (Binary64.q_table agk) s []
                  = Ok (0%float, t')) as Hconst
    by (intros k agk _; eexists; reflexivity).
  split; [exact wf_new_q_table64|]. split; [exact Hconst|].
  destruct (update_q_table_rule ag s a 1%float s [] wf_new_q_table64)
    as [Hone Hmany].
  split; [exact Hone|]. exact (Hmany 0%float Hconst).
Defined.

(** C7 fails as stated. With [learning_rate = 2], reward 1 and no next
    action, the estimate goes from 0 to 2, beyond the target 1, and back to
    0. Within [0 <= learning_rate <= 1] rounding does it: with
    [learning_rate = 1.0], reward 0.5 and no next action, the estimate
    -0.628 becomes 0.5000000000000001, above the target 0.5, and the next
    call brings it down to 0.5. *)
Lemma update_overshoots_target :
  let s := get_state reset in
  let estimate ag := Binary64.estimate (Binary64.q_table ag) s 4 in
  (let ag := Binary64.new_agent "X" 2 0.9 1 0.999 0.01 in
   Binary64.wf_table (Binary64.q_table ag) ∧
   ∃ ag1 ag2,
     Binary64.repeat_update 1 ag s 4 1 s [] = Ok ag1 ∧
     Binary64.repeat_update 2 ag s 4 1 s [] = Ok ag2 ∧
     (1 + Binary64.gamma ag * 0)%float = 1%float ∧
     estimate ag = 0%float ∧ estimate ag1 = 2%float ∧
     estimate ag2 = 0%float) ∧
  (let ag :=
     Binary64.set_q_table (Binary64.new_agent "X" 1 0.9 1 0.999 0.01)
       {| default_factory := Some (Binary64.defaultdict_float ∅);
          items := {[ s := Binary64.defaultdict_float
                             {[ 4 := (-0.628)%float ]} ]} |} in
   Binary64.wf_table (Binary64.q_table ag) ∧
   ∃ ag1 ag2,
     Binary64.repeat_update 1 ag s 4 0.5 s [] = Ok ag1 ∧
     Binary64.repeat_update 2 ag s 4 0.5 s [] = Ok ag2 ∧
     (0.5 + Binary64.gamma ag * 0)%float = 0.5%float ∧
     estimate ag = (-0.628)%float ∧
     estimate ag1 = 0.5000000000000001%float ∧
     (0.5 <? estimate ag1)%float = true ∧
     estimate ag2 = 0.5%float).
Proof.
  intros s estimate. split.
  - split; [exact wf_new_q_table64|].
    eexists _, _. split; [vm_compute; reflexivity|].
    split; [vm_compute; reflexivity|]. by vm_compute.
  - split.
    { split; [done|]. intros s' row Hs'. simpl in Hs'.
      apply lookup_singleton_Some in Hs' as [_ <-]. done. }
    eexists _, _. split; [vm_compute; reflexivity|].
    split; [vm_compute; reflexivity|]. by vm_compute.
Qed.

(** ** decay_exploration *)

Lemma iter_decay_settings (n : nat) (ag : QLearningAgent) :
  min_epsilon (Nat.iter n decay_exploration ag) = min_epsilon ag ∧
  epsilon_decay (Nat.iter n decay_exploration ag) = epsilon_decay ag.
Proof. induction n as [|n [IH1 IH2]]; simpl; auto. Qed.

Lemma epsilon_after_S (n : nat) (ag : QLearningAgent) :
  epsilon_after (S n) ag =
  py_max2 (min_epsilon ag) (epsilon_after n ag * epsilon_decay ag)%Q.
Proof.
  unfold epsilon_after. simpl.
  by destruct (iter_decay_settings n ag) as [-> ->].
Qed.

(** C8, as the code has it. Each call of [decay_exploration] sets
    [epsilon] to the greater of [min_epsilon] and [epsilon * epsilon_decay],
    so after one call or more the rate is never below the floor. The rates
    form a non-increasing sequence that stays at or above the floor when the
    decay factor lies between 0 and 1 and the first rate is neither negative
    nor below the floor. *)
Theorem decay_exploration_floor (ag : QLearningAgent) :
  epsilon (decay_exploration ag) =
    py_max2 (min_epsilon ag) (epsilon ag * epsilon_decay ag)%Q ∧
  (min_epsilon ag <= epsilon (decay_exploration ag))%Q ∧
  (epsilon ag * epsilon_decay ag <= epsilon (decay_exploration ag))%Q ∧
  (epsilon (decay_exploration ag) = min_epsilon ag ∨
   epsilon (decay_exploration ag) = (epsilon ag * epsilon_decay ag)%Q) ∧
  (∀ n, (min_epsilon ag <= epsilon_after (S n) ag)%Q) ∧
  ((0 <= epsilon_decay ag)%Q → (epsilon_decay ag <= 1)%Q →
   (0 <= epsilon ag)%Q → (min_epsilon ag <= epsilon ag)%Q →
   ∀ n, (epsilon_after (S n) ag <= epsilon_after n ag)%Q ∧
        (min_epsilon ag <= epsilon_after n ag)%Q).
Proof.
  split; [done|]. split; [apply py_max2_ge|]. split; [apply py_max2_ge|].
  split.
  { simpl. destruct (py_max2_cases (min_epsilon ag)
                       (epsilon ag * epsilon_decay ag)%Q) as [[-> _]|[-> _]];
      auto. }
  split.
  { intros n. rewrite epsilon_after_S. apply py_max2_ge. }
  intros Hd0 Hd1 He0 Hmin n.
  assert ((0 <= epsilon_after n ag)%Q ∧ (min_epsilon ag <= epsilon_after n ag)%Q)
    as [Hn0 Hnmin].
  { induction n as [|n [IH0 IHmin]]; [done|].
    rewrite epsilon_after_S.
    pose proof (py_max2_ge (min_epsilon ag)
                  (epsilon_after n ag * epsilon_decay ag)%Q) as [Hge1 Hge2].
    split; [|done]. nra. }
  split; [|done]. rewrite epsilon_after_S.
  destruct (py_max2_cases (min_epsilon ag)
              (epsilon_after n ag * epsilon_decay ag)%Q) as [[-> _]|[-> _]];
    [done | nra].
Qed.

Lemma decay_exploration_floor_witness :
  let ag := default_agent "X" in
  (0 <= epsilon_decay ag)%Q ∧ (epsilon_decay ag <= 1)%Q ∧
  (0 <= epsilon ag)%Q ∧ (min_epsilon ag <= epsilon ag)%Q ∧
  ∀ n, (epsilon_after (S n) ag <= epsilon_after n ag)%Q ∧
       (min_epsilon ag <= epsilon_after n ag)%Q.
Proof.
  intros ag.
  assert (0 <= epsilon_decay ag)%Q as Hd0 by discriminate.
  assert (epsilon_decay ag <= 1)%Q as Hd1 by discriminate.
  assert (0 <= epsilon ag)%Q as He0 by discriminate.
  assert (min_epsilon ag <= epsilon ag)%Q as Hmin by discriminate.
  split; [exact Hd0|]. split; [exact Hd1|]. split; [exact He0|].
  split; [exact Hmin|].
  exact (proj2 (proj2 (proj2 (proj2 (proj2 (decay_exploration_floor ag)))))
           Hd0 Hd1 He0 Hmin).
Defined.

(** C8 fails as stated for an agent created with [exploration_rate = 0]
    (and the default floor 0.01): its rate starts below the floor and the
    first call raises it. *)
Lemma decay_exploration_raises_epsilon :
  let ag := new_agent "X" (1 # 10) (9 # 10) 0 (999 # 1000) (1 # 100) in
  (epsilon_after 0 ag < min_epsilon ag)%Q ∧
  (epsilon_after 0 ag < epsilon_after 1 ag)%Q ∧
  ¬ (epsilon_after 1 ag <= epsilon_after 0 ag)%Q.
Proof.
  intros ag. split; [reflexivity|]. split; [reflexivity|].
  apply Qlt_not_le. reflexivity.
Qed.

(** ** save_q_table and load_q_table *)

Lemma rebuild_spec (d : pydict state (pydict Z Q)) :
  default_factory (rebuild d) = Some (defaultdict_float ∅) ∧
  items (rebuild d) = (fun actions => defaultdict_float (items actions)) <$> items d.
Proof.
  unfold rebuild.
  apply (map_fold_weak_ind
           (fun r m => default_factory r = Some (defaultdict_float ∅) ∧
                       items r = (fun actions => defaultdict_float (items actions)) <$> m)).
  - split; [done|]. simpl. by rewrite fmap_empty.
  - intros s actions m r _ [Hf Hi]. split; [done|]. simpl.
    by rewrite Hi, fmap_insert.
Qed.

Lemma wf_rebuild (d : pydict state (pydict Z Q)) : wf_table (rebuild d).
Proof.
  destruct (rebuild_spec d) as [Hf Hi]. split; [done|].
  intros s row. rewrite Hi, lookup_fmap.
  destruct (items d !! s); simpl; [|done]. by intros [= <-].
Qed.

Lemma rebuild_to_dict (t : pydict state (pydict Z Q)) :
  wf_table t → rebuild (to_dict t) = t.
Proof.
  intros [Hf Hrows]. destruct (rebuild_spec (to_dict t)) as [Hf' Hi'].
  destruct (rebuild (to_dict t)) as [f' i'], t as [f i]. simpl in *.
  subst f f' i'. f_equal. apply map_eq. intros s. rewrite lookup_fmap.
  destruct (i !! s) as [row|] eqn:Hs; simpl; [|done].
  specialize (Hrows s row Hs). destruct row as [fr ir]. simpl in *.
  by subst fr.
Qed.

Lemma estimate_not_stored (t : pydict state (pydict Z Q)) (s : state) (a : Z) :
  ¬ stored t s a → estimate t s a = 0%Q.
Proof.
  intros Hns. unfold estimate, dict_get.
  destruct (items t !! s) as [row|] eqn:Hs; [|done].
  destruct (items row !! a) as [q|] eqn:Ha; [|done].
  destruct Hns. exists row. eauto.
Qed.

(** The pickled object is a plain [dict]: looking up a state that is not in
    it fails. *)
Lemma saved_dict_lookup_fails (t : pydict state (pydict Z Q)) (s : state) :
  items t !! s = None → dict_getitem (to_dict t) s = Raise KeyError.
Proof. intros Hs. unfold dict_getitem. simpl. by rewrite Hs. Qed.

(** C9. Saving an agent's table and loading the file (into this agent or
    another) gives the same table back: every lookup [q_table[s][a]]
    succeeds before and after the round trip and returns the same number,
    which is the stored estimate for a stored pair and zero for a pair that
    was never stored. *)
Theorem save_load_round_trip (ag ag0 : QLearningAgent) (filename : string)
    (fs : files) :
  wf_table (q_table ag) →
  let loaded := load_q_table ag0 filename (save_q_table ag filename fs) in
  q_table loaded = q_table ag ∧
  wf_table (q_table loaded) ∧
  (∀ s a, stored (q_table loaded) s a ↔ stored (q_table ag) s a) ∧
  (∀ s a, ∃ t t',
     table_getitem (q_table ag) s a = Ok (estimate (q_table ag) s a, t) ∧
     table_getitem (q_table loaded) s a = Ok (estimate (q_table ag) s a, t')) ∧
  (∀ s a, ¬ stored (q_table ag) s a →
     estimate (q_table ag) s a = 0%Q ∧ estimate (q_table loaded) s a = 0%Q).
Proof.
  intros Hwf loaded.
  assert (q_table loaded = q_table ag) as Heq.
  { unfold loaded, load_q_table, save_q_table. rewrite lookup_insert_eq.
    simpl. by apply rebuild_to_dict. }
  split; [done|]. rewrite Heq. split; [done|]. split; [done|].
  split.
  - intros s a. destruct (table_getitem_estimate _ s a Hwf) as (t & Ht & _).
    by exists t, t.
  - intros s a Hns. split; by apply estimate_not_stored.
Qed.

Lemma save_load_round_trip_witness :
  let s := ["X"; " "; " "; " "; " "; " "; " "; " "; " "] in
  let t := mkDict (Some (defaultdict_float ∅))
             {[ s := defaultdict_float {[ 4 := (1 # 10)%Q ]} ]} in
  let ag := set_q_table (default_agent "O") t in
  let loaded :=
    load_q_table (default_agent "O") "q_table_o.pkl"
      (save_q_table ag "q_table_o.pkl" ∅) in
  wf_table (q_table ag) ∧
  q_table loaded = q_table ag ∧
  wf_table (q_table loaded) ∧
  (∀ s a, stored (q_table loaded) s a ↔ stored (q_table ag) s a) ∧
  (∀ s a, ∃ t t',
     table_getitem (q_table ag) s a = Ok (estimate (q_table ag) s a, t) ∧
     table_getitem (q_table loaded) s a = Ok (estimate (q_table ag) s a, t')) ∧
  (∀ s a, ¬ stored (q_table ag) s a →
     estimate (q_table ag) s a = 0%Q ∧ estimate (q_table loaded) s a = 0%Q).
Proof.
  intros s t ag loaded.
  assert (wf_table (q_table ag)) as Hwf.
  { split; [reflexivity|]. intros s' row Hs'. simpl in Hs'.
    apply lookup_singleton_Some in Hs' as [_ <-]. reflexivity. }
  split; [exact Hwf|].
  exact (save_load_round_trip ag (default_agent "O") "q_table_o.pkl" ∅ Hwf).
Defined.

(** ** choose_action *)

Lemma random_choice_spec {A} (l : list A) (g : rng) :
  l ≠ [] → ∃ x, random_choice l g = Ok (x, advance g) ∧ x ∈ l.
Proof.
  intros Hne. unfold random_choice.
  assert (choice_tape g (cursor g) `mod` length l < length l)%nat as Hlt.
  { apply Nat.mod_upper_bound. by destruct l. }
  destruct (lookup_lt_is_Some_2 _ _ Hlt) as [x Hx]. rewrite Hx.
  exists x. split; [done|]. by eapply list_elem_of_lookup_2.
Qed.

Lemma assoc_set_keys (k : Z) (v : Q) (d : list (Z * Q)) (a : Z) :
  a ∈ (assoc_set k v d).*1 ↔ a = k ∨ a ∈ d.*1.
Proof.
  induction d as [|[k' v'] d IH]; simpl.
  - rewrite list_elem_of_singleton, elem_of_nil. tauto.
  - destruct (Z.eqb_spec k k') as [<-|Hne]; simpl.
    + rewrite !elem_of_cons. tauto.
    + rewrite !elem_of_cons, IH. tauto.
Qed.

Lemma action_values_keys (row : pydict Z Q) (available_actions : list Z) (a : Z) :
  a ∈ (action_values row available_actions).*1 ↔ a ∈ available_actions.
Proof.
  unfold action_values.
  assert (∀ acc : list (Z * Q),
    a ∈ (foldl (fun d action => assoc_set action (dict_get row action 0%Q) d)
               acc available_actions).*1 ↔
    a ∈ acc.*1 ∨ a ∈ available_actions) as Hgen.
  { induction available_actions as [|x l IH]; intros acc; simpl.
    - rewrite elem_of_nil. tauto.
    - rewrite IH, assoc_set_keys, elem_of_cons. tauto. }
  rewrite Hgen. simpl. rewrite elem_of_nil. tauto.
Qed.

Lemma best_of_nonempty (d : list (Z * Q)) (m : Q) : m ∈ d.*2 → best_of d m ≠ [].
Proof.
  intros ([k v] & -> & Hin)%list_elem_of_fmap. unfold best_of.
  destruct (List.filter _ d) as [|p l] eqn:E; [|done]. exfalso.
  assert (In (k, v) (List.filter (fun aq => Qeq_bool aq.2 (k, v).2) d)) as Hk.
  { apply filter_In. split; [by apply list_elem_of_In|].
    simpl. by apply Qeq_bool_iff. }
  by rewrite E in Hk.
Qed.

Lemma best_of_keys (d : list (Z * Q)) (m : Q) (a : Z) :
  a ∈ best_of d m → a ∈ d.*1.
Proof.
  unfold best_of. intros ([k v] & -> & Hin)%list_elem_of_fmap.
  apply list_elem_of_In, filter_In in Hin as [Hin _].
  apply list_elem_of_fmap. exists (k, v). split; [done|].
  by apply list_elem_of_In.
Qed.

Lemma choose_action_spec (ag : QLearningAgent) (s : state)
    (available_actions : list Z) (g : rng) :
  wf_table (q_table ag) →
  ∃ act ag' g',
    choose_action ag s available_actions g = Ok (act, ag', g') ∧
    (available_actions = [] → act = None) ∧
    (available_actions ≠ [] → ∃ x, act = Some x ∧ x ∈ available_actions) ∧
    wf_table (q_table ag') ∧ same_estimates (q_table ag) (q_table ag') ∧
    same_settings ag ag' ∧ epsilon ag' = epsilon ag ∧
    (q_table ag' = q_table ag ∨
     items (q_table ag) !! s = None ∧
     q_table ag' = dict_setitem (q_table ag) s (defaultdict_float ∅)) ∧
    (available_actions = [] ∨ (uniform_tape g (cursor g) < epsilon ag)%Q →
     q_table ag' = q_table ag).
Proof.
  intros Hwf. unfold choose_action.
  destruct available_actions as [|a0 l] eqn:Hav.
  { exists None, ag, g. split; [done|]. split; [done|]. split; [done|].
    split; [done|]. split; [apply same_estimates_refl|].
    split; [by repeat split|]. split; [done|]. split; [by left | done]. }
  rewrite <- Hav. assert (available_actions ≠ []) as Hne by (by subst).
  clear Hav a0 l. simpl.
  destruct (Qlt_le_dec _ _) as [Hlt|Hge].
  - (* explore *)
    destruct (random_choice_spec available_actions (advance g) Hne)
      as (x & -> & Hx). simpl.
    exists (Some x), ag, (advance (advance g)).
    split; [done|]. split; [done|]. split; [eauto|].
    split; [done|]. split; [apply same_estimates_refl|].
    split; [by repeat split|]. split; [done|]. split; [by left | done].
  - (* exploit *)
    destruct (table_row (q_table ag) s Hwf)
      as (row & t1 & -> & Hrow & Hfrow & Hwf1 & Hsame & Hest & Hother & Ht1).
    simpl.
    set (d := action_values row available_actions).
    assert (d ≠ []) as Hd.
    { destruct available_actions as [|a l]; [done|].
      assert (a ∈ d.*1) as Ha by (apply action_values_keys; left).
      intros Hnil. rewrite Hnil in Ha. by apply elem_of_nil in Ha. }
    assert (d.*2 ≠ []) as Hd2 by (by destruct d).
    destruct (py_max_spec _ Hd2) as (m & Hmax & Hin & _).
    pose proof (best_of_nonempty d m Hin) as Hbest.
    destruct (random_choice_spec (best_of d m) (advance g) Hbest)
      as (x & Hchoice & Hx).
    exists (Some x), (set_q_table ag t1), (advance (advance g)).
    split.
    { destruct d as [|p d'] eqn:Ed; [done|]. rewrite <- Ed in *.
      rewrite Hmax. simpl. by rewrite Hchoice. }
    split; [done|]. split.
    { intros _. exists x. split; [done|].
      by apply (action_values_keys row), best_of_keys with m. }
    split; [done|]. split; [done|]. split; [by repeat split|].
    split; [done|]. split.
    { destruct Ht1 as [->|[? ->]]; [by left | by right]. }
    intros [?|Hlt]; [done|]. exfalso. lra.
Qed.

Lemma stored_new_row (t : pydict state (pydict Z Q)) (s s' : state) (a' : Z) :
  items t !! s = None →
  stored (dict_setitem t s (defaultdict_float ∅)) s' a' ↔ stored t s' a'.
Proof.
  intros Hs. unfold stored. simpl. destruct (decide (s = s')) as [<-|Hne].
  - rewrite lookup_insert_eq, Hs. split.
    + intros (row & [= <-] & Ha). simpl in Ha.
      rewrite lookup_empty in Ha. by destruct Ha.
    + by intros (row & ? & _).
  - by rewrite lookup_insert_ne.
Qed.

(** C3, as the code has it. No operation of an agent but
    [update_q_table] (and a load) changes an estimate: [choose_action]
    returns with every estimate and every stored pair as before, and
    [decay_exploration] leaves the table alone. The table itself is not
    always left as it was: when [choose_action] exploits in a state that
    has no row yet, the lookup [self.q_table[state]] adds an empty row for
    it. [update_q_table] changes no estimate but the one of its
    [(state, action)]. *)
Theorem choose_action_keeps_estimates (ag : QLearningAgent) :
  wf_table (q_table ag) →
  (∀ s available_actions g,
     ∃ act ag' g',
       choose_action ag s available_actions g = Ok (act, ag', g') ∧
       (∀ s' a', estimate (q_table ag') s' a' = estimate (q_table ag) s' a') ∧
       (∀ s' a', stored (q_table ag') s' a' ↔ stored (q_table ag) s' a') ∧
       (q_table ag' = q_table ag ∨
        items (q_table ag) !! s = None ∧
        q_table ag' = dict_setitem (q_table ag) s (defaultdict_float ∅)) ∧
       (available_actions = [] ∨ (uniform_tape g (cursor g) < epsilon ag)%Q →
        q_table ag' = q_table ag)) ∧
  q_table (decay_exploration ag) = q_table ag ∧
  (∀ s a r ns na,
     ∃ ag', update_q_table ag s a r ns na = Ok ag' ∧
            ∀ s' a', (s', a') ≠ (s, a) →
                     estimate (q_table ag') s' a' = estimate (q_table ag) s' a').
Proof.
  intros Hwf. split; [|split; [done|]].
  - intros s available_actions g.
    destruct (choose_action_spec ag s available_actions g Hwf)
      as (act & ag' & g' & Hc & _ & _ & _ & Hsame & _ & _ & Ht & Hexp).
    exists act, ag', g'. split; [done|]. split; [done|].
    split; [|done].
    intros s' a'. destruct Ht as [->|[Hs ->]]; [done|].
    by apply stored_new_row.
  - intros s a r ns na.
    destruct (update_q_table_spec ag s a r ns na Hwf)
      as (ag' & m & t1 & Hup & _ & _ & _ & _ & Hframe & _).
    by exists ag'.
Qed.

Lemma choose_action_keeps_estimates_witness :
  let ag := default_agent "X" in
  wf_table (q_table ag) ∧
  (∀ s available_actions g,
     ∃ act ag' g',
       choose_action ag s available_actions g = Ok (act, ag', g') ∧
       (∀ s' a', estimate (q_table ag') s' a' = estimate (q_table ag) s' a') ∧
       (∀ s' a', stored (q_table ag') s' a' ↔ stored (q_table ag) s' a') ∧
       (q_table ag' = q_table ag ∨
        items (q_table ag) !! s = None ∧
        q_table ag' = dict_setitem (q_table ag) s (defaultdict_float ∅)) ∧
       (available_actions = [] ∨ (uniform_tape g (cursor g) < epsilon ag)%Q →
        q_table ag' = q_table ag)).
Proof.
  intros ag. split; [exact wf_new_q_table|].
  exact (proj1 (choose_action_keeps_estimates ag wf_new_q_table)).
Defined.

(** C3 fails as stated: an agent with exploration switched off (as
    [play_game] sets it) that chooses a move on the empty board of a new game
    comes back with a row for that board in a table that had none. *)
Lemma choose_action_adds_row :
  let ag := set_epsilon (default_agent "X") 0 in
  let g := mkRng (fun _ => (1 # 2)%Q) (fun _ => 0%nat) 0 in
  ∃ a ag' g',
    choose_action ag (get_state reset) (get_available_actions reset) g
      = Ok (Some a, ag', g') ∧
    items (q_table ag) !! get_state reset = None ∧
    items (q_table ag') !! get_state reset = Some (defaultdict_float ∅) ∧
    q_table ag' ≠ q_table ag.
Proof.
  intros ag g. eexists _, _, _. split; [vm_compute; reflexivity|].
  split; [reflexivity|]. split; [vm_compute; reflexivity|].
  intros Heq. apply (f_equal (fun t => items t !! get_state reset)) in Heq.
  vm_compute in Heq. discriminate Heq.
Qed.

(** ** One turn of train *)

Lemma same_marks_refl st : same_marks st st.
Proof. by intros w. Qed.

Lemma same_marks_trans st1 st2 st3 :
  same_marks st1 st2 → same_marks st2 st3 → same_marks st1 st3.
Proof. intros H12 H23 w. by rewrite H23, H12. Qed.

Lemma same_marks_set_agent st w ag :
  player_mark ag = player_mark (agent_of st w) →
  same_marks st (set_agent st w ag).
Proof. intros Hm w'. by destruct w, w'. Qed.

Lemma update_q_table_mark ag s a r ns na ag' :
  update_q_table ag s a r ns na = Ok ag' → player_mark ag' = player_mark ag.
Proof.
  unfold update_q_table. intros H. inv_bind H. destruct x as [m t].
  inv_bind H. destruct x as [q t']. inv_bind H. by injection H as <-.
Qed.

Lemma random_choice_elem {A} (l : list A) (g g' : rng) (x : A) :
  random_choice l g = Ok (x, g') → x ∈ l.
Proof.
  unfold random_choice. destruct (l !! _) eqn:E; [|done].
  intros [= <- _]. by eapply list_elem_of_lookup_2.
Qed.

Lemma choose_action_inv ag s available_actions g act ag' g' :
  choose_action ag s available_actions g = Ok (act, ag', g') →
  player_mark ag' = player_mark ag ∧
  match act with
  | Some x => x ∈ available_actions
  | None => available_actions = []
  end.
Proof.
  unfold choose_action. destruct available_actions as [|a0 l] eqn:Hav.
  { by intros [= <- <- _]. }
  rewrite <- Hav. clear Hav a0 l. simpl.
  destruct (Qlt_le_dec _ _).
  - intros H. inv_bind H. destruct x as [x g1]. injection H as <- <- _.
    split; [done|]. by eapply random_choice_elem.
  - intros H. inv_bind H. destruct x as [row t].
    destruct (action_values row available_actions) as [|p d] eqn:Ed.
    + inv_bind H. destruct x as [x g1]. injection H as <- <- _.
      split; [done|]. by eapply random_choice_elem.
    + rewrite <- Ed in H. inv_bind H. rename x into m.
      inv_bind H. destruct x as [x g1]. injection H as <- <- _.
      split; [done|].
      eapply (action_values_keys row), best_of_keys, random_choice_elem, Hm1.
Qed.

Lemma logged_update_inv st c w s a r ns na st' :
  logged_update st c w s a r ns na = Ok st' →
  calls st' = calls st ++ [mkCall c w s a r ns na] ∧
  env st' = env st ∧ current st' = current st ∧ cur_state st' = cur_state st ∧
  last_move st' = last_move st ∧ stats st' = stats st ∧ gen st' = gen st ∧
  same_marks st st'.
Proof.
  unfold logged_update. intros H. inv_bind H. injection H as <-. simpl.
  repeat split; try done.
  apply same_marks_set_agent. by eapply update_q_table_mark.
Qed.

(** The optional update of the opponent, at either place. *)
Lemma opponent_update_inv st c oth mark r ns na st' :
  match last_move st !! mark with
  | Some (prev_state, prev_action) =>
      logged_update st c oth prev_state prev_action (opponent_reward r) ns na
  | None => Ok st
  end = Ok st' →
  calls st' = calls st ++ deferred_calls c (last_move st) mark oth r ns na ∧
  env st' = env st ∧ current st' = current st ∧ cur_state st' = cur_state st ∧
  last_move st' = last_move st ∧ stats st' = stats st ∧ gen st' = gen st ∧
  same_marks st st'.
Proof.
  unfold deferred_calls. destruct (last_move st !! mark) as [[ps pa]|].
  - apply logged_update_inv.
  - intros [= <-]. rewrite app_nil_r. repeat split; try done.
Qed.

(** What a turn that returns has done: nothing when no cell was free;
    otherwise one move, the update of the mover, the update of the opponent
    when it has moved before and, when the move ended the game, the two
    closing updates. *)
Lemma turn_inv (st st' : trainer) (fl : flow) :
  turn st = Ok (fl, st') →
  let cur := current st in
  let oth := opposite cur in
  let mark := player_mark (agent_of st cur) in
  (fl = Break ∧ calls st' = [] ∧ get_available_actions (env st) = [] ∧
   env st' = env st) ∨
  ∃ action e ns reward is_done,
    action ∈ get_available_actions (env st) ∧
    step (env st) action mark = Ok (e, (ns, reward, is_done)) ∧
    env st' = e ∧ cur_state st' = ns ∧ same_marks st st' ∧
    fl = (if is_done : bool then Break else Continue) ∧
    (is_done = false → current st' = oth) ∧
    calls st' =
      mkCall Immediate cur (cur_state st) action reward ns
             (get_available_actions e)
      :: deferred_calls Deferred (last_move st) mark oth reward
           (cur_state st) (get_available_actions (env st))
      ++ (if is_done
          then mkCall FinalMover cur ns action reward ns []
               :: deferred_calls FinalOpponent
                    (<[player_mark (agent_of st oth) := (cur_state st, action)]>
                       (last_move st))
                    mark oth reward ns []
          else []).
Proof.
  intros H. cbv zeta. unfold turn in H.
  bind_inv H as [[act ag] g] Hchoose.
  apply choose_action_inv in Hchoose as [Hmark Hact]. simpl in Hmark, Hact.
  destruct act as [action|].
  2:{ left. injection H as <- <-. by repeat split. }
  right. bind_inv H as [e [[ns reward] is_done]] Hstep.
  simpl in Hstep.
  assert (same_marks st
            (set_gen (set_agent (set_calls st []) (current st) ag) g)) as Hm0.
  { intros w. simpl. by destruct w, (current st). }
  rewrite (Hm0 (current st)) in Hstep.
  bind_inv H as st3 Hup3.
  apply logged_update_inv in Hup3
    as (Hc3 & He3 & Hcur3 & Hs3 & Hl3 & _ & _ & Hm3). simpl in *.
  bind_inv H as st4 Hup4.
  apply opponent_update_inv in Hup4
    as (Hc4 & He4 & Hcur4 & Hs4 & Hl4 & _ & _ & Hm4).
  pose proof (same_marks_trans _ _ _ Hm0 Hm3) as Hm03.
  pose proof (same_marks_trans _ _ _ Hm03 Hm4) as Hm04.
  rewrite (Hm03 (current st)), Hl3, Hc3 in Hc4. simpl in Hc4.
  exists action, e, ns, reward, is_done.
  split; [done|]. split; [done|].
  destruct is_done.
  - bind_inv H as st7 Hup7.
    apply logged_update_inv in Hup7
      as (Hc7 & He7 & Hcur7 & Hs7 & Hl7 & _ & _ & Hm7). simpl in *.
    bind_inv H as st8 Hup8.
    apply opponent_update_inv in Hup8
      as (Hc8 & He8 & Hcur8 & Hs8 & Hl8 & _ & _ & Hm8).
    injection H as <- <-. simpl.
    pose proof (same_marks_trans _ _ _ Hm04 Hm7) as Hm07.
    split; [congruence|]. split; [congruence|].
    split; [by eapply same_marks_trans|].
    split; [done|]. split; [done|].
    rewrite Hc8, Hc7, Hc4, Hl7. simpl.
    rewrite (Hm07 (current st)), (Hm04 (opposite (current st))), Hl4, Hl3.
    rewrite Hs7. simpl. by rewrite <- app_assoc.
  - injection H as <- <-. simpl.
    split; [congruence|]. split; [done|]. split; [done|].
    split; [done|]. split; [congruence|].
    rewrite Hc4, app_nil_r. done.
Qed.

Lemma elem_of_deferred_calls c cs moves mark oth r ns na :
  c ∈ deferred_calls cs moves mark oth r ns na →
  site c = cs ∧ callee c = oth ∧ call_reward c = opponent_reward r ∧
  call_next_state c = ns ∧ call_next_available c = na ∧
  moves !! mark = Some (call_state c, call_action c).
Proof.
  unfold deferred_calls. destruct (moves !! mark) as [[ps pa]|].
  - by intros ->%list_elem_of_singleton.
  - by intros ?%elem_of_nil.
Qed.

(** The calls of a turn, told apart by the place they come from. *)
Lemma turn_calls_cases (c imm : update_call)
    (lm1 lm2 : gmap string (state * Z)) mark oth r ns1 na1 ns2 (fin : update_call)
    (is_done : bool) :
  site imm = Immediate → site fin = FinalMover →
  c ∈ imm :: deferred_calls Deferred lm1 mark oth r ns1 na1
        ++ (if is_done
            then fin :: deferred_calls FinalOpponent lm2 mark oth r ns2 []
            else []) →
  (c = imm) ∨
  (site c = Deferred ∧ c ∈ deferred_calls Deferred lm1 mark oth r ns1 na1) ∨
  (is_done = true ∧ c = fin) ∨
  (is_done = true ∧ site c = FinalOpponent ∧
   c ∈ deferred_calls FinalOpponent lm2 mark oth r ns2 []).
Proof.
  intros Himm Hfin [->|[Hc|Hc]%elem_of_app]%elem_of_cons; [by left| |].
  - right; left. split; [|done]. by apply elem_of_deferred_calls in Hc as [? _].
  - destruct is_done; [|by apply elem_of_nil in Hc].
    apply elem_of_cons in Hc as [->|Hc]; [by right; right; left|].
    right; right; right. split; [done|]. split; [|done].
    by apply elem_of_deferred_calls in Hc as [? _].
Qed.

Lemma step_valid_inv (e e' : TicTacToeEnv) (action : Z) (player : string)
    (ns : state) (r : Q) (d : bool) :
  done e = false →
  py_getitem (board e) action = Ok EMPTY →
  step e action player = Ok (e', (ns, r, d)) →
  let b' := <[index_of (board e) action := player]> (board e) in
  ns = b' ∧ board e' = b' ∧ done e' = d ∧
  ∃ w, check_winner b' = Ok w ∧
    (truthy w = true →
       winner e' = w ∧ d = true ∧
       r = (if bool_decide (w = Some player) then 1
            else if bool_decide (w = Some DRAW) then 1 # 2 else -1)%Q) ∧
    (truthy w = false → no_empty_cell b' = true →
       winner e' = Some DRAW ∧ d = true ∧ r = (1 # 2)%Q) ∧
    (truthy w = false → no_empty_cell b' = false →
       winner e' = w ∧ d = false ∧ r = 0%Q).
Proof.
  intros Hd Hcell Hstep b'.
  destruct (check_winner b') as [w|ex] eqn:Hw.
  2:{ unfold step in Hstep. rewrite Hcell in Hstep. simpl in Hstep.
      rewrite ?String.eqb_refl, Hd in Hstep. simpl in Hstep.
      rewrite (py_setitem_Ok _ _ _ _ Hcell) in Hstep. simpl in Hstep.
      fold b' in Hstep. by rewrite Hw in Hstep. }
  rewrite (step_valid e action player w Hd Hcell Hw) in Hstep. fold b' in Hstep.
  destruct (truthy w) eqn:Ht; [|destruct (no_empty_cell b') eqn:Hf];
    injection Hstep as <- <- <- <-; simpl;
    (split; [done|]); (split; [done|]); (split; [done|]);
    exists w; (split; [done|]); repeat split; congruence.
Qed.

(** C6. A turn of [train] in which a move is made calls [update_q_table]
    for the mover with the reward [step] returned, and hands the opponent's
    update (at both places where the opponent is updated) that reward when
    it equals 1/2 and its negation otherwise. The opponent's update is
    issued whenever [last_move] holds its previous move. When the move wins
    the game the mover is updated with 1 and the opponent with -1; when it
    draws, both are updated with 1/2. *)
Theorem opponent_reward_rule (st st' : trainer) (fl : flow) :
  let cur := current st in
  let oth := opposite cur in
  let mark := player_mark (agent_of st cur) in
  turn st = Ok (fl, st') →
  get_available_actions (env st) ≠ [] →
  ∃ action ns reward is_done opp,
    step (env st) action mark = Ok (env st', (ns, reward, is_done)) ∧
    (((reward == 1 # 2)%Q → opp = reward) ∧
     (¬ (reward == 1 # 2)%Q → opp = (- reward)%Q)) ∧
    mkCall Immediate cur (cur_state st) action reward ns
           (get_available_actions (env st')) ∈ calls st' ∧
    (∀ prev_state prev_action,
       last_move st !! mark = Some (prev_state, prev_action) →
       mkCall Deferred oth prev_state prev_action opp (cur_state st)
              (get_available_actions (env st)) ∈ calls st') ∧
    (∀ prev_state prev_action,
       is_done = true →
       <[player_mark (agent_of st oth) := (cur_state st, action)]>
         (last_move st) !! mark = Some (prev_state, prev_action) →
       mkCall FinalOpponent oth prev_state prev_action opp ns []
         ∈ calls st') ∧
    (∀ c, c ∈ calls st' →
       (site c = Immediate ∨ site c = FinalMover →
          callee c = cur ∧ call_reward c = reward) ∧
       (site c = Deferred ∨ site c = FinalOpponent →
          callee c = oth ∧ call_reward c = opp)) ∧
    (done (env st) = false → mark_ok mark →
     (winner (env st') = Some mark → reward = 1%Q ∧ opp = (-1)%Q) ∧
     (winner (env st') = Some DRAW →
        reward = (1 # 2)%Q ∧ opp = (1 # 2)%Q)).
Proof.
  intros cur oth mark Hturn Hfree.
  destruct (turn_inv _ _ _ Hturn) as [(_ & _ & Hnil & _)|Hmove]; [done|].
  destruct Hmove as (action & e & ns & reward & is_done & Hav & Hstep & He &
                     _ & _ & _ & _ & Hcalls).
  fold cur oth mark in Hstep, Hcalls.
  exists action, ns, reward, is_done, (opponent_reward reward).
  rewrite He. split; [done|].
  split.
  { unfold opponent_reward. split.
    - intros Heq%Qeq_bool_iff. by rewrite Heq.
    - intros Hne. destruct (Qeq_bool reward (1 # 2)) eqn:E; [|done].
      by apply Qeq_bool_iff in E. }
  rewrite Hcalls.
  split; [left|].
  split.
  { intros ps pa Hlast. right. apply elem_of_app. left.
    unfold deferred_calls. rewrite Hlast. left. }
  split.
  { intros ps pa -> Hlast. right. apply elem_of_app. right. right.
    unfold deferred_calls. rewrite Hlast. left. }
  split.
  { intros c Hc.
    apply turn_calls_cases in Hc as [->|[[Hs Hin]|[[_ ->]|(_ & Hs & Hin)]]];
      try done.
    - simpl. split; [done|]. by intros [|].
    - apply elem_of_deferred_calls in Hin as (_ & ? & ? & _).
      rewrite Hs. split; [by intros [|]|done].
    - simpl. split; [done|]. by intros [|].
    - apply elem_of_deferred_calls in Hin as (_ & ? & ? & _).
      rewrite Hs. split; [by intros [|]|done]. }
  intros Hd [Hne Hnd].
  apply available_action_empty in Hav as (Hcell & _).
  destruct (step_valid_inv _ _ _ _ _ _ _ Hd Hcell Hstep)
    as (_ & _ & _ & w & _ & Htrue & Hfull & Hgo).
  destruct (truthy w) eqn:Ht; [|destruct (no_empty_cell _) eqn:Hf].
  - destruct (Htrue eq_refl) as (-> & _ & ->). split.
    + intros ->. by rewrite bool_decide_eq_true_2.
    + intros ->. rewrite bool_decide_eq_false_2 by congruence.
      by rewrite bool_decide_eq_true_2.
  - destruct (Hfull eq_refl eq_refl) as (-> & _ & ->). split; [|done].
    intros [=]. congruence.
  - destruct (Hgo eq_refl eq_refl) as (-> & _ & ->). split.
    + intros ->. simpl in Ht. destruct (String.eqb_spec mark "");
        [done | discriminate].
    + intros ->. discriminate.
Qed.

Lemma opponent_reward_rule_witness :
  let st := before_win in
  let cur := current st in
  let oth := opposite cur in
  let mark := player_mark (agent_of st cur) in
  get_available_actions (env st) ≠ [] ∧
  done (env st) = false ∧ mark_ok mark ∧
  last_move st !! mark
    = Some (["X"; "X"; " "; "O"; " "; " "; " "; " "; " "], 4) ∧
  ∃ fl st',
    turn st = Ok (fl, st') ∧ winner (env st') = Some mark ∧
    ∃ action ns reward is_done opp,
      step (env st) action mark = Ok (env st', (ns, reward, is_done)) ∧
      (((reward == 1 # 2)%Q → opp = reward) ∧
       (¬ (reward == 1 # 2)%Q → opp = (- reward)%Q)) ∧
      mkCall Immediate cur (cur_state st) action reward ns
             (get_available_actions (env st')) ∈ calls st' ∧
      (∀ prev_state prev_action,
         last_move st !! mark = Some (prev_state, prev_action) →
         mkCall Deferred oth prev_state prev_action opp (cur_state st)
                (get_available_actions (env st)) ∈ calls st') ∧
      (∀ prev_state prev_action,
         is_done = true →
         <[player_mark (agent_of st oth) := (cur_state st, action)]>
           (last_move st) !! mark = Some (prev_state, prev_action) →
         mkCall FinalOpponent oth prev_state prev_action opp ns []
           ∈ calls st') ∧
      (∀ c, c ∈ calls st' →
         (site c = Immediate ∨ site c = FinalMover →
            callee c = cur ∧ call_reward c = reward) ∧
         (site c = Deferred ∨ site c = FinalOpponent →
            callee c = oth ∧ call_reward c = opp)) ∧
      (done (env st) = false → mark_ok mark →
       (winner (env st') = Some mark → reward = 1%Q ∧ opp = (-1)%Q) ∧
       (winner (env st') = Some DRAW →
          reward = (1 # 2)%Q ∧ opp = (1 # 2)%Q)).
Proof.
  intros st cur oth mark.
  assert (get_available_actions (env st) ≠ []) as Hfree by (by vm_compute).
  split; [exact Hfree|]. split; [reflexivity|].
  split; [by split|]. split; [by vm_compute|].
  eexists _, _. split; [vm_compute; reflexivity|]. split; [reflexivity|].
  eapply (opponent_reward_rule before_win);
    [vm_compute; reflexivity | exact Hfree].
Defined.

Lemma list_insert_changes {A} (l : list A) (i : nat) (x y : A) :
  l !! i = Some x → y ≠ x → <[i := y]> l ≠ l.
Proof.
  intros Hx Hne Heq. apply (f_equal (fun l' => l' !! i)) in Heq.
  rewrite list_lookup_insert_eq in Heq by (by eapply lookup_lt_Some).
  congruence.
Qed.

(** C2, what the code does. The closing update of the mover is issued
    after [state = next_state]: it repeats the action, the reward and the
    next state of the update made right after the move, but its state
    argument is the board after the move, not the board the move was made
    on, and its list of next actions is empty. The entry it writes is the one
    of the final board, not the one written before. *)
Theorem final_update_uses_next_state (st st' : trainer) (fl : flow) :
  turn st = Ok (fl, st') →
  cur_state st = get_state (env st) →
  done (env st) = false →
  player_mark (agent_of st (current st)) ≠ EMPTY →
  ∀ fin, fin ∈ calls st' → site fin = FinalMover →
    ∃ imm, imm ∈ calls st' ∧ site imm = Immediate ∧
      callee fin = callee imm ∧
      call_state imm = cur_state st ∧
      call_action fin = call_action imm ∧
      call_reward fin = call_reward imm ∧
      call_next_state fin = call_next_state imm ∧
      call_next_available fin = [] ∧
      call_state fin = call_next_state imm ∧
      call_state fin ≠ call_state imm.
Proof.
  intros Hturn Hs Hd Hmark fin Hfin Hsite.
  destruct (turn_inv _ _ _ Hturn) as [(_ & Hnil & _)|Hmove].
  { rewrite Hnil in Hfin. by apply elem_of_nil in Hfin. }
  destruct Hmove as (action & e & ns & reward & is_done & Hav & Hstep & He &
                     _ & _ & _ & _ & Hcalls).
  rewrite Hcalls in Hfin.
  assert (fin = mkCall FinalMover (current st) ns action reward ns []) as ->.
  { apply turn_calls_cases in Hfin as [->|[[? _]|[[_ ->]|(_ & ? & _)]]];
      try done; simpl in *; congruence. }
  eexists. rewrite Hcalls. split; [left|]. simpl.
  repeat (split; [done|]).
  apply available_action_empty in Hav as (Hcell & _).
  destruct (step_valid_inv _ _ _ _ _ _ _ Hd Hcell Hstep) as (-> & _).
  rewrite Hs. apply list_insert_changes with EMPTY; [|done].
  by apply py_getitem_Ok.
Qed.

Lemma final_update_uses_next_state_witness :
  ∃ fl st',
    turn before_win = Ok (fl, st') ∧
    cur_state before_win = get_state (env before_win) ∧
    done (env before_win) = false ∧
    player_mark (agent_of before_win (current before_win)) ≠ EMPTY ∧
    ∀ fin, fin ∈ calls st' → site fin = FinalMover →
      ∃ imm, imm ∈ calls st' ∧ site imm = Immediate ∧
        callee fin = callee imm ∧
        call_state imm = cur_state before_win ∧
        call_action fin = call_action imm ∧
        call_reward fin = call_reward imm ∧
        call_next_state fin = call_next_state imm ∧
        call_next_available fin = [] ∧
        call_state fin = call_next_state imm ∧
        call_state fin ≠ call_state imm.
Proof.
  eexists _, _. split; [vm_compute; reflexivity|].
  split; [reflexivity|]. split; [reflexivity|]. split; [discriminate|].
  eapply (final_update_uses_next_state before_win);
    [vm_compute; reflexivity | reflexivity | reflexivity | discriminate].
Defined.

(** The winning turn of [before_win], call by call: the update of the mover
    is for the board before the move, the closing one for the board after. *)
Example before_win_calls :
  ∃ st', turn before_win = Ok (Break, st') ∧
    winner (env st') = Some "X" ∧
    calls st' =
      [ mkCall Immediate AgentX
          ["X"; "X"; " "; "O"; "O"; " "; " "; " "; " "] 2 1
          ["X"; "X"; "X"; "O"; "O"; " "; " "; " "; " "] [5; 6; 7; 8];
        mkCall Deferred AgentO
          ["X"; "X"; " "; "O"; " "; " "; " "; " "; " "] 4 (-1)
          ["X"; "X"; " "; "O"; "O"; " "; " "; " "; " "] [2; 5; 6; 7; 8];
        mkCall FinalMover AgentX
          ["X"; "X"; "X"; "O"; "O"; " "; " "; " "; " "] 2 1
          ["X"; "X"; "X"; "O"; "O"; " "; " "; " "; " "] [];
        mkCall FinalOpponent AgentO
          ["X"; "X"; " "; "O"; " "; " "; " "; " "; " "] 4 (-1)
          ["X"; "X"; "X"; "O"; "O"; " "; " "; " "; " "] [] ].
Proof. eexists. split; [vm_compute; reflexivity|]. split; reflexivity. Qed.

(** ** Termination of an episode *)

Lemma agents_wf_set_agent st w ag :
  agents_wf st → wf_table (q_table ag) → agents_wf (set_agent st w ag).
Proof. intros [Hx Ho] Hag. by destruct w; split. Qed.

Lemma agents_wf_agent_of st w : agents_wf st → wf_table (q_table (agent_of st w)).
Proof. intros [Hx Ho]. by destruct w. Qed.

Lemma logged_update_total st c w s a r ns na :
  agents_wf st → ∃ st', logged_update st c w s a r ns na = Ok st' ∧ agents_wf st'.
Proof.
  intros Hwf. unfold logged_update.
  destruct (update_q_table_spec (agent_of st w) s a r ns na
              (agents_wf_agent_of st w Hwf))
    as (ag' & m & t1 & -> & _ & _ & _ & _ & _ & Hwf' & _).
  simpl. eexists. split; [done|].
  by apply (agents_wf_set_agent st w ag').
Qed.

Lemma opponent_update_total st c oth mark r ns na :
  agents_wf st →
  ∃ st',
    match last_move st !! mark with
    | Some (prev_state, prev_action) =>
        logged_update st c oth prev_state prev_action (opponent_reward r) ns na
    | None => Ok st
    end = Ok st' ∧ agents_wf st'.
Proof.
  intros Hwf. destruct (last_move st !! mark) as [[ps pa]|]; [|eauto].
  by apply logged_update_total.
Qed.

Lemma step_total (e : TicTacToeEnv) (action : Z) (player : string) :
  length (board e) = 9%nat → done e = false →
  action ∈ get_available_actions e →
  ∃ e' ns r d, step e action player = Ok (e', (ns, r, d)).
Proof.
  intros Hlen Hd (Hcell & _)%available_action_empty.
  destruct (check_winner_total
              (<[index_of (board e) action := player]> (board e))) as [w Hw].
  { by rewrite length_insert. }
  rewrite (step_valid e action player w Hd Hcell Hw).
  destruct (truthy w); [eauto|]. destruct (no_empty_cell _); eauto.
Qed.

(** A turn started under the loop invariant returns. *)
Lemma turn_total (st : trainer) :
  trainer_inv st → ∃ fl st', turn st = Ok (fl, st') ∧ agents_wf st'.
Proof.
  intros (Hlen & Hd & Hwf & _). unfold turn.
  destruct (choose_action_spec (agent_of (set_calls st []) (current st))
              (cur_state st) (get_available_actions (env st)) (gen st)
              (agents_wf_agent_of _ _ Hwf))
    as (act & ag & g & Hchoose & _ & _ & Hwfag & _).
  simpl in *. rewrite Hchoose. simpl.
  pose proof (choose_action_inv _ _ _ _ _ _ _ Hchoose) as [_ Hact].
  set (st1 := set_gen (set_agent (set_calls st []) (current st) ag) g).
  assert (agents_wf st1) as Hwf1.
  { destruct Hwf as [Hx Ho]. unfold st1, agents_wf. simpl.
    by destruct (current st). }
  destruct act as [action|]; [|by exists Break, st1].
  destruct (step_total (env st) action (player_mark (agent_of st1 (current st)))
              Hlen Hd Hact) as (e & ns & r & d & ->).
  simpl.
  destruct (logged_update_total (set_env st1 e) Immediate (current st)
              (cur_state st) action r ns (get_available_actions e) Hwf1)
    as (st3 & -> & Hwf3). simpl.
  destruct (opponent_update_total st3 Deferred (opposite (current st))
              (player_mark (agent_of st3 (current st))) r (cur_state st)
              (get_available_actions (env st)) Hwf3)
    as (st4 & -> & Hwf4). simpl.
  set (st6 := set_cur_state (set_last_move st4 _) ns).
  assert (agents_wf st6) as Hwf6 by done.
  destruct d; [|by eexists _, _].
  destruct (logged_update_total st6 FinalMover (current st) ns
              action r ns [] Hwf6) as (st7 & -> & Hwf7). simpl.
  destruct (opponent_update_total st7 FinalOpponent (opposite (current st))
              (player_mark (agent_of st7 (current st))) r (cur_state st7) []
              Hwf7)
    as (st8 & -> & Hwf8). simpl.
  by eexists _, _.
Qed.

(** With as much fuel as there are empty cells the loop ends. *)
Lemma while_not_done_total (fuel : nat) (st : trainer) :
  trainer_inv st →
  (1 ≤ fuel)%nat →
  (length (get_available_actions (env st)) ≤ fuel)%nat →
  ∃ st', while_not_done fuel st = Some (Ok st') ∧ agents_wf st'.
Proof.
  revert st. induction fuel as [|fuel IH]; intros st Hinv H1 Hfuel; [lia|].
  destruct (turn_total st Hinv) as (fl & st1 & Hturn & Hwf1).
  simpl. rewrite Hturn. destruct fl; [|by exists st1].
  destruct (turn_inv _ _ _ Hturn) as [(? & _)|Hmove]; [done|].
  destruct Hmove as (action & e & ns & r & d & Hav & Hstep & He & _ & Hmarks &
                     Hfl & _).
  destruct d; [done|].
  destruct Hinv as (Hlen & Hd & _ & HmX & HmO).
  pose proof (available_action_empty _ _ Hav) as (Hcell & Hidx & _).
  destruct (step_valid_inv _ _ _ _ _ _ _ Hd Hcell Hstep)
    as (_ & Hb & Hd' & w & _ & Htrue & Hfull & Hgo).
  assert (player_mark (agent_of st (current st)) ≠ EMPTY) as Hmark
    by (by destruct (current st)).
  assert (no_empty_cell (board e) = false) as Hroom.
  { rewrite Hb. destruct (truthy w) eqn:Ht.
    - by destruct (Htrue eq_refl) as (_ & ? & _).
    - destruct (no_empty_cell _) eqn:Hf; [|done].
      by destruct (Hfull eq_refl eq_refl) as (_ & ? & _). }
  assert (S (length (get_available_actions e))
          = length (get_available_actions (env st))) as Hless.
  { unfold get_available_actions. rewrite Hb.
    apply empty_cells_fill; [|done]. by apply py_getitem_Ok. }
  assert (get_available_actions e ≠ []) as Hne.
  { intros Hnil. apply empty_cells_nil in Hnil. congruence. }
  apply IH.
  - unfold trainer_inv. rewrite He.
    split; [by rewrite Hb, length_insert|]. split; [done|].
    split; [done|].
    pose proof (Hmarks AgentX) as HX. pose proof (Hmarks AgentO) as HO.
    simpl in HX, HO. split; congruence.
  - destruct (get_available_actions e); [done|]. simpl in *. lia.
  - rewrite He. lia.
Qed.

(** C10. With 1 to 9 episodes the print interval is 0: the first episode
    is played to its end, both agents decay their exploration rate, and the
    test [(episode + 1) % print_interval] raises [ZeroDivisionError]. [train]
    returns no tally. *)
Theorem train_few_episodes_fails (fuel : nat) (e : TicTacToeEnv)
    (ax ao : QLearningAgent) (num_episodes : Z) (g : rng) :
  1 ≤ num_episodes ≤ 9 →
  (9 ≤ fuel)%nat →
  wf_table (q_table ax) → wf_table (q_table ao) →
  player_mark ax ≠ EMPTY → player_mark ao ≠ EMPTY →
  py_floordiv num_episodes 10 = Ok 0 ∧
  py_mod (0 + 1) 0 = Raise ZeroDivisionError ∧
  train fuel e ax ao num_episodes g = Some (Raise ZeroDivisionError).
Proof.
  intros Hn Hfuel Hwx Hwo Hmx Hmo.
  assert (py_floordiv num_episodes 10 = Ok 0) as Hdiv.
  { unfold py_floordiv. simpl. f_equal. apply Z.div_small. lia. }
  split; [done|]. split; [done|].
  unfold train. rewrite Hdiv.
  destruct (Z.to_nat num_episodes) as [|todo] eqn:Htodo; [lia|].
  simpl.
  match goal with
  | |- context [while_not_done fuel ?s] =>
      destruct (while_not_done_total fuel s) as (st' & -> & _)
  end.
  - split; [done|]. split; [done|]. by split.
  - lia.
  - simpl. lia.
  - done.
Qed.

Lemma train_few_episodes_fails_witness :
  1 ≤ 3 ≤ 9 ∧ (9 ≤ 9)%nat ∧
  wf_table (q_table (default_agent "X")) ∧
  wf_table (q_table (default_agent "O")) ∧
  player_mark (default_agent "X") ≠ EMPTY ∧
  player_mark (default_agent "O") ≠ EMPTY ∧
  py_floordiv 3 10 = Ok 0 ∧
  py_mod (0 + 1) 0 = Raise ZeroDivisionError ∧
  train 9 reset (default_agent "X") (default_agent "O") 3 tape0
    = Some (Raise ZeroDivisionError).
Proof.
  split; [lia|]. split; [lia|].
  split; [exact wf_new_q_table|]. split; [exact wf_new_q_table|].
  split; [discriminate|]. split; [discriminate|].
  apply (train_few_episodes_fails 9 reset (default_agent "X")
           (default_agent "O") 3 tape0);
    [lia | lia | exact wf_new_q_table | exact wf_new_q_table
     | discriminate | discriminate].
Defined.

(** No episode: the tally is returned as it was created. *)
Example train_no_episode (e : TicTacToeEnv) (ax ao : QLearningAgent) (g : rng) :
  ∃ st, train 9 e ax ao 0 g = Some (Ok st) ∧
        stats st = {[ "X" := 0; "O" := 0; "Draw" := 0 ]} ∧
        agent_x st = ax ∧ agent_o st = ao.
Proof. by eexists. Qed.

(** * Further properties of the environment *)

Lemma empty_cells_from_sorted (i : Z) (b : list string) :
  StronglySorted Z.lt (empty_cells_from i b) ∧
  Forall (fun a => i ≤ a < i + Z.of_nat (length b)) (empty_cells_from i b).
Proof.
  revert i. induction b as [|c b IH]; intros i; simpl.
  { split; constructor. }
  destruct (IH (i + 1)) as [Hs Hr].
  assert (Forall (fun a => i ≤ a < i + Z.of_nat (S (length b)))
            (empty_cells_from (i + 1) b)) as Hr'.
  { eapply Forall_impl; [exact Hr|]. simpl. intros a Ha. lia. }
  destruct (String.eqb c EMPTY); [|done].
  split.
  - apply StronglySorted_cons. split; [|done].
    eapply Forall_impl; [exact Hr|]. simpl. intros a Ha. lia.
  - constructor; [lia | done].
Qed.

(** X1. [get_available_actions] lists the empty cells in ascending order,
    each once, and nothing else: an index is in the list exactly when it is
    a position of the board (counted from 0) that holds [" "]. *)
Theorem available_actions_ascending (e : TicTacToeEnv) :
  StronglySorted Z.lt (get_available_actions e) ∧
  NoDup (get_available_actions e) ∧
  (∀ a, a ∈ get_available_actions e ↔
        0 ≤ a < Z.of_nat (length (board e)) ∧
        py_getitem (board e) a = Ok EMPTY) ∧
  (length (get_available_actions e) ≤ length (board e))%nat.
Proof.
  destruct (empty_cells_from_sorted 0 (board e)) as [Hs Hr].
  fold (get_available_actions e) in Hs, Hr.
  split; [done|]. split.
  { clear Hr. induction Hs as [|a l _ IH Ha]; constructor; [|done].
    intros Hin. rewrite Forall_forall in Ha. specialize (Ha _ Hin). lia. }
  split.
  { intros a. split.
    - intros Ha. rewrite Forall_forall in Hr. specialize (Hr _ Ha).
      split; [lia|]. by apply available_action_empty.
    - intros [Ha Hcell]. apply py_getitem_Ok in Hcell.
      apply elem_of_empty_cells. exists (Z.to_nat a). split; [lia|].
      unfold index_of in Hcell. by destruct (Z.ltb_spec a 0); [lia|]. }
  clear Hs Hr. unfold get_available_actions. generalize 0.
  induction (board e) as [|c b IH]; intros i; simpl; [done|].
  specialize (IH (i + 1)). destruct (String.eqb c EMPTY); simpl; lia.
Qed.

(** X2. An action outside [-len, len) makes [step] raise [IndexError],
    whether or not the game is over: the cell is read before the terminal
    flag is looked at. *)
Theorem step_out_of_range (e : TicTacToeEnv) (action : Z) (player : string) :
  action < - Z.of_nat (length (board e)) ∨ Z.of_nat (length (board e)) ≤ action →
  step e action player = Raise IndexError.
Proof.
  intros Hout. unfold step, py_getitem.
  destruct (Z.ltb_spec action 0) as [Hneg|Hpos].
  - destruct (Z.ltb_spec (action + Z.of_nat (length (board e))) 0); [done|lia].
  - destruct (Z.ltb_spec action 0); [lia|].
    destruct (Z.leb_spec (Z.of_nat (length (board e))) action); [done|lia].
Qed.

Lemma step_out_of_range_witness :
  (9 < - Z.of_nat (length (board x_wins_early)) ∨
   Z.of_nat (length (board x_wins_early)) ≤ 9) ∧
  step x_wins_early 9 "O" = Raise IndexError.
Proof.
  split; [right; simpl; lia|].
  apply (step_out_of_range x_wins_early 9 "O"). right. simpl. lia.
Defined.

(** X3. A negative action counts from the end, as Python indexing does:
    [step(a - len, player)] does what [step(a, player)] does. *)
Theorem step_negative_action (e : TicTacToeEnv) (a : Z) (player : string) :
  0 ≤ a < Z.of_nat (length (board e)) →
  step e (a - Z.of_nat (length (board e))) player = step e a player.
Proof.
  intros Ha. unfold step, py_getitem, py_setitem.
  destruct (Z.ltb_spec (a - Z.of_nat (length (board e))) 0); [|lia].
  destruct (Z.ltb_spec a 0); [lia|].
  by replace (a - Z.of_nat (length (board e)) + Z.of_nat (length (board e)))
    with a by lia.
Qed.

Lemma step_negative_action_witness :
  0 ≤ 8 < Z.of_nat (length (board reset)) ∧
  step reset (8 - Z.of_nat (length (board reset))) "X" = step reset 8 "X".
Proof.
  split; [simpl; lia|]. apply (step_negative_action reset 8 "X"). simpl. lia.
Defined.

(** X4. [step] only ever fills one empty cell. Whatever it is called
    with, when it returns the board has the same length, every cell other
    than the one the action denotes is as before, a cell that held a mark
    still holds it, a finished game stays finished, and the returned state
    and flag are those of the environment. *)
Theorem step_keeps_marks (e e' : TicTacToeEnv) (action : Z) (player : string)
    (s : state) (r : Q) (d : bool) :
  step e action player = Ok (e', (s, r, d)) →
  s = board e' ∧ d = done e' ∧
  length (board e') = length (board e) ∧
  (∀ i, i ≠ index_of (board e) action → board e' !! i = board e !! i) ∧
  (∀ i c, board e !! i = Some c → c ≠ EMPTY → board e' !! i = Some c) ∧
  (done e = true → e' = e) ∧
  (length (get_available_actions e') ≤ length (get_available_actions e))%nat.
Proof.
  intros Hstep.
  destruct (step_cases _ _ _ _ _ Hstep) as [[-> [= -> _ ->]]|[Hd Hcell]].
  { by repeat split. }
  destruct (step_valid_inv _ _ _ _ _ _ _ Hd Hcell Hstep)
    as (-> & Hb & Hd' & _).
  pose proof (py_getitem_Ok _ _ _ Hcell) as Hidx.
  split; [done|]. split; [done|]. rewrite Hb.
  split; [by rewrite length_insert|].
  split; [intros i Hi; by rewrite list_lookup_insert_ne|].
  split.
  { intros i c Hc Hne. rewrite list_lookup_insert_ne; [done|].
    intros <-. congruence. }
  split; [congruence|].
  unfold get_available_actions. rewrite Hb.
  destruct (decide (player = EMPTY)) as [->|Hp].
  - by rewrite list_insert_id.
  - pose proof (empty_cells_fill (board e) 0 _ player Hidx Hp). lia.
Qed.

Lemma step_keeps_marks_witness :
  ∃ e' s r d,
    step reset 4 "X" = Ok (e', (s, r, d)) ∧
    s = board e' ∧ d = done e' ∧
    length (board e') = length (board reset) ∧
    (∀ i, i ≠ index_of (board reset) 4 → board e' !! i = board reset !! i) ∧
    (∀ i c, board reset !! i = Some c → c ≠ EMPTY → board e' !! i = Some c) ∧
    (done reset = true → e' = reset) ∧
    (length (get_available_actions e') ≤ length (get_available_actions reset))%nat.
Proof.
  eexists _, _, _, _. split; [reflexivity|].
  eapply (step_keeps_marks reset _ 4 "X"). reflexivity.
Defined.

Lemma xo_cell_mark_ok (c : string) : xo_cell c → mark_ok c.
Proof. intros [->|[->| ->]]; split; discriminate. Qed.

Lemma Forall_xo_mark_ok (b : list string) : Forall xo_cell b → Forall mark_ok b.
Proof. intros Hb. eapply Forall_impl; [exact Hb | exact xo_cell_mark_ok]. Qed.

Lemma xo_no_draw (b : list string) : Forall xo_cell b → DRAW ∉ b.
Proof.
  intros Hb Hin. rewrite Forall_forall in Hb.
  by destruct (Hb _ Hin) as [?|[?|?]].
Qed.

(** A mark that holds a line of a board of X and O cells is X or O. *)
Lemma wins_xo (b : list string) (m : string) :
  Forall xo_cell b → wins b m → m = "X" ∨ m = "O".
Proof.
  intros Hb (l & _ & Hl & _ & _ & Hne). apply py_getitem_elem_of in Hl.
  rewrite Forall_forall in Hb. by destruct (Hb _ Hl) as [?|?].
Qed.

(** The stronger invariant of the reachable environments: the recorded
    winner is what [check_winner] computes from the board. *)
Lemma reachable_winner (e : TicTacToeEnv) :
  reachable e →
  length (board e) = 9%nat ∧ Forall xo_cell (board e) ∧
  check_winner (board e) = Ok (winner e) ∧
  (done e = true ↔ winner e ≠ None).
Proof.
  induction 1 as [|e action player e' [[s r] d] _ IH Hp Hstep].
  - split; [reflexivity|]. split; [repeat constructor; by left|].
    split; [reflexivity|]. split; [discriminate | by intros []].
  - destruct (step_cases _ _ _ _ _ Hstep) as [[-> _]|[Hd Hcell]]; [done|].
    destruct IH as (Hlen & Hcells & _).
    destruct (step_valid_inv _ _ _ _ _ _ _ Hd Hcell Hstep)
      as (_ & Hb & Hd' & w & Hw & Htrue & Hfull & Hgo).
    assert (Forall xo_cell (board e')) as Hcells'.
    { rewrite Hb. apply Forall_insert; [done|]. right. tauto. }
    split; [by rewrite Hb, length_insert|]. split; [done|].
    rewrite <- Hb in Hw, Hfull, Hgo.
    pose proof (check_winner_spec _ _ Hw (xo_no_draw _ Hcells')) as Hspec.
    destruct w as [m|].
    + assert (truthy (Some m) = true) as Ht.
      { case_decide as Hdraw; [by subst m|].
        by destruct (wins_xo _ _ Hcells' Hspec) as [-> | ->]. }
      destruct (Htrue Ht) as (-> & -> & _).
      split; [done|]. rewrite Hd'. by split.
    + destruct Hspec as [_ Hroom].
      assert (no_empty_cell (board e') = false) as Hf.
      { destruct (no_empty_cell (board e')) eqn:E; [|done].
        by apply no_empty_cell_spec in E. }
      destruct (Hgo eq_refl Hf) as (-> & -> & _).
      split; [done|]. rewrite Hd'. split; [discriminate | by intros []].
Qed.

Lemma reachable_x_wins_early : reachable x_wins_early.
Proof.
  apply (play_reachable [(0, "X"); (3, "O"); (1, "X"); (4, "O"); (2, "X")]
           reset); [exact reachable_reset | | reflexivity].
  repeat (apply Forall_cons_2; [simpl; auto|]). apply Forall_nil_2.
Qed.

(** X5. In every environment that [reset] and [step] with the marks X
    and O produce, the board has nine cells, each empty or X or O; the
    recorded winner is the outcome [check_winner] computes from the board;
    it is set exactly when the terminal flag is; it is X, O or the draw
    label; a recorded mark holds a completed line, and a recorded draw is a
    full board without one. *)
Theorem reachable_winner_recorded (e : TicTacToeEnv) :
  reachable e →
  length (board e) = 9%nat ∧ Forall xo_cell (board e) ∧
  check_winner (board e) = Ok (winner e) ∧
  (done e = true ↔ winner e ≠ None) ∧
  (∀ m, winner e = Some m → xo_outcome m) ∧
  (∀ m, winner e = Some m → m ≠ DRAW → wins (board e) m) ∧
  (winner e = Some DRAW → ¬ has_line (board e) ∧ EMPTY ∉ board e).
Proof.
  intros Hr. destruct (reachable_winner e Hr) as (Hlen & Hcells & Hw & Hd).
  pose proof (check_winner_spec _ _ Hw (xo_no_draw _ Hcells)) as Hspec.
  split; [done|]. split; [done|]. split; [done|]. split; [done|].
  split; [|split].
  - intros m Hm. rewrite Hm in Hspec. case_decide as Hdraw.
    + subst m. by right; right.
    + destruct (wins_xo _ _ Hcells Hspec) as [-> | ->];
        [by left | by right; left].
  - intros m Hm Hne. rewrite Hm in Hspec. by rewrite decide_False in Hspec.
  - intros Hm. rewrite Hm in Hspec. by rewrite decide_True in Hspec.
Qed.

Lemma reachable_winner_recorded_witness :
  reachable x_wins_early ∧
  length (board x_wins_early) = 9%nat ∧ Forall xo_cell (board x_wins_early) ∧
  check_winner (board x_wins_early) = Ok (winner x_wins_early) ∧
  (done x_wins_early = true ↔ winner x_wins_early ≠ None) ∧
  (∀ m, winner x_wins_early = Some m → xo_outcome m) ∧
  (∀ m, winner x_wins_early = Some m → m ≠ DRAW → wins (board x_wins_early) m) ∧
  (winner x_wins_early = Some DRAW →
     ¬ has_line (board x_wins_early) ∧ EMPTY ∉ board x_wins_early).
Proof.
  split; [exact reachable_x_wins_early|].
  apply (reachable_winner_recorded x_wins_early). exact reachable_x_wins_early.
Defined.

Lemma py_getitem_insert {A} (l : list A) (n : nat) (x m : A) (i : Z) :
  py_getitem (<[n := x]> l) i = Ok m →
  m = x ∨ py_getitem l i = Ok m.
Proof.
  unfold py_getitem. rewrite length_insert.
  destruct (_ || _); [discriminate|].
  set (j := Z.to_nat _).
  destruct (decide (n = j)) as [->|Hne].
  - destruct (l !! j) as [y|] eqn:Hj.
    + rewrite list_lookup_insert_eq by (by eapply lookup_lt_Some).
      intros [= <-]. by left.
    + rewrite list_insert_ge by (by apply lookup_ge_None). by rewrite Hj.
  - rewrite list_lookup_insert_ne by done. by right.
Qed.

(** A line completed by writing one cell carries the mark written, unless
    it was complete before. *)
Lemma wins_insert (b : list string) (n : nat) (player m : string) :
  wins (<[n := player]> b) m → m = player ∨ wins b m.
Proof.
  intros ([[i j] k] & Hl & Hi & Hj & Hk & Hne). simpl in *.
  apply py_getitem_insert in Hi as [?|Hi]; [by left|].
  apply py_getitem_insert in Hj as [?|Hj]; [by left|].
  apply py_getitem_insert in Hk as [?|Hk]; [by left|].
  right. by exists (i, j, k).
Qed.

(** X6. From an environment reached with the marks X and O, no move is a
    losing one: the reward of [step] is -10 (refused move, nothing changed),
    0 (the game goes on), 1/2 (draw) or 1 (the mover completed a line), and
    never -1. *)
Theorem step_never_loses (e e' : TicTacToeEnv) (action : Z) (player : string)
    (s : state) (r : Q) (d : bool) :
  reachable e →
  player = "X" ∨ player = "O" →
  step e action player = Ok (e', (s, r, d)) →
  mover_reward r ∧
  (r = (-10)%Q → e' = e) ∧
  (r = 0%Q → done e' = false ∧ winner e' = None) ∧
  (r = (1 # 2)%Q → done e' = true ∧ winner e' = Some DRAW) ∧
  (r = 1%Q → done e' = true ∧ winner e' = Some player ∧ wins (board e') player).
Proof.
  intros Hr Hp Hstep.
  destruct (step_cases _ _ _ _ _ Hstep) as [[-> [= _ -> _]]|[Hd Hcell]].
  { split; [by left|]. by repeat split. }
  destruct (reachable_winner e Hr) as (Hlen & Hcells & Hw0 & Hd0).
  assert (¬ has_line (board e)) as Hnoline.
  { assert (winner e = None) as Hnone.
    { destruct (winner e); [|done]. assert (done e = true) by (by apply Hd0).
      congruence. }
    rewrite Hnone in Hw0.
    by destruct (check_winner_spec _ _ Hw0 (xo_no_draw _ Hcells)). }
  assert (reachable e') as Hr' by (by eapply reachable_step).
  destruct (reachable_winner e' Hr') as (_ & Hcells' & Hw' & _).
  destruct (step_valid_inv _ _ _ _ _ _ _ Hd Hcell Hstep)
    as (_ & Hb & Hd' & w & Hw & Htrue & Hfull & Hgo).
  rewrite <- Hb in Hw, Hfull, Hgo.
  pose proof (check_winner_spec _ _ Hw (xo_no_draw _ Hcells')) as Hspec.
  assert (player ≠ DRAW) as Hpd by (by destruct Hp as [-> | ->]).
  destruct w as [m|].
  - assert (truthy (Some m) = true) as Ht.
    { case_decide as Hdraw; [by subst m|].
      by destruct (wins_xo _ _ Hcells' Hspec) as [-> | ->]. }
    destruct (Htrue Ht) as (Hwin & -> & ->).
    case_decide as Hdraw.
    + subst m. rewrite bool_decide_eq_false_2 by congruence.
      rewrite bool_decide_eq_true_2 by done.
      split; [by right; right; left|]. by repeat split.
    + assert (m = player) as ->.
      { rewrite Hb in Hspec. apply wins_insert in Hspec as [?|Hold]; [done|].
        destruct Hnoline. by exists m. }
      rewrite bool_decide_eq_true_2 by done.
      split; [by right; right; right|]. by repeat split.
  - destruct Hspec as [_ Hroom].
    assert (no_empty_cell (board e') = false) as Hf.
    { destruct (no_empty_cell (board e')) eqn:E; [|done].
      by apply no_empty_cell_spec in E. }
    destruct (Hgo eq_refl Hf) as (Hwin & -> & ->).
    split; [by right; left|]. by repeat split.
Qed.

Lemma step_never_loses_witness :
  let e := mkEnv ["X"; "X"; " "; "O"; "O"; " "; " "; " "; " "] false None in
  ∃ e' s r d,
    reachable e ∧ ("X" = "X" ∨ "X" = "O") ∧
    step e 2 "X" = Ok (e', (s, r, d)) ∧
    mover_reward r ∧
    (r = (-10)%Q → e' = e) ∧
    (r = 0%Q → done e' = false ∧ winner e' = None) ∧
    (r = (1 # 2)%Q → done e' = true ∧ winner e' = Some DRAW) ∧
    (r = 1%Q → done e' = true ∧ winner e' = Some "X" ∧ wins (board e') "X").
Proof.
  intros e.
  assert (reachable e) as Hr.
  { apply (play_reachable [(0, "X"); (3, "O"); (1, "X"); (4, "O")] reset);
      [exact reachable_reset | | reflexivity].
    repeat (apply Forall_cons_2; [simpl; auto|]). apply Forall_nil_2. }
  eexists _, _, _, _. split; [exact Hr|]. split; [by left|].
  split; [reflexivity|].
  eapply (step_never_loses e _ 2 "X"); [exact Hr | by left | reflexivity].
Defined.

(** * Further properties of the agent *)






(** X8. [load_q_table] accepts whatever dictionary of rows the file
    holds. A missing file leaves the agent as it is. After loading an
    existing file the table is a defaultdict of [defaultdict(float)] rows
    again, even when the file held plain dicts: every lookup
    [q_table[s][a]] succeeds and returns the number the file has for the
    pair, zero when it has none, and the agent keeps its mark, its rates and
    its exploration rate. *)
Theorem load_q_table_any_file (ag : QLearningAgent) (filename : string)
    (fs : files) :
  (fs !! filename = None → load_q_table ag filename fs = ag) ∧
  (∀ d, fs !! filename = Some d →
     let loaded := load_q_table ag filename fs in
     wf_table (q_table loaded) ∧
     (∀ s a, estimate (q_table loaded) s a = estimate d s a) ∧
     (∀ s a, stored (q_table loaded) s a ↔ stored d s a) ∧
     (∀ s a, ∃ t', table_getitem (q_table loaded) s a = Ok (estimate d s a, t')) ∧
     same_settings ag loaded ∧ epsilon loaded = epsilon ag).
Proof.
  split; [by unfold load_q_table; intros ->|]. intros d Hd. cbv zeta.
  unfold load_q_table. rewrite Hd. simpl.
  pose proof (wf_rebuild d) as Hwf. destruct (rebuild_spec d) as [_ Hitems].
  assert (∀ s a, estimate (rebuild d) s a = estimate d s a) as Hest.
  { intros s a. unfold estimate. rewrite Hitems, lookup_fmap.
    by destruct (items d !! s). }
  split; [done|]. split; [done|]. split.
  { intros s a. unfold stored. rewrite Hitems. split.
    - intros (row & Hrow & Ha). rewrite lookup_fmap in Hrow.
      destruct (items d !! s) as [row0|]; [|done].
      injection Hrow as <-. by exists row0.
    - intros (row & Hrow & Ha). rewrite lookup_fmap, Hrow. simpl.
      by eexists. }
  split; [|by repeat split].
  intros s a. destruct (table_getitem_estimate _ s a Hwf) as (t' & Ht & _).
  exists t'. by rewrite <- Hest.
Qed.

Lemma load_q_table_any_file_witness :
  let s := ["X"; " "; " "; " "; " "; " "; " "; " "; " "] in
  let d := mkDict None {[ s := mkDict None {[ 4 := (1 # 10)%Q ]} ]} in
  let fs : files := {[ "q_table_o.pkl" := d ]} in
  let loaded := load_q_table (default_agent "O") "q_table_o.pkl" fs in
  fs !! "q_table_o.pkl" = Some d ∧
  wf_table (q_table loaded) ∧
  (∀ s a, estimate (q_table loaded) s a = estimate d s a) ∧
  (∀ s a, stored (q_table loaded) s a ↔ stored d s a) ∧
  (∀ s a, ∃ t', table_getitem (q_table loaded) s a = Ok (estimate d s a, t')) ∧
  same_settings (default_agent "O") loaded ∧
  epsilon loaded = epsilon (default_agent "O").
Proof.
  intros s d fs loaded.
  assert (fs !! "q_table_o.pkl" = Some d) as Hfile by reflexivity.
  split; [exact Hfile|].
  exact (proj2 (load_q_table_any_file (default_agent "O") "q_table_o.pkl" fs)
           d Hfile).
Defined.

(** * Further properties of train *)

Lemma same_but_table_refl ag : same_but_table ag ag.
Proof. by destruct ag. Qed.

Lemma same_but_table_set ag t : same_but_table ag (set_q_table ag t).
Proof. done. Qed.

Lemma same_but_table_trans ag1 ag2 ag3 :
  same_but_table ag1 ag2 → same_but_table ag2 ag3 → same_but_table ag1 ag3.
Proof. unfold same_but_table. intros -> ->. done. Qed.

Lemma same_but_table_fields ag ag' :
  same_but_table ag ag' →
  same_settings ag ag' ∧ epsilon ag' = epsilon ag.
Proof. intros ->. by repeat split. Qed.

Lemma same_but_table_decay ag ag' :
  same_but_table ag ag' →
  same_but_table (decay_exploration ag) (decay_exploration ag').
Proof. intros ->. done. Qed.

Lemma same_but_table_iter_decay (n : nat) ag ag' :
  same_but_table ag ag' →
  same_but_table (Nat.iter n decay_exploration ag)
                 (Nat.iter n decay_exploration ag').
Proof.
  intros H. induction n as [|n IH]; simpl; [done|].
  by apply same_but_table_decay.
Qed.

Lemma update_q_table_same ag s a r ns na ag' :
  update_q_table ag s a r ns na = Ok ag' → same_but_table ag ag'.
Proof.
  unfold update_q_table. intros H. bind_inv H as [m t] H1.
  bind_inv H as [q t'] H2. bind_inv H as t'' H3. by injection H as <-.
Qed.

Lemma choose_action_same ag s available_actions g act ag' g' :
  choose_action ag s available_actions g = Ok (act, ag', g') →
  same_but_table ag ag'.
Proof.
  unfold choose_action. destruct available_actions as [|a0 l] eqn:Hav.
  { intros [= _ <- _]. apply same_but_table_refl. }
  rewrite <- Hav. clear Hav a0 l. simpl.
  destruct (Qlt_le_dec _ _).
  - intros H. bind_inv H as [x g1] H1. injection H as _ <- _.
    apply same_but_table_refl.
  - intros H. bind_inv H as [row t] H1.
    destruct (action_values row available_actions) as [|p d] eqn:Ed.
    + bind_inv H as [x g1] H2. by injection H as _ <- _.
    + rewrite <- Ed in H. bind_inv H as m H2.
      bind_inv H as [x g1] H3. by injection H as _ <- _.
Qed.

Lemma logged_update_frame st c w s a r ns na st' :
  logged_update st c w s a r ns na = Ok st' →
  stats st' = stats st ∧
  ∀ w', same_but_table (agent_of st w') (agent_of st' w').
Proof.
  unfold logged_update. intros H. bind_inv H as ag' Hup.
  injection H as <-. split; [done|]. intros w'.
  apply update_q_table_same in Hup.
  destruct w, w'; simpl; done || apply same_but_table_refl.
Qed.

Lemma opponent_update_frame st c oth mark r ns na st' :
  match last_move st !! mark with
  | Some (prev_state, prev_action) =>
      logged_update st c oth prev_state prev_action (opponent_reward r) ns na
  | None => Ok st
  end = Ok st' →
  stats st' = stats st ∧
  ∀ w', same_but_table (agent_of st w') (agent_of st' w').
Proof.
  destruct (last_move st !! mark) as [[ps pa]|].
  - apply logged_update_frame.
  - intros [= <-]. split; [done|]. intros w'. apply same_but_table_refl.
Qed.

(** What a turn leaves alone: the agents but for their tables, and the
    tally unless the move ended the game. *)
Lemma turn_frame (st st' : trainer) (fl : flow) :
  turn st = Ok (fl, st') →
  (∀ w, same_but_table (agent_of st w) (agent_of st' w)) ∧
  (fl = Continue ∨ calls st' = [] → stats st' = stats st) ∧
  (fl = Break → calls st' ≠ [] →
   stats st' = tally (stats st) (winner (env st'))).
Proof.
  intros H. unfold turn in H.
  bind_inv H as [[act ag] g] Hchoose.
  apply choose_action_same in Hchoose. simpl in Hchoose.
  set (st1 := set_gen (set_agent (set_calls st []) (current st) ag) g) in *.
  assert (∀ w, same_but_table (agent_of st w) (agent_of st1 w)) as H1.
  { intros w. unfold st1. simpl.
    destruct w, (current st); simpl in *; done || apply same_but_table_refl. }
  destruct act as [action|].
  2:{ injection H as <- <-. split; [done|]. split; [done|]. by intros _ []. }
  bind_inv H as [e [[ns reward] is_done]] Hstep.
  bind_inv H as st3 Hup3.
  pose proof (logged_update_inv _ _ _ _ _ _ _ _ _ Hup3) as (Hc3 & _).
  apply logged_update_frame in Hup3 as [Hs3 H3]. simpl in Hs3.
  bind_inv H as st4 Hup4.
  pose proof (opponent_update_inv _ _ _ _ _ _ _ _ Hup4) as (Hc4 & _).
  apply opponent_update_frame in Hup4 as [Hs4 H4].
  assert (∀ w, same_but_table (agent_of st w) (agent_of st4 w)) as H04.
  { intros w. eapply same_but_table_trans; [|apply H4].
    eapply same_but_table_trans; [apply H1 | apply (H3 w)]. }
  assert (calls st4 ≠ []) as Hne4.
  { rewrite Hc4, Hc3. simpl. done. }
  destruct is_done.
  - bind_inv H as st7 Hup7.
    pose proof (logged_update_inv _ _ _ _ _ _ _ _ _ Hup7) as (Hc7 & _).
    apply logged_update_frame in Hup7 as [Hs7 H7]. simpl in Hs7.
    bind_inv H as st8 Hup8.
    pose proof (opponent_update_inv _ _ _ _ _ _ _ _ Hup8) as (Hc8 & _).
    apply opponent_update_frame in Hup8 as [Hs8 H8].
    injection H as <- <-. simpl.
    split.
    { intros w. eapply same_but_table_trans; [|apply H8].
      eapply same_but_table_trans; [apply H04 | apply (H7 w)]. }
    split.
    + intros [?|Hnil]; [done|]. exfalso.
      rewrite Hnil in Hc8. rewrite Hc7 in Hc8. simpl in Hc8.
      by destruct (calls st4), (deferred_calls _ _ _ _ _ _ _).
    + intros _ _. congruence.
  - injection H as <- <-. simpl.
    split; [done|]. split; [intros _; congruence | done].
Qed.

Lemma reachable_done_outcome (e : TicTacToeEnv) :
  reachable e → done e = true → ∃ m, winner e = Some m ∧ xo_outcome m.
Proof.
  intros Hr Hd. destruct (reachable_winner e Hr) as (_ & Hcells & Hw & Hdone).
  destruct (winner e) as [m|] eqn:Hm; [|by apply Hdone in Hd].
  exists m. split; [done|].
  pose proof (check_winner_spec _ _ Hw (xo_no_draw _ Hcells)) as Hspec.
  simpl in Hspec. case_decide as Hdraw; [by right; right|].
  destruct (wins_xo _ _ Hcells Hspec) as [-> | ->]; [by left | by right; left].
Qed.

Lemma tally_counts (stats : gmap string Z) (m : string) :
  tally_keys stats → xo_outcome m →
  tally_keys (tally stats (Some m)) ∧
  tally_total (tally stats (Some m)) = tally_total stats + 1.
Proof.
  intros ([x Hx] & [o Ho] & [d Hd]) Hm. unfold tally, tally_total, tally_keys.
  destruct Hm as [->|[->| ->]].
  - rewrite Hx. rewrite lookup_insert_eq, !lookup_insert_ne by done.
    rewrite ?Hx, ?Ho, ?Hd. simpl. split; [eauto|lia].
  - rewrite Ho. rewrite lookup_insert_eq, !lookup_insert_ne by done.
    rewrite ?Hx, ?Ho, ?Hd. simpl. split; [eauto|lia].
  - rewrite Hd. rewrite lookup_insert_eq, !lookup_insert_ne by done.
    rewrite ?Hx, ?Ho, ?Hd. simpl. split; [eauto|lia].
Qed.

(** An episode under way runs to the end of the game. *)
Lemma while_not_done_finishes (fuel : nat) (st : trainer) :
  reachable (env st) → done (env st) = false →
  get_available_actions (env st) ≠ [] →
  agents_wf st →
  xo_mark (player_mark (agent_x st)) → xo_mark (player_mark (agent_o st)) →
  (length (get_available_actions (env st)) ≤ fuel)%nat →
  ∃ st',
    while_not_done fuel st = Some (Ok st') ∧ agents_wf st' ∧
    (∀ w, same_but_table (agent_of st w) (agent_of st' w)) ∧
    reachable (env st') ∧ done (env st') = true ∧
    stats st' = tally (stats st) (winner (env st')).
Proof.
  revert st. induction fuel as [|fuel IH];
    intros st Hr Hd Hav Hwf Hx Ho Hfuel.
  { destruct (get_available_actions (env st)); [done | simpl in Hfuel; lia]. }
  destruct (reachable_winner _ Hr) as (Hlen & _).
  assert (trainer_inv st) as Hinv.
  { split; [done|]. split; [done|]. split; [done|].
    split; [by destruct Hx as [-> | ->] | by destruct Ho as [-> | ->]]. }
  destruct (turn_total st Hinv) as (fl & st1 & Hturn & Hwf1).
  destruct (turn_frame _ _ _ Hturn) as (Hsame & Hkeep & Htally).
  simpl. rewrite Hturn.
  destruct (turn_inv _ _ _ Hturn) as [(_ & _ & Hnil & _)|Hmove]; [done|].
  destruct Hmove as (action & e & ns & r & d & Hact & Hstep & He & _ & _ &
                     Hfl & _ & Hcalls).
  assert (xo_mark (player_mark (agent_of st (current st)))) as Hmark
    by (by destruct (current st)).
  assert (reachable e) as Hr' by (by eapply reachable_step).
  pose proof (available_action_empty _ _ Hact) as (Hcell & _).
  destruct (step_valid_inv _ _ _ _ _ _ _ Hd Hcell Hstep)
    as (_ & Hb & Hd' & w & _ & Htrue & Hfull & Hgo).
  destruct d; subst fl.
  - exists st1. split; [done|]. split; [done|]. split; [done|].
    rewrite He. split; [done|]. split; [done|]. rewrite <- He.
    apply Htally; [done|]. by rewrite Hcalls.
  - assert (no_empty_cell (board e) = false) as Hroom.
    { rewrite Hb. destruct (truthy w) eqn:Ht.
      - by destruct (Htrue eq_refl) as (_ & ? & _).
      - destruct (no_empty_cell _) eqn:Hf; [|done].
        by destruct (Hfull eq_refl eq_refl) as (_ & ? & _). }
    assert (S (length (get_available_actions e))
            = length (get_available_actions (env st))) as Hless.
    { unfold get_available_actions. rewrite Hb.
      apply empty_cells_fill; [by apply py_getitem_Ok|].
      by destruct Hmark as [-> | ->]. }
    pose proof (same_but_table_fields _ _ (Hsame AgentX)) as [(HmX & _) _].
    pose proof (same_but_table_fields _ _ (Hsame AgentO)) as [(HmO & _) _].
    simpl in HmX, HmO.
    destruct (IH st1) as (st' & Hloop & Hwf' & Hsame' & Hr'' & Hd'' & Hstats).
    + by rewrite He.
    + by rewrite He.
    + rewrite He. intros Hnil. apply empty_cells_nil in Hnil. congruence.
    + done.
    + by rewrite HmX.
    + by rewrite HmO.
    + rewrite He. lia.
    + exists st'. split; [done|]. split; [done|]. split.
      { intros w'. eapply same_but_table_trans; [apply Hsame | apply Hsame']. }
      split; [done|]. split; [done|].
      rewrite Hstats. f_equal. apply Hkeep. by left.
Qed.

Lemma agents_wf_decay_both st : agents_wf st → agents_wf (decay_both st).
Proof. by intros [? ?]. Qed.

(** The [for] loop of [train] with a print interval other than zero. *)
Lemma episodes_run (fuel : nat) (print_interval : Z) (todo : nat) (episode : Z)
    (st : trainer) :
  print_interval ≠ 0 → (9 ≤ fuel)%nat →
  agents_wf st →
  xo_mark (player_mark (agent_x st)) → xo_mark (player_mark (agent_o st)) →
  tally_keys (stats st) →
  ∃ st',
    episodes fuel print_interval todo episode st = Some (Ok st') ∧
    agents_wf st' ∧ tally_keys (stats st') ∧
    tally_total (stats st') = tally_total (stats st) + Z.of_nat todo ∧
    (∀ w, same_but_table (Nat.iter todo decay_exploration (agent_of st w))
                         (agent_of st' w)) ∧
    (todo ≠ 0%nat → done (env st') = true ∧ reachable (env st')).
Proof.
  intros Hpi Hfuel. revert episode st.
  induction todo as [|todo IH]; intros episode st Hwf Hx Ho Hkeys.
  { exists st. split; [done|]. split; [done|]. split; [done|].
    split; [simpl; lia|]. split; [|done].
    intros w. apply same_but_table_refl. }
  destruct (while_not_done_finishes fuel (start_episode st))
    as (st1 & Hloop & Hwf1 & Hsame1 & Hr1 & Hd1 & Hstats1);
    [exact reachable_reset | done | done | done | done | done | simpl; lia |].
  cbn [episodes]. rewrite Hloop.
  unfold py_mod. destruct (Z.eqb_spec print_interval 0) as [|_]; [done|].
  destruct (reachable_done_outcome _ Hr1 Hd1) as (m & Hm & Hxo).
  rewrite Hm in Hstats1.
  change (stats (start_episode st)) with (stats st) in Hstats1.
  destruct (tally_counts (stats st) m Hkeys Hxo) as [Hkeys1 Htot1].
  pose proof (same_but_table_fields _ _ (Hsame1 AgentX)) as [(HmX & _) _].
  pose proof (same_but_table_fields _ _ (Hsame1 AgentO)) as [(HmO & _) _].
  simpl in HmX, HmO.
  destruct (IH (episode + 1) (decay_both st1))
    as (st' & Hrun & Hwf' & Hkeys' & Htot' & Hsame' & Hdone').
  - by apply agents_wf_decay_both.
  - simpl. by rewrite HmX.
  - simpl. by rewrite HmO.
  - change (stats (decay_both st1)) with (stats st1). by rewrite Hstats1.
  - exists st'. split; [done|]. split; [done|]. split; [done|].
    split.
    { rewrite Htot'. change (stats (decay_both st1)) with (stats st1).
      rewrite Hstats1, Htot1. lia. }
    split.
    + intros w. rewrite Nat.iter_succ_r.
      eapply same_but_table_trans; [|apply Hsame'].
      apply same_but_table_iter_decay.
      specialize (Hsame1 w). destruct w; simpl in *;
        by apply same_but_table_decay.
    + intros _. destruct todo as [|todo'].
      * simpl in Hrun. injection Hrun as <-. by split.
      * by apply Hdone'.
Qed.



(** X10. [train] decays the exploration rate of each agent once per
    episode and touches nothing else of an agent but its table: after
    [num_episodes] episodes (ten or more) each agent has its mark, its
    learning rate, discount, decay factor and floor as before, and the
    exploration rate that [num_episodes] calls of [decay_exploration] give. *)
Theorem train_decays_once_per_episode (fuel : nat) (e : TicTacToeEnv)
    (ax ao : QLearningAgent) (num_episodes : Z) (g : rng) :
  10 ≤ num_episodes → (9 ≤ fuel)%nat →
  wf_table (q_table ax) → wf_table (q_table ao) →
  xo_mark (player_mark ax) → xo_mark (player_mark ao) →
  ∃ st,
    train fuel e ax ao num_episodes g = Some (Ok st) ∧
    epsilon (agent_x st) = epsilon_after (Z.to_nat num_episodes) ax ∧
    epsilon (agent_o st) = epsilon_after (Z.to_nat num_episodes) ao ∧
    same_settings ax (agent_x st) ∧ same_settings ao (agent_o st) ∧
    wf_table (q_table (agent_x st)) ∧ wf_table (q_table (agent_o st)).
Proof.
  intros Hn Hfuel Hwx Hwo Hx Ho. unfold train, py_floordiv. simpl.
  assert (num_episodes `div` 10 ≠ 0) as Hpi.
  { assert (1 ≤ num_episodes `div` 10); [|lia].
    apply Z.div_le_lower_bound; lia. }
  match goal with
  | |- context [episodes fuel ?p ?n ?k ?s] =>
      destruct (episodes_run fuel p n k s Hpi Hfuel)
        as (st & Hrun & [Hwx' Hwo'] & _ & _ & Hsame & _)
  end; try done.
  exists st. split; [done|].
  pose proof (same_but_table_fields _ _ (Hsame AgentX)) as [HsX HeX].
  pose proof (same_but_table_fields _ _ (Hsame AgentO)) as [HsO HeO].
  simpl in *.
  destruct (iter_decay_settings (Z.to_nat num_episodes) ax) as [Hmin_x Hdec_x].
  destruct (iter_decay_settings (Z.to_nat num_episodes) ao) as [Hmin_o Hdec_o].
  assert (∀ n ag, same_settings ag (Nat.iter n decay_exploration ag)) as Hiter.
  { intros n ag. induction n as [|n (? & ? & ? & ? & ?)]; simpl;
      by repeat split. }
  split; [done|]. split; [done|].
  split.
  { destruct (Hiter (Z.to_nat num_episodes) ax) as (? & ? & ? & ? & ?).
    destruct HsX as (? & ? & ? & ? & ?). repeat split; congruence. }
  split; [|done].
  destruct (Hiter (Z.to_nat num_episodes) ao) as (? & ? & ? & ? & ?).
  destruct HsO as (? & ? & ? & ? & ?). repeat split; congruence.
Qed.

Lemma train_decays_once_per_episode_witness :
  10 ≤ 10 ∧ (9 ≤ 9)%nat ∧
  wf_table (q_table (default_agent "X")) ∧
  wf_table (q_table (default_agent "O")) ∧
  xo_mark (player_mark (default_agent "X")) ∧
  xo_mark (player_mark (default_agent "O")) ∧
  ∃ st,
    train 9 reset (default_agent "X") (default_agent "O") 10 tape0
      = Some (Ok st) ∧
    epsilon (agent_x st) = epsilon_after (Z.to_nat 10) (default_agent "X") ∧
    epsilon (agent_o st) = epsilon_after (Z.to_nat 10) (default_agent "O") ∧
    same_settings (default_agent "X") (agent_x st) ∧
    same_settings (default_agent "O") (agent_o st) ∧
    wf_table (q_table (agent_x st)) ∧ wf_table (q_table (agent_o st)).
Proof.
  split; [lia|]. split; [lia|].
  split; [exact wf_new_q_table|]. split; [exact wf_new_q_table|].
  split; [by left|]. split; [by right|].
  apply (train_decays_once_per_episode 9 reset (default_agent "X")
           (default_agent "O") 10 tape0);
    [lia | lia | exact wf_new_q_table | exact wf_new_q_table
     | by left | by right].
Defined.

(** * Properties of play_game *)





(** * The agents of the window *)

Lemma load_q_table_epsilon ag filename fs :
  epsilon (load_q_table ag filename fs) = epsilon ag.
Proof. unfold load_q_table. by destruct (fs !! filename). Qed.

(** X12. The agents [load_ai_agents] builds for the window keep the
    default exploration rate 1.0, whatever the files hold, and the playback
    never lowers it. For every draw below 1 (as [random.uniform(0, 1)]
    gives) [choose_action] of such an agent returns the element that
    [random.choice] picks from the whole list of free cells, and leaves the
    agent as it is: the loaded table plays no part in the move. *)
Theorem gui_agents_always_explore (fs : files) (s : state)
    (available_actions : list Z) (g : rng) (ag : QLearningAgent) :
  ag = (load_ai_agents fs).1 ∨ ag = (load_ai_agents fs).2 →
  available_actions ≠ [] →
  (uniform_tape g (cursor g) < 1)%Q →
  epsilon ag = 1%Q ∧
  ∃ a,
    available_actions
      !! (choice_tape g (S (cursor g)) `mod` length available_actions)%nat
      = Some a ∧
    choose_action ag s available_actions g
      = Ok (Some a, ag, advance (advance g)).
Proof.
  intros Hag Hne Hu.
  assert (epsilon ag = 1%Q) as Heps.
  { destruct Hag as [-> | ->]; simpl; by rewrite load_q_table_epsilon. }
  split; [done|].
  assert (choice_tape g (S (cursor g)) `mod` length available_actions
          < length available_actions)%nat as Hk.
  { apply Nat.mod_upper_bound. by destruct available_actions. }
  destruct (lookup_lt_is_Some_2 _ _ Hk) as [a Ha].
  exists a. split; [done|]. unfold choose_action.
  destruct available_actions as [|a0 l] eqn:Hav; [done|].
  rewrite <- Hav in *. clear Hav a0 l. simpl. rewrite Heps.
  destruct (Qlt_le_dec _ _) as [_|Hge]; [|exfalso; lra].
  unfold random_choice. simpl. by rewrite Ha.
Qed.

Lemma gui_agents_always_explore_witness :
  let s := ["X"; " "; " "; " "; " "; " "; " "; " "; " "] in
  let fs : files :=
    {[ "q_table_o.pkl" :=
         mkDict None {[ s := mkDict None {[ 4 := 1%Q ]} ]} ]} in
  let ag := (load_ai_agents fs).2 in
  (ag = (load_ai_agents fs).1 ∨ ag = (load_ai_agents fs).2) ∧
  [1; 4] ≠ [] ∧ (uniform_tape tape0 (cursor tape0) < 1)%Q ∧
  epsilon ag = 1%Q ∧
  ∃ a,
    [1; 4] !! (choice_tape tape0 (S (cursor tape0)) `mod` length [1; 4])%nat
      = Some a ∧
    choose_action ag s [1; 4] tape0 = Ok (Some a, ag, advance (advance tape0)).
Proof.
  intros s fs ag. split; [by right|]. split; [discriminate|].
  split; [reflexivity|].
  apply (gui_agents_always_explore fs s [1; 4] tape0 ag);
    [by right | discriminate | reflexivity].
Defined.

(** * The window and the environment *)

Lemma grid3_cells (b : list (list string)) :
  grid3 b →
  ∃ l0 l1 l2 l3 l4 l5 l6 l7 l8, b = [[l0; l1; l2]; [l3; l4; l5]; [l6; l7; l8]].
Proof.
  intros [Hlen Hrows].
  do 3 (destruct b as [|? b]; [discriminate|]). destruct b; [|discriminate].
  apply Forall_cons in Hrows as [H0 Hrows].
  apply Forall_cons in Hrows as [H1 Hrows].
  apply Forall_cons in Hrows as [H2 _].
  repeat match goal with
  | H : length ?r = 3%nat |- _ =>
      do 3 (destruct r as [|? r]; [discriminate|]);
      destruct r; [clear H|discriminate]
  end.
  by repeat eexists.
Qed.

Lemma cell_of_label_blank (l : string) :
  l ≠ EMPTY → String.eqb (cell_of_label l) EMPTY = String.eqb l "".
Proof.
  intros Hl. unfold cell_of_label.
  destruct (String.eqb_spec l "") as [->|Hne]; [done|].
  by destruct (String.eqb_spec l EMPTY).
Qed.

Lemma cell_of_label_blank' (l : string) :
  l ≠ EMPTY → String.eqb EMPTY (cell_of_label l) = String.eqb l "".
Proof. intros Hl. by rewrite String.eqb_sym, cell_of_label_blank. Qed.

Lemma cell_of_label_eqb (x y : string) :
  x ≠ EMPTY → y ≠ EMPTY →
  String.eqb (cell_of_label x) (cell_of_label y) = String.eqb x y.
Proof.
  intros Hx Hy. unfold cell_of_label, EMPTY in *.
  destruct (String.eqb_spec x "") as [->|Hx0],
           (String.eqb_spec y "") as [->|Hy0]; try done.
  - destruct (String.eqb_spec " " y), (String.eqb_spec "" y); congruence.
  - destruct (String.eqb_spec x " "), (String.eqb_spec x ""); congruence.
Qed.

(** The test of one line gives the same answer on the labels and on the
    cells they stand for. *)
Lemma scan_cells (x y z : string) :
  x ≠ EMPTY → y ≠ EMPTY → z ≠ EMPTY →
  scan EMPTY [(cell_of_label x, cell_of_label y, cell_of_label z)]
  = scan "" [(x, y, z)].
Proof.
  intros Hx Hy Hz. simpl.
  rewrite !cell_of_label_eqb, cell_of_label_blank by done.
  destruct (String.eqb_spec x y) as [->|]; [|done].
  destruct (String.eqb_spec y z) as [->|]; [|done].
  unfold cell_of_label. by destruct (String.eqb z "").
Qed.

Lemma gui_triple_scan (b : list (list string)) (p1 p2 p3 : Z * Z)
    (x y z : string) :
  get_label b p1.1 p1.2 = Ok x → get_label b p2.1 p2.2 = Ok y →
  get_label b p3.1 p3.2 = Ok z →
  gui_triple b p1 p2 p3 = Ok (scan "" [(x, y, z)]).
Proof.
  intros Hx Hy Hz. unfold gui_triple. rewrite Hx, Hy. simpl.
  destruct (String.eqb x y); [|done]. rewrite Hz. simpl.
  by destruct (_ && _).
Qed.

Lemma first_line_scan (b : list string) (i j k : Z) (ls : list (Z * Z * Z))
    (x y z : string) :
  py_getitem b i = Ok x → py_getitem b j = Ok y → py_getitem b k = Ok z →
  first_line b ((i, j, k) :: ls) =
    match scan EMPTY [(x, y, z)] with
    | Some m => Ok (Some m)
    | None => first_line b ls
    end.
Proof.
  intros Hx Hy Hz. simpl. rewrite Hx, Hy. simpl.
  destruct (String.eqb x y); [|done]. rewrite Hz. simpl.
  by destruct (_ && _).
Qed.

(** The two [check_winner] compared on a grid of nine labels. *)
Lemma gui_check_winner_board (b : list (list string)) :
  grid3 b → labels_ok b →
  gui_check_winner b = check_winner (frame_board b).
Proof.
  intros Hg Hok.
  destruct (grid3_cells b Hg) as (l0 & l1 & l2 & l3 & l4 & l5 & l6 & l7 & l8 & ->).
  repeat match goal with
  | H : labels_ok _ |- _ => unfold labels_ok in H
  | H : Forall _ (_ :: _) |- _ => apply Forall_cons in H as [? ?]
  | H : Forall _ [] |- _ => clear H
  end.
  unfold gui_check_winner, check_winner, lines, frame_board.
  cbn [gui_rows gui_columns concat app fmap list_fmap].
  rewrite (gui_triple_scan _ (0, 0) (0, 1) (0, 2) l0 l1 l2) by reflexivity.
  rewrite (gui_triple_scan _ (1, 0) (1, 1) (1, 2) l3 l4 l5) by reflexivity.
  rewrite (gui_triple_scan _ (2, 0) (2, 1) (2, 2) l6 l7 l8) by reflexivity.
  rewrite (gui_triple_scan _ (0, 0) (1, 0) (2, 0) l0 l3 l6) by reflexivity.
  rewrite (gui_triple_scan _ (0, 1) (1, 1) (2, 1) l1 l4 l7) by reflexivity.
  rewrite (gui_triple_scan _ (0, 2) (1, 2) (2, 2) l2 l5 l8) by reflexivity.
  rewrite (gui_triple_scan _ (0, 0) (1, 1) (2, 2) l0 l4 l8) by reflexivity.
  rewrite (gui_triple_scan _ (0, 2) (1, 1) (2, 0) l2 l4 l6) by reflexivity.
  do 8 (erewrite first_line_scan; [|reflexivity..]).
  rewrite !scan_cells by done.
  cbn [mbind result_bind first_line].
  repeat (match goal with
          | |- context [scan "" [?t]] => destruct (scan "" [t]); [reflexivity|]
          end).
  cbn [mbind result_bind gui_blank gui_blank_in_row get_label py_getitem].
  unfold no_empty_cell. cbn [existsb].
  rewrite !cell_of_label_blank' by done.
  simpl.
  repeat (match goal with
          | |- context [String.eqb ?l ""] =>
              destruct (String.eqb l ""); [reflexivity|]
          end).
  reflexivity.
Qed.

(** X13. The window and the environment agree on the outcome of a
    position. On a three by three grid of labels, none of which is the
    one-blank string, [TicTacToeFrame.check_winner] returns what
    [TicTacToeEnv.check_winner] returns on the board read off the buttons
    (an unlabelled button standing for an empty cell): the same winning
    label, the draw, or nothing ([False] in the window, [None] in the
    environment). *)
Theorem gui_check_winner_agrees (b : list (list string)) :
  grid3 b → labels_ok b →
  gui_check_winner b = check_winner (frame_board b).
Proof. apply gui_check_winner_board. Qed.

Lemma gui_check_winner_agrees_witness :
  let b := [["X"; "O"; ""]; ["O"; "X"; ""]; [""; ""; "X"]] in
  grid3 b ∧ labels_ok b ∧
  gui_check_winner b = check_winner (frame_board b).
Proof.
  intros b.
  assert (grid3 b) as Hg by (split; [reflexivity | repeat constructor]).
  assert (labels_ok b) as Hok by (repeat constructor; discriminate).
  split; [exact Hg|]. split; [exact Hok|].
  apply (gui_check_winner_agrees b Hg Hok).
Defined.

Lemma cell_of_label_empty (l : string) :
  l ≠ EMPTY → cell_of_label l = EMPTY → l = "".
Proof.
  unfold cell_of_label. intros Hne.
  by destruct (String.eqb_spec l "").
Qed.

(** X14. What [run_ai_game] reads off a three by three grid of labels
    (none of them the one-blank string) is what the environment would say of
    the same position: the board has an empty cell for each unlabelled
    button, the list of free cells is [get_available_actions] of that board,
    and [divmod(a, 3)] of each free cell [a] addresses an unlabelled
    button. *)
Theorem read_board_matches_environment (b : list (list string)) :
  grid3 b → labels_ok b →
  ∃ available,
    read_board b = Ok (frame_board b, available) ∧
    (∀ e, board e = frame_board b → get_available_actions e = available) ∧
    (∀ a, a ∈ available →
       get_label b (py_divmod3 a).1 (py_divmod3 a).2 = Ok "" ∧
       (py_divmod3 a).1 * 3 + (py_divmod3 a).2 = a).
Proof.
  intros Hg Hok.
  destruct (grid3_cells b Hg) as (l0 & l1 & l2 & l3 & l4 & l5 & l6 & l7 & l8 & ->).
  repeat match goal with
  | H : labels_ok _ |- _ => unfold labels_ok in H
  | H : Forall _ (_ :: _) |- _ => apply Forall_cons in H as [? ?]
  | H : Forall _ [] |- _ => clear H
  end.
  assert (read_board [[l0; l1; l2]; [l3; l4; l5]; [l6; l7; l8]]
          = Ok (frame_board [[l0; l1; l2]; [l3; l4; l5]; [l6; l7; l8]],
                empty_cells_from 0
                  (frame_board [[l0; l1; l2]; [l3; l4; l5]; [l6; l7; l8]])))
    as Hread.
  { unfold read_board, frame_board.
    cbn [read_rows read_row get_label py_getitem mbind result_bind concat app
         fmap list_fmap empty_cells_from length].
    simpl. rewrite !cell_of_label_blank by done.
    generalize (cell_of_label l0) (cell_of_label l1) (cell_of_label l2)
               (cell_of_label l3) (cell_of_label l4) (cell_of_label l5)
               (cell_of_label l6) (cell_of_label l7) (cell_of_label l8).
    intros.
    destruct (String.eqb l0 ""), (String.eqb l1 ""), (String.eqb l2 ""),
             (String.eqb l3 ""), (String.eqb l4 ""), (String.eqb l5 ""),
             (String.eqb l6 ""), (String.eqb l7 ""), (String.eqb l8 "");
      reflexivity. }
  eexists. split; [exact Hread|]. split.
  { intros e He. unfold get_available_actions. by rewrite He. }
  intros a (n & -> & Hn)%elem_of_empty_cells.
  unfold frame_board in Hn. cbn [concat app fmap list_fmap] in Hn.
  do 9 (destruct n as [|n];
        [injection Hn as Hn; apply cell_of_label_empty in Hn as ->; [|done];
         split; reflexivity|]).
  done.
Qed.

Lemma read_board_matches_environment_witness :
  let b := [["X"; "O"; ""]; ["O"; "X"; ""]; [""; ""; ""]] in
  grid3 b ∧ labels_ok b ∧
  ∃ available,
    read_board b = Ok (frame_board b, available) ∧
    (∀ e, board e = frame_board b → get_available_actions e = available) ∧
    (∀ a, a ∈ available →
       get_label b (py_divmod3 a).1 (py_divmod3 a).2 = Ok "" ∧
       (py_divmod3 a).1 * 3 + (py_divmod3 a).2 = a).
Proof.
  intros b.
  assert (grid3 b) as Hg by (split; [reflexivity | repeat constructor]).
  assert (labels_ok b) as Hok by (repeat constructor; discriminate).
  split; [exact Hg|]. split; [exact Hok|].
  apply (read_board_matches_environment b Hg Hok).
Defined.

(** ** Clicks and moves *)

Lemma labels_xo_ok (b : list (list string)) : labels_xo b → labels_ok b.
Proof.
  intros H. eapply Forall_impl; [exact H|]. intros row Hrow.
  eapply Forall_impl; [exact Hrow|]. simpl. by intros l [->|[->| ->]].
Qed.

Lemma frame_board_xo (b : list (list string)) :
  labels_xo b → Forall xo_cell (frame_board b).
Proof.
  intros H. unfold frame_board. apply Forall_fmap.
  apply Forall_concat. eapply Forall_impl; [exact H|]. intros row Hrow.
  eapply Forall_impl; [exact Hrow|]. simpl.
  intros l [->|[->| ->]]; [by left | by right; left | by right; right].
Qed.

Lemma frame_board_length (b : list (list string)) :
  grid3 b → length (frame_board b) = 9%nat.
Proof.
  intros Hg.
  destruct (grid3_cells b Hg) as (l0 & l1 & l2 & l3 & l4 & l5 & l6 & l7 & l8 & ->).
  reflexivity.
Qed.

(** A click, given what the button and the cell hold. *)
Lemma click_step_at (f : TicTacToeFrame) (e : TicTacToeEnv) (row col : Z)
    (l : string) :
  frame_ok f → frame_matches f e →
  l = "" ∨ l = "X" ∨ l = "O" →
  get_label (buttons f) row col = Ok l →
  py_getitem (board e) (row * 3 + col) = Ok (cell_of_label l) →
  (∃ b', set_label (buttons f) row col (current_player f) = Ok b' ∧
         grid3 b' ∧ labels_xo b' ∧
         get_label b' row col = Ok (current_player f) ∧
         frame_board b'
           = <[index_of (board e) (row * 3 + col) := current_player f]> (board e)) →
  ∃ f' e' s r d,
    on_button_click f row col = Ok f' ∧
    step e (row * 3 + col) (current_player f) = Ok (e', (s, r, d)) ∧
    frame_ok f' ∧ frame_matches f' e' ∧
    (r = (-10)%Q → f' = f ∧ e' = e) ∧
    (r ≠ (-10)%Q →
       l = "" ∧ game_over f = false ∧
       get_label (buttons f') row col = Ok (current_player f) ∧
       check_winner (board e') = Ok (winner e') ∧
       (done e' = false →
          current_player f' ≠ current_player f ∧
          status_label f' = "Player " +:+ current_player f' +:+ "'s turn") ∧
       (∀ m, winner e' = Some m → status_label f' = outcome_message m)).
Proof.
  intros Hok [Hb Hd] Hl Hlabel Hcell (b' & Hset & Hg' & Hxo' & Hlabel' & Hb').
  pose proof Hok as (Hg & Hxo & Hp & Hact).
  assert (l ≠ EMPTY) as Hle by (by destruct Hl as [->|[->| ->]]).
  unfold on_button_click. rewrite Hact, Hlabel. simpl.
  destruct (game_over f || negb (String.eqb l "")) eqn:Hguard.
  - (* the click is ignored, the move refused *)
    exists f, e, (get_state e), (-10)%Q, (done e).
    split; [done|]. split.
    { unfold step. rewrite Hcell. simpl.
      rewrite cell_of_label_blank, Hd, orb_comm, Hguard by done. done. }
    split; [done|]. split; [done|]. split; [done|]. done.
  - apply orb_false_iff in Hguard as [Hover Hblank].
    apply negb_false_iff in Hblank.
    assert (l = "") as -> by (by destruct (String.eqb_spec l "")).
    rewrite Hset. simpl.
    assert (done e = false) as Hde by congruence.
    assert (length (frame_board b') = 9%nat) as Hlen'
      by (by apply frame_board_length).
    destruct (check_winner_total _ Hlen') as [w Hw].
    pose proof (frame_board_xo _ Hxo') as Hcells'.
    pose proof (check_winner_spec _ _ Hw (xo_no_draw _ Hcells')) as Hspec.
    rewrite (gui_check_winner_board b' Hg' (labels_xo_ok _ Hxo')), Hw. simpl.
    assert (step e (row * 3 + col) (current_player f)
            = if truthy w
              then Ok (mkEnv (frame_board b') true w,
                       (frame_board b',
                        (if bool_decide (w = Some (current_player f)) then 1
                         else if bool_decide (w = Some DRAW) then 1 # 2
                              else -1)%Q, true))
              else if no_empty_cell (frame_board b')
                   then Ok (mkEnv (frame_board b') true (Some DRAW),
                            (frame_board b', (1 # 2)%Q, true))
                   else Ok (mkEnv (frame_board b') false w,
                            (frame_board b', 0%Q, false))) as Hstep.
    { rewrite Hb'. apply step_valid; [done|done|by rewrite <- Hb']. }
    rewrite Hstep.
    destruct w as [m|].
    + assert (truthy (Some m) = true) as ->.
      { case_decide as Hdraw; [by subst m|].
        by destruct (wins_xo _ _ Hcells' Hspec) as [-> | ->]. }
      eexists _, _, _, _, _. split; [reflexivity|]. split; [reflexivity|].
      split; [split; [done|]; split; [done|]; by split|]. split; [by split|].
      split.
      { intros Hr. exfalso. revert Hr.
        by repeat destruct (bool_decide _). }
      intros _. split; [done|]. split; [done|]. split; [done|].
      split; [done|]. split; [done|]. simpl. by intros m' [= <-].
    + destruct Hspec as [_ Hroom].
      assert (no_empty_cell (frame_board b') = false) as ->.
      { destruct (no_empty_cell _) eqn:E; [|done].
        by apply no_empty_cell_spec in E. }
      simpl.
      eexists _, _, _, _, _. split; [reflexivity|]. split; [reflexivity|].
      split.
      { split; [done|]. split; [done|]. split; [|done]. simpl.
        destruct Hp as [-> | ->]; [by right | by left]. }
      split; [by split|]. split; [done|].
      intros _. split; [done|]. split; [done|]. split; [done|].
      split; [done|]. simpl. split; [|done].
      intros _. split; [|done]. by destruct Hp as [-> | ->].
Qed.

(** The button and the cell a click addresses, and the grid after the
    label is set. *)
Lemma click_position (b : list (list string)) (row col : Z) (p : string) :
  grid3 b → labels_xo b → xo_mark p →
  0 ≤ row < 3 → 0 ≤ col < 3 →
  ∃ l b',
    (l = "" ∨ l = "X" ∨ l = "O") ∧
    get_label b row col = Ok l ∧
    py_getitem (frame_board b) (row * 3 + col) = Ok (cell_of_label l) ∧
    set_label b row col p = Ok b' ∧
    grid3 b' ∧ labels_xo b' ∧
    get_label b' row col = Ok p ∧
    frame_board b'
      = <[index_of (frame_board b) (row * 3 + col) := p]> (frame_board b).
Proof.
  intros Hg Hxo Hp Hrow Hcol.
  destruct (grid3_cells b Hg) as (l0 & l1 & l2 & l3 & l4 & l5 & l6 & l7 & l8 & ->).
  unfold labels_xo in Hxo.
  repeat match goal with
  | H : Forall _ (_ :: _) |- _ => apply Forall_cons in H as [? ?]
  | H : Forall _ [] |- _ => clear H
  end.
  assert (cell_of_label p = p) as Hcp by (by destruct Hp as [-> | ->]).
  assert (p = "" ∨ p = "X" ∨ p = "O") as Hp'
    by (destruct Hp; [right; by left | right; by right]).
  assert (row = 0 ∨ row = 1 ∨ row = 2) as Hr by lia.
  assert (col = 0 ∨ col = 1 ∨ col = 2) as Hc by lia.
  destruct Hr as [->|[->| ->]], Hc as [->|[->| ->]].
  all: eexists _, _.
  all: split; [|split; [reflexivity|]]; [assumption|].
  all: split; [reflexivity|]; split; [reflexivity|].
  all: split; [split; [reflexivity | by repeat constructor]|].
  all: split;
    [unfold labels_xo;
     repeat first [apply Forall_nil_2 | apply Forall_cons_2]; assumption|].
  all: split; [reflexivity|].
  all: unfold frame_board, index_of; simpl; by rewrite Hcp.
Qed.

Lemma click_step (f : TicTacToeFrame) (e : TicTacToeEnv) (row col : Z) :
  frame_ok f → frame_matches f e →
  0 ≤ row < 3 → 0 ≤ col < 3 →
  ∃ f' e' s r d,
    on_button_click f row col = Ok f' ∧
    step e (row * 3 + col) (current_player f) = Ok (e', (s, r, d)) ∧
    frame_ok f' ∧ frame_matches f' e' ∧
    (r = (-10)%Q → f' = f ∧ e' = e) ∧
    (r ≠ (-10)%Q →
       get_label (buttons f) row col = Ok "" ∧ game_over f = false ∧
       get_label (buttons f') row col = Ok (current_player f) ∧
       check_winner (board e') = Ok (winner e') ∧
       (done e' = false →
          current_player f' ≠ current_player f ∧
          status_label f' = "Player " +:+ current_player f' +:+ "'s turn") ∧
       (∀ m, winner e' = Some m → status_label f' = outcome_message m)).
Proof.
  intros Hok Hm Hrow Hcol. pose proof Hok as (Hg & Hxo & Hp & _).
  pose proof Hm as [Hb _].
  destruct (click_position (buttons f) row col (current_player f)
              Hg Hxo Hp Hrow Hcol)
    as (l & b' & Hl & Hlabel & Hcell & Hset & Hg' & Hxo' & Hlabel' & Hb').
  rewrite <- Hb in Hcell, Hb'.
  destruct (click_step_at f e row col l Hok Hm Hl Hlabel Hcell)
    as (f' & e' & s & r & d & Hclick & Hstep & Hok' & Hm' & Hbad & Hgood).
  { by exists b'. }
  exists f', e', s, r, d. split; [done|]. split; [done|]. split; [done|].
  split; [done|]. split; [done|].
  intros Hr. destruct (Hgood Hr) as (-> & ? & ? & ? & ? & ?).
  split; [done|]. split; [done|]. split; [done|]. split; [done|]. by split.
Qed.

Lemma on_restart_fresh (f : TicTacToeFrame) :
  grid3 (buttons f) →
  ∃ f0, on_restart f = Ok f0 ∧ frame_ok f0 ∧ frame_matches f0 reset ∧
        buttons f0 = [[""; ""; ""]; [""; ""; ""]; [""; ""; ""]] ∧
        current_player f0 = "X" ∧ game_over f0 = false.
Proof.
  intros Hg.
  destruct (grid3_cells _ Hg) as (l0 & l1 & l2 & l3 & l4 & l5 & l6 & l7 & l8 & Hb).
  unfold on_restart. rewrite Hb. eexists. split; [reflexivity|].
  split; [|by repeat split].
  split; [split; [reflexivity | by repeat constructor]|].
  split; [|split; [by left | done]].
  unfold labels_xo. simpl.
  repeat first [apply Forall_nil_2 | apply Forall_cons_2]; by left.
Qed.

Lemma click_all_reachable (cs : list (Z * Z)) (f : TicTacToeFrame)
    (e : TicTacToeEnv) :
  Forall (fun c => 0 ≤ c.1 < 3 ∧ 0 ≤ c.2 < 3) cs →
  frame_ok f → frame_matches f e → reachable e →
  ∃ f' e', click_all cs f = Ok f' ∧ frame_ok f' ∧ frame_matches f' e' ∧
           reachable e'.
Proof.
  intros Hcs. revert f e.
  induction Hcs as [|[row col] cs [Hrow Hcol] _ IH]; intros f e Hok Hm Hr.
  { by exists f, e. }
  destruct (click_step f e row col Hok Hm Hrow Hcol)
    as (f1 & e1 & s & r & d & Hclick & Hstep & Hok1 & Hm1 & _).
  destruct Hok as (_ & _ & Hp & _).
  destruct (IH f1 e1 Hok1 Hm1) as (f' & e' & Hall & ? & ? & ?).
  { eapply reachable_step; [exact Hr| |exact Hstep]. exact Hp. }
  exists f', e'. simpl. rewrite Hclick. simpl.
  split; [done|]. split; [done|]. by split.
Qed.

(** X15. A click in a game between two people is a move of the
    environment. When the window shows the position of an environment (same
    board, same terminal flag), a click on button [(row, col)] and
    [step(row * 3 + col, current_player)] go together: either both refuse
    (the button is labelled or the game over: the window is unchanged, the
    environment returns -10), or the button takes the player's label, the
    window again shows the new position, the turn passes to the other player
    when the game goes on, and the status line names the outcome the
    environment records when it does not. *)
Theorem click_matches_step (f : TicTacToeFrame) (e : TicTacToeEnv)
    (row col : Z) :
  frame_ok f → frame_matches f e →
  0 ≤ row < 3 → 0 ≤ col < 3 →
  ∃ f' e' s r d,
    on_button_click f row col = Ok f' ∧
    step e (row * 3 + col) (current_player f) = Ok (e', (s, r, d)) ∧
    frame_ok f' ∧ frame_matches f' e' ∧
    (r = (-10)%Q → f' = f ∧ e' = e) ∧
    (r ≠ (-10)%Q →
       get_label (buttons f) row col = Ok "" ∧ game_over f = false ∧
       get_label (buttons f') row col = Ok (current_player f) ∧
       check_winner (board e') = Ok (winner e') ∧
       (done e' = false →
          current_player f' ≠ current_player f ∧
          status_label f' = "Player " +:+ current_player f' +:+ "'s turn") ∧
       (∀ m, winner e' = Some m → status_label f' = outcome_message m)).
Proof. apply click_step. Qed.

Lemma click_matches_step_witness :
  let b := [["X"; "X"; ""]; ["O"; "O"; ""]; [""; ""; ""]] in
  let f := mkFrame b "X" false false "Player X's turn" in
  let e := mkEnv (frame_board b) false None in
  frame_ok f ∧ frame_matches f e ∧ 0 ≤ 0 < 3 ∧ 0 ≤ 2 < 3 ∧
  ∃ f' e' s r d,
    on_button_click f 0 2 = Ok f' ∧
    step e (0 * 3 + 2) (current_player f) = Ok (e', (s, r, d)) ∧
    frame_ok f' ∧ frame_matches f' e' ∧
    (r = (-10)%Q → f' = f ∧ e' = e) ∧
    (r ≠ (-10)%Q →
       get_label (buttons f) 0 2 = Ok "" ∧ game_over f = false ∧
       get_label (buttons f') 0 2 = Ok (current_player f) ∧
       check_winner (board e') = Ok (winner e') ∧
       (done e' = false →
          current_player f' ≠ current_player f ∧
          status_label f' = "Player " +:+ current_player f' +:+ "'s turn") ∧
       (∀ m, winner e' = Some m → status_label f' = outcome_message m)).
Proof.
  intros b f e.
  assert (frame_ok f) as Hok.
  { split; [split; [reflexivity | by repeat constructor]|].
    split; [|split; [by left | reflexivity]].
    unfold labels_xo. simpl.
    repeat first [apply Forall_nil_2 | apply Forall_cons_2]; auto. }
  assert (frame_matches f e) as Hm by (by split).
  split; [exact Hok|]. split; [exact Hm|]. split; [lia|]. split; [lia|].
  apply (click_matches_step f e 0 2 Hok Hm); lia.
Defined.

(** X16. Every position a game between two people can show is a position
    of the environment. After [on_restart], whatever buttons are clicked,
    the window shows a board that [reset] and [step] with the marks X and O
    reach, with its terminal flag, and it is still a grid of nine buttons
    unlabelled or carrying X or O with X or O to play. *)
Theorem clicks_stay_reachable (f : TicTacToeFrame) (cs : list (Z * Z)) :
  grid3 (buttons f) →
  Forall (fun c => 0 ≤ c.1 < 3 ∧ 0 ≤ c.2 < 3) cs →
  ∃ f0 f' e',
    on_restart f = Ok f0 ∧ frame_matches f0 reset ∧
    click_all cs f0 = Ok f' ∧
    frame_ok f' ∧ frame_matches f' e' ∧ reachable e'.
Proof.
  intros Hg Hcs.
  destruct (on_restart_fresh f Hg) as (f0 & Hrestart & Hok0 & Hm0 & _).
  destruct (click_all_reachable cs f0 reset Hcs Hok0 Hm0 reachable_reset)
    as (f' & e' & Hall & Hok' & Hm' & Hr').
  by exists f0, f', e'.
Qed.

Lemma clicks_stay_reachable_witness :
  let f := mkFrame [["X"; "O"; "X"]; ["O"; "X"; "O"]; ["X"; ""; ""]]
             "O" true false "Player X wins!" in
  let cs := [(1, 1); (0, 0); (1, 1)] in
  grid3 (buttons f) ∧
  Forall (fun c => 0 ≤ c.1 < 3 ∧ 0 ≤ c.2 < 3) cs ∧
  ∃ f0 f' e',
    on_restart f = Ok f0 ∧ frame_matches f0 reset ∧
    click_all cs f0 = Ok f' ∧
    frame_ok f' ∧ frame_matches f' e' ∧ reachable e'.
Proof.
  intros f cs.
  assert (grid3 (buttons f)) as Hg
    by (split; [reflexivity | by repeat constructor]).
  assert (Forall (fun c => 0 ≤ c.1 < 3 ∧ 0 ≤ c.2 < 3) cs) as Hcs
    by (repeat constructor; simpl; lia).
  split; [exact Hg|]. split; [exact Hcs|].
  apply (clicks_stay_reachable f cs Hg Hcs).
Defined.
